(** * gflags.flagvalues: the registry of flag objects and its argument scanner

    A shallow embedding of [src/gflags/flagvalues.py] (class [FlagValues])
    together with the properties its design document states about it.

    Conventions of the embedding.
    - Python 2 [str] values are Rocq [string]s (sequences of 8-bit characters).
    - [Flag] objects are mutable and shared: the registry stores references
      ([addr]) into an object store ([Heap]); equality of flag objects is
      identity of references.
    - Every method takes the state it reads and returns the state it leaves
      behind next to its outcome, [inl e] for a raised exception [e] and
      [inr v] for a normal return of [v]. *)

From Stdlib Require Import Ascii.
From stdpp Require Import gmap strings list fin_maps sorting.

(** ** Python string primitives *)

Module PyStr.

(** The one-character string [c]. *)
Definition chr (c : ascii) : string := String c EmptyString.

(** The line terminator. *)
Definition NL : string := chr (Ascii.ascii_of_nat 10).

(** [len(s)] *)
Abbreviation len := String.length.

(** [s.startswith(p)] *)
Definition startswith (s p : string) : bool := String.prefix p s.

(** [c in s] for a one-character [c]. *)
Fixpoint contains (c : ascii) (s : string) : bool :=
  match s with
  | EmptyString => false
  | String a s' => if decide (a = c) then true else contains c s'
  end.

(** [s.lstrip(c)] for a one-character [c]. *)
Fixpoint lstrip_chr (c : ascii) (s : string) : string :=
  match s with
  | EmptyString => EmptyString
  | String a s' => if decide (a = c) then lstrip_chr c s' else s
  end.

(** [s.split(c, 1)] as the pair (text before the first [c], text after it);
    only used where [c in s] holds, a string without [c] gives
    [(s, EmptyString)]. *)
Fixpoint split1 (c : ascii) (s : string) : string * string :=
  match s with
  | EmptyString => (EmptyString, EmptyString)
  | String a s' =>
      if decide (a = c) then (EmptyString, s')
      else let '(l, r) := split1 c s' in (String a l, r)
  end.

(** [s.split(c)]: always at least one field. *)
Fixpoint split (c : ascii) (s : string) : list string :=
  match s with
  | EmptyString => [EmptyString]
  | String a s' =>
      if decide (a = c) then EmptyString :: split c s'
      else match split c s' with
           | [] => [chr a]
           | w :: ws => String a w :: ws
           end
  end.

(** [s.lstrip()], [s.rstrip()], [s.strip()]: whitespace is the six
    characters of [Ascii.is_space]. *)
Fixpoint lstrip (s : string) : string :=
  match s with
  | EmptyString => EmptyString
  | String a s' => if Ascii.is_space a then lstrip s' else s
  end.
Definition rstrip (s : string) : string := String.rev (lstrip (String.rev s)).
Definition strip (s : string) : string := rstrip (lstrip s).

Fixpoint all_space (s : string) : bool :=
  match s with
  | EmptyString => true
  | String a s' => Ascii.is_space a && all_space s'
  end.

(** [s.isspace()]: non-empty and all whitespace. *)
Definition isspace (s : string) : bool :=
  match s with
  | EmptyString => false
  | _ => all_space s
  end.

(** [s[n:]] and [s[:n]] *)
Fixpoint slice_from (n : nat) (s : string) : string :=
  match n, s with
  | 0, _ => s
  | S n', String _ s' => slice_from n' s'
  | S _, EmptyString => EmptyString
  end.
Fixpoint slice_to (n : nat) (s : string) : string :=
  match n, s with
  | S n', String a s' => String a (slice_to n' s')
  | _, _ => EmptyString
  end.

(** [s[i]] *)
Abbreviation get := String.get.

(** [file.readlines()] on the text [s]: the lines with their terminator
    kept, the last one possibly without. *)
Fixpoint readlines_go (cur : string) (s : string) : list string :=
  match s with
  | EmptyString =>
      match cur with EmptyString => [] | _ => [String.rev cur] end
  | String a s' =>
      if decide (a = Ascii.ascii_of_nat 10)
      then String.rev (String a cur) :: readlines_go EmptyString s'
      else readlines_go (String a cur) s'
  end.
Definition readlines (s : string) : list string := readlines_go EmptyString s.

End PyStr.

(** ** Values, exceptions, flag objects *)

(** The Python values a flag can hold or be handed by the scanner. *)
Inductive PyVal :=
| PyNone
| PyBool (b : bool)
| PyInt (n : Z)
| PyStr (s : string).

Global Instance PyVal_eq_dec : EqDecision PyVal.
Proof. solve_decision. Defined.

(** The exceptions [flagvalues.py] raises or lets through. *)
Inductive Exc :=
| AttributeError (name : string)
| KeyError (name : string)
| UnboundLocalError (var : string)
| RuntimeError (msg : string)
| FlagsError (msg : string)
| IllegalFlagValue (msg : string)
| DuplicateFlagError (name : string)
| UnrecognizedFlagError (name : string) (value : string) (suggestions : list string)
| UnparsedFlagAccessError (msg : string)
| CantOpenFlagFileError (filename : string).

Global Instance Exc_eq_dec : EqDecision Exc.
Proof. solve_decision. Defined.

(** A validator object: identified by [validator_id], ordered by the
    [insertion_index] it received when it was created. *)
Record Validator := mkValidator {
  insertion_index : nat;
  validator_id : nat
}.

Global Instance Validator_eq_dec : EqDecision Validator.
Proof. solve_decision. Defined.

(** The attributes of a [Flag] object that the registry reads or writes.
    The class itself lives in [gflags/flag.py]. *)
Module Flag.
Record t := mk {
  name : string;
  short_name : option string;
  boolean : bool;
  allow_override : bool;
  value : PyVal;
  default : PyVal;
  using_default_value : bool;
  present : nat;
  validators : list Validator
}.

Definition set_value (v : PyVal) (f : t) : t :=
  mk (name f) (short_name f) (boolean f) (allow_override f) v (default f)
     (using_default_value f) (present f) (validators f).

Definition set_using_default_value (b : bool) (f : t) : t :=
  mk (name f) (short_name f) (boolean f) (allow_override f) (value f) (default f)
     b (present f) (validators f).

(** The object a dangling reference reads as; references held by a
    registry are never dangling. *)
Definition null : t :=
  mk EmptyString None false false PyNone PyNone true 0 [].
End Flag.

(** References to flag objects and the object store. *)
Abbreviation addr := nat.
Abbreviation Heap := (gmap addr Flag.t).

Definition deref (h : gmap addr Flag.t) (a : addr) : Flag.t :=
  match h !! a with Some f => f | None => Flag.null end.

(** ** The registry *)

(** The fields [FlagValues.__init__] stores in [self.__dict__].  The three
    per-module dictionaries are kept as association lists in insertion
    order, which fixes the order [iteritems()] visits them in. *)
Record FlagValues := mkFlagValues {
  __flags : gmap string addr;
  __hiddenflags : gset string;
  __flags_by_module : list (string * list addr);
  __flags_by_module_id : list (Z * list addr);
  __key_flags_by_module : list (string * list addr);
  __flags_parsed : bool;
  __use_gnu_getopt : bool
}.

Definition __init__ : FlagValues :=
  mkFlagValues ∅ ∅ [] [] [] false false.

Definition set_flags (fl : gmap string addr) (self : FlagValues) : FlagValues :=
  mkFlagValues fl (__hiddenflags self) (__flags_by_module self)
    (__flags_by_module_id self) (__key_flags_by_module self)
    (__flags_parsed self) (__use_gnu_getopt self).

Definition set_module_indices
    (bm : list (string * list addr)) (bmi : list (Z * list addr))
    (kbm : list (string * list addr)) (self : FlagValues) : FlagValues :=
  mkFlagValues (__flags self) (__hiddenflags self) bm bmi kbm
    (__flags_parsed self) (__use_gnu_getopt self).

Definition UseGnuGetOpt (use_gnu_getopt : bool) (self : FlagValues) : FlagValues :=
  mkFlagValues (__flags self) (__hiddenflags self) (__flags_by_module self)
    (__flags_by_module_id self) (__key_flags_by_module self)
    (__flags_parsed self) use_gnu_getopt.

Definition IsGnuGetOpt (self : FlagValues) : bool := __use_gnu_getopt self.
Definition FlagDict (self : FlagValues) : gmap string addr := __flags self.
Definition FlagsByModuleDict (self : FlagValues) := __flags_by_module self.
Definition FlagsByModuleIdDict (self : FlagValues) := __flags_by_module_id self.
Definition KeyFlagsByModuleDict (self : FlagValues) := __key_flags_by_module self.
Definition IsParsed (self : FlagValues) : bool := __flags_parsed self.

Definition MarkAsParsed (self : FlagValues) : FlagValues :=
  mkFlagValues (__flags self) (__hiddenflags self) (__flags_by_module self)
    (__flags_by_module_id self) (__key_flags_by_module self)
    true (__use_gnu_getopt self).

Definition HideFlag (name : string) (self : FlagValues) : FlagValues :=
  mkFlagValues (__flags self) ({[name]} ∪ __hiddenflags self) (__flags_by_module self)
    (__flags_by_module_id self) (__key_flags_by_module self)
    (__flags_parsed self) (__use_gnu_getopt self).

(** [d.setdefault(key, []).append(flag)] on an association list. *)
Fixpoint setdefault_append {K} `{EqDecision K}
    (key : K) (flag : addr) (d : list (K * list addr)) : list (K * list addr) :=
  match d with
  | [] => [(key, [flag])]
  | (k, l) :: d' =>
      if decide (k = key) then (k, l ++ [flag]) :: d'
      else (k, l) :: setdefault_append key flag d'
  end.

Definition _RegisterFlagByModule (module_name : string) (flag : addr)
    (self : FlagValues) : FlagValues :=
  set_module_indices (setdefault_append module_name flag (__flags_by_module self))
    (__flags_by_module_id self) (__key_flags_by_module self) self.

Definition _RegisterFlagByModuleId (module_id : Z) (flag : addr)
    (self : FlagValues) : FlagValues :=
  set_module_indices (__flags_by_module self)
    (setdefault_append module_id flag (__flags_by_module_id self))
    (__key_flags_by_module self) self.

(** The first module, in iteration order, one of whose flags answers to
    [flagname] by its long or its short name. *)
Definition defining_entry {K} (h : gmap addr Flag.t) (flagname : string)
    (d : list (K * list addr)) : option K :=
  fst <$> List.find
    (λ '(_, flags),
       existsb (λ a, bool_decide (Flag.name (deref h a) = flagname) ||
                     bool_decide (Flag.short_name (deref h a) = Some flagname)) flags)
    d.

Definition FindModuleDefiningFlag (h : gmap addr Flag.t) (self : FlagValues)
    (flagname : string) : option string :=
  defining_entry h flagname (FlagsByModuleDict self).

Definition FindModuleIdDefiningFlag (h : gmap addr Flag.t) (self : FlagValues)
    (flagname : string) : option Z :=
  defining_entry h flagname (FlagsByModuleIdDict self).

(** The guard of both collision checks of [__setitem__]:
    [key in fl and not flag.allow_override and not fl[key].allow_override]. *)
Definition collides (h : gmap addr Flag.t) (fl : gmap string addr)
    (key : string) (flag : addr) : bool :=
  match fl !! key with
  | Some old =>
      negb (Flag.allow_override (deref h flag)) &&
      negb (Flag.allow_override (deref h old))
  | None => false
  end.

(** The guard of the final assignment of [__setitem__]:
    [name not in fl or fl[name].using_default_value
     or not flag.using_default_value]. *)
Definition takes_name (h : gmap addr Flag.t) (fl : gmap string addr)
    (name : string) (flag : addr) : bool :=
  match fl !! name with
  | None => true
  | Some old =>
      Flag.using_default_value (deref h old) ||
      negb (Flag.using_default_value (deref h flag))
  end.

(** [FlagValues.__setitem__(name, flag)], called from the module
    [(module, module_name)] (what [_helpers.GetCallingModuleObjectAndName]
    returns, [module] standing for [id(module)]).  The two [isinstance]
    tests hold by typing. *)
Definition __setitem__ (h : gmap addr Flag.t) (self : FlagValues)
    (name : string) (flag : addr) (caller : Z * string)
    : FlagValues * (Exc + unit) :=
  let fl := FlagDict self in
  if decide (name = EmptyString) then
    (self, inl (FlagsError "Flag name cannot be empty"))
  else if collides h fl name flag then
    let '(module, module_name) := caller in
    if bool_decide (FindModuleDefiningFlag h self name = Some module_name) &&
       negb (bool_decide (FindModuleIdDefiningFlag h self name = Some module))
    then (self, inr tt)
    else (self, inl (DuplicateFlagError name))
  else
    let assign_name (fl : gmap string addr) :=
      if takes_name h fl name flag
      then (set_flags (<[name := flag]> fl) self, inr tt)
      else (set_flags fl self, inr tt) in
    match Flag.short_name (deref h flag) with
    | Some short_name =>
        if collides h fl short_name flag
        then (self, inl (DuplicateFlagError short_name))
        else assign_name (<[short_name := flag]> fl)
    | None => assign_name fl
    end.

(** [FlagValues.__getitem__(name)] *)
Definition __getitem__ (self : FlagValues) (name : string) : Exc + addr :=
  match FlagDict self !! name with
  | Some a => inr a
  | None => inl (KeyError name)
  end.

(** [FlagValues._FlagIsRegistered(flag_obj)] *)
Definition _FlagIsRegistered (h : gmap addr Flag.t) (self : FlagValues)
    (flag_obj : addr) : bool :=
  let flag_dict := FlagDict self in
  let name := Flag.name (deref h flag_obj) in
  if bool_decide (flag_dict !! name = Some flag_obj) then true
  else
    match Flag.short_name (deref h flag_obj) with
    | Some short_name =>
        if bool_decide (flag_dict !! short_name = Some flag_obj) then true else false
    | None => false
    end.

(** [l.remove(x)]: drops the first occurrence. *)
Fixpoint list_remove (x : addr) (l : list addr) : list addr :=
  match l with
  | [] => []
  | y :: l' => if decide (y = x) then l' else y :: list_remove x l'
  end.

(** [while x in l: l.remove(x)]; every round shortens [l], so [length l]
    rounds are enough. *)
Fixpoint remove_while (rounds : nat) (x : addr) (l : list addr) : list addr :=
  match rounds with
  | 0 => l
  | S n => if bool_decide (x ∈ l) then remove_while n x (list_remove x l) else l
  end.

(** [FlagValues.__RemoveFlagFromDictByModule(flags_by_module_dict, flag_obj)] *)
Definition __RemoveFlagFromDictByModule {K}
    (flags_by_module_dict : list (K * list addr)) (flag_obj : addr)
    : list (K * list addr) :=
  (λ '(module, flags_in_module),
     (module, remove_while (length flags_in_module) flag_obj flags_in_module))
  <$> flags_by_module_dict.

(** [FlagValues.__delattr__(flag_name)] *)
Definition __delattr__ (h : gmap addr Flag.t) (self : FlagValues)
    (flag_name : string) : FlagValues * (Exc + unit) :=
  let fl := FlagDict self in
  match fl !! flag_name with
  | None => (self, inl (AttributeError flag_name))
  | Some flag_obj =>
      let self1 := set_flags (delete flag_name fl) self in
      if negb (_FlagIsRegistered h self1 flag_obj) then
        (set_module_indices
           (__RemoveFlagFromDictByModule (FlagsByModuleDict self1) flag_obj)
           (__RemoveFlagFromDictByModule (FlagsByModuleIdDict self1) flag_obj)
           (__RemoveFlagFromDictByModule (KeyFlagsByModuleDict self1) flag_obj)
           self1, inr tt)
      else (self1, inr tt)
  end.

(** ** What the registry needs from its collaborators

    The registry calls into code that lives outside [flagvalues.py]: the
    flag's own [Parse] method, the validators' [Verify], the suggestion
    helper and [os.path.expanduser].  They are kept abstract.
    - [Parse f v] is [f.Parse(v)]: the flag object afterwards, or the message
      of the [IllegalFlagValue] it raises (leaving the object as it was).
    - [Verify v h self] is [v.Verify(self)]: [None] when satisfied, otherwise
      the text [_AssertValidators] puts into its [IllegalFlagValue]. *)
Class Collaborators := {
  Parse : Flag.t → PyVal → string + Flag.t;
  Verify : Validator → gmap addr Flag.t → FlagValues → option string;
  GetFlagSuggestions : string → list string → list string;
  expanduser : string → string
}.

(** The key [sorted(validators, key=...)] orders the validators by. *)
Definition created_before (v1 v2 : Validator) : Prop :=
  insertion_index v1 ≤ insertion_index v2.

Global Instance created_before_dec : RelDecision created_before.
Proof. intros v1 v2. unfold created_before. apply _. Defined.

Section registry.
Context `{Collaborators}.

(** [FlagValues._AssertValidators(validators)]: in the order the
    validators were created, stopping at the first failure. *)
Fixpoint verify_each (validators : list Validator) (h : gmap addr Flag.t)
    (self : FlagValues) : option Exc :=
  match validators with
  | [] => None
  | validator :: validators' =>
      match Verify validator h self with
      | Some message => Some (IllegalFlagValue message)
      | None => verify_each validators' h self
      end
  end.

Definition _AssertValidators (validators : list Validator)
    (h : gmap addr Flag.t) (self : FlagValues) : option Exc :=
  verify_each
    (merge_sort created_before validators)
    h self.

(** [FlagValues._AssertAllValidators()] *)
Definition _AssertAllValidators (h : gmap addr Flag.t) (self : FlagValues)
    : option Exc :=
  let all_validators :=
    remove_dups
      (flat_map (λ '(_, flag), Flag.validators (deref h flag))
                (map_to_list (FlagDict self))) in
  _AssertValidators all_validators h self.

(** [os.getenv(key, default)] on the process environment [environ]. *)
Definition getenv (environ : gmap string string) (key default : string) : string :=
  match environ !! key with Some v => v | None => default end.

(** [FlagValues.__getattr__(name)].  The warning and the stack trace it
    prints on the access-before-parse path are not modelled. *)
Definition __getattr__ (environ : gmap string string) (h : gmap addr Flag.t)
    (self : FlagValues) (name : string) : Exc + PyVal :=
  let fl := FlagDict self in
  match fl !! name with
  | None => inl (AttributeError name)
  | Some flag =>
      if bool_decide (name ∈ __hiddenflags self) then inl (AttributeError name)
      else if __flags_parsed self || negb (Flag.present (deref h flag) =? 0)
      then inr (Flag.value (deref h flag))
      else
        let error_message :=
          "Trying to access flag " +:+ name +:+ " before flags were parsed." in
        if bool_decide (getenv environ "GFLAGS_ALLOW_UNPARSED_FLAG_ACCESS" "1" = "1")
        then inr (Flag.value (deref h flag))
        else inl (UnparsedFlagAccessError error_message)
  end.

(** [FlagValues.__setattr__(name, value)] *)
Definition __setattr__ (h : gmap addr Flag.t) (self : FlagValues)
    (name : string) (value : PyVal) : gmap addr Flag.t * (Exc + PyVal) :=
  let fl := FlagDict self in
  if bool_decide (name ∈ __hiddenflags self) then (h, inl (AttributeError name))
  else
    match fl !! name with
    | None => (h, inl (KeyError name))
    | Some flag =>
        let h1 := <[flag := Flag.set_value value (deref h flag)]> h in
        let h2 := <[flag := Flag.set_using_default_value false (deref h1 flag)]> h1 in
        match _AssertValidators (Flag.validators (deref h2 flag)) h2 self with
        | Some e => (h2, inl e)
        | None => (h2, inr value)
        end
    end.

(** *** The argument scanner *)

(** The local variables of [_ParseArgs] and the object store it mutates
    through [flag.Parse]. *)
Record ParseState := mkParseState {
  ps_heap : gmap addr Flag.t;
  unknown_flags : list (string * string);
  unparsed_args : list string;
  undefok : gset string
}.

Definition with_heap (h : gmap addr Flag.t) (st : ParseState) : ParseState :=
  mkParseState h (unknown_flags st) (unparsed_args st) (undefok st).

(** How one round of the [while] loop ends.  [Continue st next_taken]
    goes on with the following token, after the lookahead token
    [args[i]] as well when [next_taken]. *)
Inductive LoopStep :=
| Continue (st : ParseState) (next_taken : bool)
| Break (st : ParseState)
| Raise (e : Exc) (st : ParseState).

(** [undefok.update(v.strip() for v in value.split(','))] followed by
    [undefok.update('no' + v.strip() for v in value.split(','))]. *)
Definition undefok_update (value : string) (undefok : gset string) : gset string :=
  undefok
    ∪ list_to_set (PyStr.strip <$> PyStr.split "," value)
    ∪ list_to_set ((λ v, "no" +:+ PyStr.strip v) <$> PyStr.split "," value).

(** [name, value = ...]: the token without its dashes, split at the first
    [=] when there is one. *)
Definition split_arg (arg : string) : string * option string :=
  if PyStr.contains "=" arg then
    let '(name, value) := PyStr.split1 "=" (PyStr.lstrip_chr "-" arg) in
    (name, Some value)
  else (PyStr.lstrip_chr "-" arg, None).

(** The last two statements of the loop body:
    [flag.Parse(value); flag.using_default_value = False]. *)
Definition parse_flag (flag : addr) (value : PyVal) (next_taken : bool)
    (st : ParseState) : LoopStep :=
  match Parse (deref (ps_heap st) flag) value with
  | inl message => Raise (IllegalFlagValue message) st
  | inr parsed =>
      Continue
        (with_heap (<[flag := Flag.set_using_default_value false parsed]> (ps_heap st)) st)
        next_taken
  end.

(** A non-argument, or a token that is all dashes:
    [unparsed_args.append(arg)], then [continue] or [break]. *)
Definition positional (self : FlagValues) (arg : string) (st : ParseState) : LoopStep :=
  let st' := mkParseState (ps_heap st) (unknown_flags st)
               (unparsed_args st ++ [arg]) (undefok st) in
  if IsGnuGetOpt self then Continue st' false else Break st'.

(** Where the loop body takes the token [arg]: everything it decides
    before it touches the state.  [ToFlag flag value next_taken] is the
    path that reaches [flag.Parse(value)]. *)
Inductive Route :=
| ToPositional
| ToEnd
| ToUndefok (value : string) (next_taken : bool)
| ToFlag (flag : addr) (value : PyVal) (next_taken : bool)
| ToUnknown (name : string)
| MissingValue.

(** [arg] is [args[i]] read before [i += 1], and [rest] is [args[i:]]
    after it, whose head is the lookahead token. *)
Definition route (self : FlagValues) (h : gmap addr Flag.t) (arg : string)
    (rest : list string) : Route :=
  let flag_dict := FlagDict self in
  if negb (PyStr.startswith arg "-") then ToPositional
  else if decide (arg = "--") then ToEnd
  else
    let '(name, value) := split_arg arg in
    if decide (name = EmptyString) then ToPositional
    else if decide (name = "undefok") then
      match value, rest with
      | Some value, _ => ToUndefok value false
      | None, value :: _ => ToUndefok value true
      | None, [] => MissingValue
      end
    else
      match flag_dict !! name with
      | Some flag =>
          if Flag.boolean (deref h flag) && bool_decide (value = None)
          then ToFlag flag (PyBool true) false
          else
            match value, rest with
            | Some value, _ => ToFlag flag (PyStr value) false
            | None, value :: _ => ToFlag flag (PyStr value) true
            | None, [] => MissingValue
            end
      | None =>
          let noflag :=
            if PyStr.startswith name "no"
            then flag_dict !! PyStr.slice_from 2 name
            else None in
          (* [if noflag and noflag.boolean]: a flag object is always true *)
          match noflag with
          | Some flag =>
              if Flag.boolean (deref h flag)
              then ToFlag flag (PyBool false) false
              else ToUnknown name
          | None => ToUnknown name
          end
      end.

(** One round of the [while] loop of [_ParseArgs]. *)
Definition _ParseArgs_step (self : FlagValues) (arg : string)
    (rest : list string) (st : ParseState) : LoopStep :=
  match route self (ps_heap st) arg rest with
  | ToPositional => positional self arg st
  | ToEnd => Break st
  | ToUndefok value next_taken =>
      Continue (mkParseState (ps_heap st) (unknown_flags st) (unparsed_args st)
                  (undefok_update value (undefok st))) next_taken
  | ToFlag flag value next_taken => parse_flag flag value next_taken st
  | ToUnknown name =>
      Continue (mkParseState (ps_heap st) (unknown_flags st ++ [(name, arg)])
                  (unparsed_args st) (undefok st)) false
  | MissingValue => Raise (FlagsError ("Missing value for flag " +:+ arg)) st
  end.

(** The [while i < len(args)] loop, on the tokens [args[i:]] still to be
    read.  It ends with the state reached and, unless an exception left
    it, the tokens it did not consume. *)
Fixpoint _ParseArgs_loop (self : FlagValues) (args : list string)
    (st : ParseState) {struct args} : ParseState * (Exc + list string) :=
  match args with
  | [] => (st, inr [])
  | arg :: rest =>
      match _ParseArgs_step self arg rest st with
      | Continue st' false => _ParseArgs_loop self rest st'
      | Continue st' true =>
          match rest with
          | _ :: rest' => _ParseArgs_loop self rest' st'
          | [] => (st', inr [])
          end
      | Break st' => (st', inr rest)
      | Raise e st' => (st', inl e)
      end
  end.

(** [FlagValues._ParseArgs(args)]: the object store afterwards and
    [(unknown_flags, unparsed_args, undefok)]. *)
Definition _ParseArgs (h : gmap addr Flag.t) (self : FlagValues)
    (args : list string)
    : gmap addr Flag.t *
      (Exc + (list (string * string) * list string * gset string)) :=
  match _ParseArgs_loop self args (mkParseState h [] [] ∅) with
  | (st, inr rest) =>
      (ps_heap st, inr (unknown_flags st, unparsed_args st ++ rest, undefok st))
  | (st, inl e) => (ps_heap st, inl e)
  end.

(** [FlagValues.RegisteredFlags()] *)
Definition RegisteredFlags (self : FlagValues) : list string :=
  fst <$> map_to_list (FlagDict self).

End registry.

(** ** Flagfile expansion *)

(** What a recursion that does not bottom out ends in.
    [__GetFlagFileLines_enough_fuel] shows the expansion never gets there. *)
Definition recursion_depth_exceeded : Exc :=
  RuntimeError "maximum recursion depth exceeded".

(** What the expansion mutates: the list [parsed_file_stack] handed down the
    recursion, and the text written to [sys.stderr].  [pushed] is a history
    variable: the value of the stack after each [append]. *)
Record ExpandState := mkExpandState {
  parsed_file_stack : list string;
  stderr : list string;
  pushed : list (list string)
}.

Section flagfiles.
Context `{Collaborators}.

(** The files that can be opened for reading, with their text. *)
Variable fs : gmap string string.

(** [FlagValues.__IsFlagFileDirective(flag_string)] *)
Definition __IsFlagFileDirective (flag_string : string) : bool :=
  if PyStr.startswith flag_string "--flagfile=" then true
  else if decide (flag_string = "--flagfile") then true
  else if PyStr.startswith flag_string "-flagfile=" then true
  else if decide (flag_string = "-flagfile") then true
  else false.

(** [FlagValues.ExtractFilename(flagfile_str)] *)
Definition ExtractFilename (flagfile_str : string) : Exc + string :=
  if PyStr.startswith flagfile_str "--flagfile=" then
    inr (expanduser (PyStr.strip (PyStr.slice_from (PyStr.len "--flagfile=") flagfile_str)))
  else if PyStr.startswith flagfile_str "-flagfile=" then
    inr (expanduser (PyStr.strip (PyStr.slice_from (PyStr.len "-flagfile=") flagfile_str)))
  else inl (FlagsError ("Hit illegal --flagfile type: " +:+ flagfile_str)).

(** The [for line in line_list] loop of [__GetFlagFileLines] followed by
    [parsed_file_stack.pop(); return flag_line_list]; [recurse] is the
    recursive call of the method. *)
Fixpoint each_line
    (recurse : string → ExpandState → option (ExpandState * (Exc + list string)))
    (line_list : list string) (flag_line_list : list string) (st : ExpandState)
    {struct line_list} : option (ExpandState * (Exc + list string)) :=
  match line_list with
  | [] =>
      Some (mkExpandState (removelast (parsed_file_stack st)) (stderr st) (pushed st),
            inr flag_line_list)
  | line :: line_list' =>
      if PyStr.isspace line then each_line recurse line_list' flag_line_list st
      else if PyStr.startswith line "#" || PyStr.startswith line "//"
      then each_line recurse line_list' flag_line_list st
      else if __IsFlagFileDirective line then
        match ExtractFilename line with
        | inl e => Some (st, inl e)
        | inr sub_filename =>
            match recurse sub_filename st with
            | None => None
            | Some (st', inl e) => Some (st', inl e)
            | Some (st', inr included_flags) =>
                each_line recurse line_list' (flag_line_list ++ included_flags) st'
            end
        end
      else each_line recurse line_list' (flag_line_list ++ [PyStr.strip line]) st
  end.

(** [FlagValues.__GetFlagFileLines(filename, parsed_file_stack)], with a
    bound [fuel] on the depth of the recursion: [None] when the bound is
    hit. *)
Fixpoint __GetFlagFileLines_fuel (fuel : nat) (filename : string)
    (st : ExpandState) {struct fuel} : option (ExpandState * (Exc + list string)) :=
  match fuel with
  | 0 => None
  | S fuel' =>
      if bool_decide (filename ∈ parsed_file_stack st) then
        Some (mkExpandState (parsed_file_stack st)
                (stderr st ++
                   ["Warning: Hit circular flagfile dependency. Ignoring flagfile: "
                      +:+ filename +:+ PyStr.NL])
                (pushed st),
              inr [])
      else
        let st1 := mkExpandState (parsed_file_stack st ++ [filename]) (stderr st)
                     (pushed st ++ [parsed_file_stack st ++ [filename]]) in
        match fs !! filename with
        | None => Some (st1, inl (CantOpenFlagFileError filename))
        | Some content =>
            each_line (__GetFlagFileLines_fuel fuel') (PyStr.readlines content) [] st1
        end
  end.

(** The method itself: one more level than there are files is always
    enough ([__GetFlagFileLines_enough_fuel]). *)
Definition __GetFlagFileLines (filename : string) (st : ExpandState)
    : ExpandState * (Exc + list string) :=
  match __GetFlagFileLines_fuel (S (size fs)) filename st with
  | Some r => r
  | None => (st, inl recursion_depth_exceeded)
  end.

(** [FlagValues.ReadFlagsFromFiles(argv, force_gnu)]: the [while
    rest_of_args] loop together with the final
    [new_argv.extend(rest_of_args)].  Each flagfile is expanded with a
    fresh [parsed_file_stack]. *)
Fixpoint ReadFlagsFromFiles_loop (h : gmap addr Flag.t) (self : FlagValues)
    (force_gnu : bool) (rest_of_args : list string) (new_argv : list string)
    (err : list string) {struct rest_of_args} : list string * (Exc + list string) :=
  match rest_of_args with
  | [] => (err, inr new_argv)
  | current_arg :: rest_of_args =>
      if __IsFlagFileDirective current_arg then
        if bool_decide (current_arg = "--flagfile") || bool_decide (current_arg = "-flagfile")
        then
          match rest_of_args with
          | [] => (err, inl (IllegalFlagValue "--flagfile with no argument"))
          | next_arg :: rest_of_args' =>
              let flag_filename := expanduser next_arg in
              match __GetFlagFileLines flag_filename (mkExpandState [] err []) with
              | (st, inl e) => (stderr st, inl e)
              | (st, inr lines) =>
                  ReadFlagsFromFiles_loop h self force_gnu rest_of_args'
                    (new_argv ++ lines) (stderr st)
              end
          end
        else
          match ExtractFilename current_arg with
          | inl e => (err, inl e)
          | inr flag_filename =>
              match __GetFlagFileLines flag_filename (mkExpandState [] err []) with
              | (st, inl e) => (stderr st, inl e)
              | (st, inr lines) =>
                  ReadFlagsFromFiles_loop h self force_gnu rest_of_args
                    (new_argv ++ lines) (stderr st)
              end
          end
      else
        let new_argv := new_argv ++ [current_arg] in
        if decide (current_arg = "--") then (err, inr (new_argv ++ rest_of_args))
        else if negb (PyStr.startswith current_arg "-") then
          if negb force_gnu && negb (__use_gnu_getopt self)
          then (err, inr (new_argv ++ rest_of_args))
          else ReadFlagsFromFiles_loop h self force_gnu rest_of_args new_argv err
        else
          match rest_of_args with
          | next_arg :: rest_of_args' =>
              if negb (PyStr.contains "=" current_arg) &&
                 negb (PyStr.startswith next_arg "-") &&
                 match FlagDict self !! PyStr.lstrip_chr "-" current_arg with
                 | Some flag => negb (Flag.boolean (deref h flag))
                 | None => false
                 end
              then ReadFlagsFromFiles_loop h self force_gnu rest_of_args'
                     (new_argv ++ [next_arg]) err
              else ReadFlagsFromFiles_loop h self force_gnu rest_of_args new_argv err
          | [] => ReadFlagsFromFiles_loop h self force_gnu rest_of_args new_argv err
          end
  end.

Definition ReadFlagsFromFiles (h : gmap addr Flag.t) (self : FlagValues)
    (argv : list string) (force_gnu : bool) (err : list string)
    : list string * (Exc + list string) :=
  ReadFlagsFromFiles_loop h self force_gnu argv [] err.

(** The [for name, value in unknown_flags] loop of [__call__]: the
    exception it raises, if any. *)
Fixpoint first_unrecognized (self : FlagValues)
    (unknown_flags : list (string * string)) (undefok : gset string) : option Exc :=
  match unknown_flags with
  | [] => None
  | (name, value) :: unknown_flags' =>
      if bool_decide (name ∈ undefok)
      then first_unrecognized self unknown_flags' undefok
      else
        let suggestions := GetFlagSuggestions name (RegisteredFlags self) in
        Some (UnrecognizedFlagError name value suggestions)
  end.

(** [FlagValues.__call__(argv)]: the object store, the registry and the
    error stream it leaves behind, and its outcome. *)
Definition __call__ (h : gmap addr Flag.t) (self : FlagValues)
    (argv : list string) (err : list string)
    : (gmap addr Flag.t * FlagValues * list string) * (Exc + list string) :=
  match argv with
  | [] =>
      let self' := MarkAsParsed self in
      match _AssertAllValidators h self' with
      | Some e => ((h, self', err), inl e)
      | None => ((h, self', err), inr [])
      end
  | program_name :: argv' =>
      match ReadFlagsFromFiles h self argv' false err with
      | (err', inl e) => ((h, self, err'), inl e)
      | (err', inr args) =>
          match _ParseArgs h self args with
          | (h', inl e) => ((h', self, err'), inl e)
          | (h', inr (unknown_flags, unparsed_args, undefok)) =>
              match first_unrecognized self unknown_flags undefok with
              | Some e => ((h', self, err'), inl e)
              | None =>
                  let self' := MarkAsParsed self in
                  match _AssertAllValidators h' self' with
                  | Some e => ((h', self', err'), inl e)
                  | None => ((h', self', err'), inr (program_name :: unparsed_args))
                  end
              end
          end
      end
  end.

End flagfiles.

(** ** Shortest unique prefixes *)

Module Prefixes.

(** The names the prefixes are computed for, sorted: every key of [fl],
    and [no<key>] as well for a boolean flag. *)
Definition sorted_flags (h : gmap addr Flag.t) (fl : gmap string addr) : list string :=
  merge_sort String.le
    (flat_map (λ '(name, flag),
                 if Flag.boolean (deref h flag) then [name; "no" +:+ name] else [name])
              (map_to_list fl)).

(** The guard of the [if] inside the inner loop. *)
Definition differs_at (curr : string) (next_flag : option string) (curr_idx : nat) : bool :=
  match next_flag with
  | None => true
  | Some next_flag =>
      (PyStr.len next_flag <=? curr_idx) ||
      negb (bool_decide (PyStr.get curr_idx curr = PyStr.get curr_idx next_flag))
  end.

(** The [for curr_idx in xrange(len(curr))] loop over the indices [idxs]
    still to visit: [Some curr_idx] when it leaves through [break],
    [None] when it runs to its end (the [else] clause). *)
Fixpoint first_difference (curr : string) (next_flag : option string)
    (idxs : list nat) : option nat :=
  match idxs with
  | [] => None
  | curr_idx :: idxs' =>
      if differs_at curr next_flag curr_idx then Some curr_idx
      else first_difference curr next_flag idxs'
  end.

(** The outer loop, on the names [sorted_flags[flag_idx:]] still to visit.
    [curr_idx] is the loop variable of the inner loop, which keeps its last
    value between rounds and has none before its first assignment. *)
Fixpoint ShortestUniquePrefixes_loop (sorted_flags : list string)
    (shortest_matches : gmap string string) (prev_idx : nat)
    (curr_idx : option nat) : Exc + gmap string string :=
  match sorted_flags with
  | [] => inr shortest_matches
  | curr :: rest =>
      let next_flag := head rest in
      match first_difference curr next_flag (seq 0 (PyStr.len curr)) with
      | Some curr_idx =>
          ShortestUniquePrefixes_loop rest
            (<[curr := PyStr.slice_to (max prev_idx curr_idx + 1) curr]> shortest_matches)
            curr_idx (Some curr_idx)
      | None =>
          let curr_idx :=
            match PyStr.len curr with
            | 0 => curr_idx
            | S last => Some last
            end in
          match curr_idx with
          | None => inl (UnboundLocalError "curr_idx")
          | Some curr_idx =>
              ShortestUniquePrefixes_loop rest (<[curr := curr]> shortest_matches)
                (curr_idx + 1) (Some curr_idx)
          end
      end
  end.

(** [FlagValues.ShortestUniquePrefixes(fl)] *)
Definition ShortestUniquePrefixes (h : gmap addr Flag.t) (fl : gmap string addr)
    : Exc + gmap string string :=
  ShortestUniquePrefixes_loop (sorted_flags h fl) ∅ 0 None.

(** The length of the longest common prefix of two strings. *)
Fixpoint lcp (s t : string) : nat :=
  match s, t with
  | String a s', String b t' => if decide (a = b) then S (lcp s' t') else 0
  | _, _ => 0
  end.

(** [p] is a left-substring of [s]. *)
Definition is_prefix (p s : string) : Prop := String.prefix p s = true.

(** [p], a left-substring of [curr], tells [curr] from the neighbour
    [other]: it is not a left-substring of [other] as well, or it is the
    whole of [curr]. *)
Definition distinguishes (p curr : string) (other : option string) : Prop :=
  match other with
  | None => True
  | Some n => p = curr ∨ ¬ is_prefix p n
  end.

(** [p] is the shortest non-empty left-substring of [curr] that tells it
    from both neighbours. *)
Definition shortest_distinguishing (p curr : string) (prev next : option string) : Prop :=
  p ≠ EmptyString ∧ is_prefix p curr ∧
  distinguishes p curr prev ∧ distinguishes p curr next ∧
  ∀ q, q ≠ EmptyString → is_prefix q curr →
       distinguishes q curr prev → distinguishes q curr next →
       PyStr.len p ≤ PyStr.len q.

(** How long a left-substring of [curr] must be to leave the neighbour
    [other] behind: more than what the two have in common. *)
Definition common (curr : string) (other : option string) : nat :=
  match other with
  | None => 0
  | Some n => lcp curr n
  end.

(** The neighbour before the name that follows [l1] in the list, [prev]
    standing before the list. *)
Definition neighbour_before (prev : option string) (l1 : list string) : option string :=
  match last l1 with
  | Some x => Some x
  | None => prev
  end.

(** Equal names stand next to each other. *)
Definition repeats_adjacent (L : list string) : Prop :=
  ∀ l1 curr l2, L = l1 ++ curr :: l2 → curr ∈ l2 → head l2 = Some curr.

End Prefixes.

(** ** Vocabulary of the statements *)

(** The replacement policy of [__setitem__] at the key [name]: the call
    returns, [name] is bound to [flag] afterwards exactly when it was free,
    or the flag it held was at its default, or [flag] is not at its
    default; and a holder with a non-default value keeps the key against a
    [flag] at its default. *)
Definition replacement_policy (h : gmap addr Flag.t) (self : FlagValues)
    (name : string) (flag : addr) (caller : Z * string) : Prop :=
  ∃ self',
    __setitem__ h self name flag caller = (self', inr tt) ∧
    (FlagDict self' !! name = Some flag ↔
       FlagDict self !! name = None ∨
       (∃ old, FlagDict self !! name = Some old ∧
               Flag.using_default_value (deref h old) = true) ∨
       Flag.using_default_value (deref h flag) = false) ∧
    (∀ old, FlagDict self !! name = Some old →
            Flag.using_default_value (deref h old) = false →
            Flag.using_default_value (deref h flag) = true →
            FlagDict self' !! name = Some old).

(** Both collision checks of [__setitem__] let the registration through. *)
Definition passes_collision_checks (h : gmap addr Flag.t) (self : FlagValues)
    (name : string) (flag : addr) : Prop :=
  collides h (FlagDict self) name flag = false ∧
  ∀ s, Flag.short_name (deref h flag) = Some s →
       collides h (FlagDict self) s flag = false.

(** A module index with every occurrence of [flag_obj] taken out. *)
Definition without {K} (flag_obj : addr) (d : list (K * list addr))
    : list (K * list addr) :=
  (λ '(module, flags), (module, filter (λ a, a ≠ flag_obj) flags)) <$> d.

(** [flag_obj] is still the value of its long or of its short name. *)
Definition reachable (h : gmap addr Flag.t) (self : FlagValues) (flag_obj : addr) : Prop :=
  FlagDict self !! Flag.name (deref h flag_obj) = Some flag_obj ∨
  ∃ s, Flag.short_name (deref h flag_obj) = Some s ∧
       FlagDict self !! s = Some flag_obj.

(** The state a round of the loop ends in. *)
Definition step_state (s : LoopStep) : ParseState :=
  match s with
  | Continue st _ | Break st | Raise _ st => st
  end.

(** The scan only ever adds to [undefok] and to the end of
    [unknown_flags]. *)
Definition grows (st st' : ParseState) : Prop :=
  undefok st ⊆ undefok st' ∧ unknown_flags st `prefix_of` unknown_flags st'.

(** Every exception but [UnrecognizedFlagError]. *)
Definition not_unrecognized (e : Exc) : Prop :=
  match e with
  | UnrecognizedFlagError _ _ _ => False
  | _ => True
  end.

(** A line of a flagfile that is neither blank nor a comment. *)
Definition is_flag_line (line : string) : bool :=
  negb (PyStr.isspace line) &&
  negb (PyStr.startswith line "#" || PyStr.startswith line "//").

(** The invariant of the in-flight stack: no file twice, now or at any
    earlier [append]. *)
Definition stack_ok (st : ExpandState) : Prop :=
  NoDup (parsed_file_stack st) ∧ Forall NoDup (pushed st).

(** The files not yet on the stack: what the recursion can still open. *)
Definition unopened (fs : gmap string string) (stack : list string) : nat :=
  size (dom fs ∖ list_to_set stack : gset string).

(** A name that survives the scanner's tokenisation as it is: not empty,
    not the reserved [undefok], without [=] and without a leading dash. *)
Definition plain_name (X : string) : Prop :=
  X ≠ EmptyString ∧ X ≠ "undefok" ∧
  PyStr.contains "=" X = false ∧ PyStr.startswith X "-" = false.

(** The permissive policy on reading a flag before the parse: the
    environment variable is unset or set to [1]. *)
Definition permissive (environ : gmap string string) : Prop :=
  getenv environ "GFLAGS_ALLOW_UNPARSED_FLAG_ACCESS" "1" = "1".

(** ** A small registry to run the definitions on *)

Module Demo.

(** Collaborators that accept everything: [Parse] stores its argument and
    counts the call in [present], validators are always satisfied, no
    suggestions are made and paths are left as they are. *)
Definition store (f : Flag.t) (v : PyVal) : string + Flag.t :=
  inr (Flag.mk (Flag.name f) (Flag.short_name f) (Flag.boolean f)
         (Flag.allow_override f) v (Flag.default f) (Flag.using_default_value f)
         (S (Flag.present f)) (Flag.validators f)).

Definition collaborators : Collaborators :=
  {| Parse := store;
     Verify := λ _ _ _, None;
     GetFlagSuggestions := λ _ _, [];
     expanduser := λ path, path |}.

(** A freshly defined flag, still at its default. *)
Definition fresh (name : string) (short_name : option string) (boolean : bool)
    (allow_override : bool) (default : PyVal) : Flag.t :=
  Flag.mk name short_name boolean allow_override default default true 0 [].

Definition caller : Z * string := (1%Z, "__main__").

(** Four flag objects: two called [verbosity], the second of which may
    override and carries the short name [v]; two called [v], the second
    of which may override and has its own name as short name. *)
Definition objects : gmap addr Flag.t :=
  <[1 := fresh "verbosity" None false false (PyInt 0)]>
  (<[2 := fresh "verbosity" (Some "v") false true (PyInt 0)]>
  (<[3 := fresh "v" None false false (PyInt 0)]>
  (<[4 := fresh "v" (Some "v") false true (PyInt 0)]> ∅))).

(** [FLAGS['verbosity'] = flag1; FLAGS.verbosity = 5] *)
Definition verbosity_registered : FlagValues :=
  (__setitem__ objects __init__ "verbosity" 1 caller).1.
Definition verbosity_assigned : gmap addr Flag.t :=
  (@__setattr__ collaborators objects verbosity_registered "verbosity" (PyInt 5)).1.

(** [FLAGS['v'] = flag3; FLAGS.v = 7] *)
Definition v_registered : FlagValues :=
  (__setitem__ objects __init__ "v" 3 caller).1.
Definition v_assigned : gmap addr Flag.t :=
  (@__setattr__ collaborators objects v_registered "v" (PyInt 7)).1.

(** [FLAGS['verbosity'] = flag2], declared by module [__main__]. *)
Definition short_registered : FlagValues :=
  _RegisterFlagByModuleId 1%Z 2
    (_RegisterFlagByModule "__main__" 2
       (__setitem__ objects __init__ "verbosity" 2 caller).1).

(** A registry with the boolean flag [bool_flag] and the flag [x]. *)
Definition switches : gmap addr Flag.t :=
  <[1 := fresh "bool_flag" None true false (PyBool false)]>
  (<[2 := fresh "x" None false false (PyInt 0)]> ∅).
Definition switches_registered : FlagValues :=
  (__setitem__ switches
     (__setitem__ switches __init__ "bool_flag" 1 caller).1 "x" 2 caller).1.

(** A flagfile with a comment and a blank line, and two flagfiles that
    include each other. *)
Definition flags_text : string :=
  "--a=1" +:+ PyStr.NL +:+ "# comment" +:+ PyStr.NL +:+ PyStr.NL +:+ "--b=2".
Definition files : gmap string string :=
  <["flags" := flags_text]>
  (<["ping" := "--flagfile=pong" +:+ PyStr.NL +:+ "--a=1" +:+ PyStr.NL]>
  (<["pong" := "--b=2" +:+ PyStr.NL +:+ "--flagfile=ping" +:+ PyStr.NL]> ∅)).

(** The flags [alpha], [alphabet] and [beta], none of them boolean. *)
Definition greek : gmap addr Flag.t :=
  <[1 := fresh "alpha" None false false PyNone]>
  (<[2 := fresh "alphabet" None false false PyNone]>
  (<[3 := fresh "beta" None false false PyNone]> ∅)).
Definition greek_names : gmap string addr :=
  <["alpha" := 1]> (<["alphabet" := 2]> (<["beta" := 3]> ∅)).

End Demo.

(** ** Further methods of the registry *)

(** [d.get(key, [])] on an association list. *)
Fixpoint get_list {K} `{EqDecision K} (key : K) (d : list (K * list addr)) : list addr :=
  match d with
  | [] => []
  | (k, l) :: d' => if decide (k = key) then l else get_list key d'
  end.

(** [key_flags = d.setdefault(key, [])] followed by
    [if flag not in key_flags: key_flags.append(flag)]. *)
Fixpoint setdefault_add {K} `{EqDecision K}
    (key : K) (flag : addr) (d : list (K * list addr)) : list (K * list addr) :=
  match d with
  | [] => [(key, [flag])]
  | (k, l) :: d' =>
      if decide (k = key)
      then (k, if bool_decide (flag ∈ l) then l else l ++ [flag]) :: d'
      else (k, l) :: setdefault_add key flag d'
  end.

(** [FlagValues._RegisterKeyFlagForModule(module_name, flag)] *)
Definition _RegisterKeyFlagForModule (module_name : string) (flag : addr)
    (self : FlagValues) : FlagValues :=
  set_module_indices (__flags_by_module self) (__flags_by_module_id self)
    (setdefault_add module_name flag (__key_flags_by_module self)) self.

(** [FlagValues._GetFlagsDefinedByModule(module)], for a module given by
    its name. *)
Definition _GetFlagsDefinedByModule (self : FlagValues) (module : string) : list addr :=
  get_list module (FlagsByModuleDict self).

(** The loop of [_GetKeyFlagsForModule]:
    [for flag in ...: if flag not in key_flags: key_flags.append(flag)]. *)
Fixpoint append_missing (flags : list addr) (key_flags : list addr) : list addr :=
  match flags with
  | [] => key_flags
  | flag :: flags' =>
      if bool_decide (flag ∈ key_flags)
      then append_missing flags' key_flags
      else append_missing flags' (key_flags ++ [flag])
  end.

(** [FlagValues._GetKeyFlagsForModule(module)] *)
Definition _GetKeyFlagsForModule (self : FlagValues) (module : string) : list addr :=
  let key_flags := _GetFlagsDefinedByModule self module in
  append_missing (get_list module (KeyFlagsByModuleDict self)) key_flags.

(** [FlagValues.__contains__(name)], also known as [has_key]. *)
Definition __contains__ (self : FlagValues) (name : string) : bool :=
  bool_decide (is_Some (FlagDict self !! name)).

(** [FlagValues.__dir__()] *)
Definition __dir__ (self : FlagValues) : list string :=
  merge_sort String.le (fst <$> map_to_list (__flags self)).

(** The registry handed to [AppendFlagValues] and [RemoveFlagValues]: this
    very registry, or another one.  Two registries never share a
    dictionary: [__init__] makes a new one for each. *)
Inductive Operand :=
| Itself
| Another (flag_values : FlagValues).

Definition operand (self : FlagValues) (flag_values : Operand) : FlagValues :=
  match flag_values with
  | Itself => self
  | Another other => other
  end.

(** What the iterator of a dictionary raises at its next step once the
    dictionary has another size than when the iteration began. *)
Definition changed_size : Exc :=
  RuntimeError "dictionary changed size during iteration".

(** The loop of [RemoveFlagValues] over the names still to come, [used]
    being the size the dictionary of [flag_values] had when the iteration
    began.  While that size stays the same, no key was added or removed
    (the body only deletes), so the names come as they stood at the
    beginning.  The loop stops at the first [__delattr__] that raises. *)
Fixpoint RemoveFlagValues_loop (h : gmap addr Flag.t) (self : FlagValues)
    (flag_values : Operand) (used : nat) (flag_names : list string)
    {struct flag_names} : FlagValues * (Exc + unit) :=
  if bool_decide (size (FlagDict (operand self flag_values)) = used) then
    match flag_names with
    | [] => (self, inr tt)
    | flag_name :: flag_names' =>
        match __delattr__ h self flag_name with
        | (self', inr _) => RemoveFlagValues_loop h self' flag_values used flag_names'
        | (self', inl e) => (self', inl e)
        end
    end
  else (self, inl changed_size).

(** [FlagValues.RemoveFlagValues(flag_values)] *)
Definition RemoveFlagValues (h : gmap addr Flag.t) (self : FlagValues)
    (flag_values : Operand) : FlagValues * (Exc + unit) :=
  let flags := FlagDict (operand self flag_values) in
  RemoveFlagValues_loop h self flag_values (size flags) (fst <$> map_to_list flags).

Section merging.

(** What [raise exceptions.DuplicateFlagError(flag_name, self,
    other_flag_values=flag_values)] leaves the method with: the exception
    built, or the one raised while building it.  The class is defined in
    [exceptions.py]. *)
Variable raised : string → FlagValues → FlagValues → Exc.

(** The loop of [AppendFlagValues] over the names still to come, [used]
    being the size the dictionary of [flag_values] had when the iteration
    began.  While that size stays the same, no key was added (the body
    never deletes), so the names come as they stood at the beginning, each
    with the flag it leads to by now.  A [DuplicateFlagError] of
    [__setitem__] is raised again for the name of the entry. *)
Fixpoint AppendFlagValues_loop (h : gmap addr Flag.t) (self : FlagValues)
    (flag_values : Operand) (used : nat) (flag_names : list string)
    (caller : Z * string) {struct flag_names} : FlagValues * (Exc + unit) :=
  if bool_decide (size (FlagDict (operand self flag_values)) = used) then
    match flag_names with
    | [] => (self, inr tt)
    | flag_name :: flag_names' =>
        match FlagDict (operand self flag_values) !! flag_name with
        | Some flag =>
            if bool_decide (flag_name = Flag.name (deref h flag)) then
              match __setitem__ h self flag_name flag caller with
              | (self', inr _) =>
                  AppendFlagValues_loop h self' flag_values used flag_names' caller
              | (self', inl (DuplicateFlagError _)) =>
                  (self', inl (raised flag_name self' (operand self' flag_values)))
              | (self', inl e) => (self', inl e)
              end
            else AppendFlagValues_loop h self flag_values used flag_names' caller
        | None =>
            (* a name that is gone: the size would have changed *)
            (self, inl changed_size)
        end
    end
  else (self, inl changed_size).

(** [FlagValues.AppendFlagValues(flag_values)], called from [caller]. *)
Definition AppendFlagValues (h : gmap addr Flag.t) (self : FlagValues)
    (flag_values : Operand) (caller : Z * string) : FlagValues * (Exc + unit) :=
  let flags := FlagDict (operand self flag_values) in
  AppendFlagValues_loop h self flag_values (size flags) (fst <$> map_to_list flags) caller.

End merging.

(** The loop of [FlagValuesDict]: [flag_values[flag_name] = flag.value]
    for every registered name. *)
Fixpoint FlagValuesDict_loop (h : gmap addr Flag.t) (self : FlagValues)
    (flag_names : list string) (flag_values : gmap string PyVal)
    : Exc + gmap string PyVal :=
  match flag_names with
  | [] => inr flag_values
  | flag_name :: flag_names' =>
      match FlagDict self !! flag_name with
      | None => inl (KeyError flag_name)
      | Some flag =>
          FlagValuesDict_loop h self flag_names'
            (<[flag_name := Flag.value (deref h flag)]> flag_values)
      end
  end.

(** [FlagValues.FlagValuesDict()] *)
Definition FlagValuesDict (h : gmap addr Flag.t) (self : FlagValues)
    : Exc + gmap string PyVal :=
  FlagValuesDict_loop h self (RegisteredFlags self) ∅.

(** [FlagValues.get(name, default)] *)
Definition get (environ : gmap string string) (h : gmap addr Flag.t)
    (self : FlagValues) (name : string) (default : PyVal) : Exc + PyVal :=
  match __getattr__ environ h self name with
  | inl e => inl e
  | inr value => if decide (value = PyNone) then inr default else inr value
  end.

(** ** Further vocabulary *)

(** Every key of the name map leads to a flag that carries it as its name
    or as its short name. *)
Definition keys_name_their_flags (h : gmap addr Flag.t) (self : FlagValues) : Prop :=
  ∀ key flag, FlagDict self !! key = Some flag →
    Flag.name (deref h flag) = key ∨ Flag.short_name (deref h flag) = Some key.

(** No key of the name map leads to the object [a]. *)
Definition unregistered (self : FlagValues) (a : addr) : Prop :=
  ∀ key, FlagDict self !! key ≠ Some a.

(** A token that is not taken for a flag: it does not start with a dash. *)
Definition no_dash (arg : string) : Prop := PyStr.startswith arg "-" = false.

(** The unknown flags a sequence of rounds records, in the order of the
    rounds: [(name, arg)] for every token taken for an unknown flag. *)
Definition unknown_of (rs : list (string * Route)) : list (string * string) :=
  omap (λ '(arg, r), match r with ToUnknown name => Some (name, arg) | _ => None end) rs.

(** The names a sequence of rounds adds to [undefok]. *)
Definition undefok_of (rs : list (string * Route)) (undefok : gset string) : gset string :=
  foldl (λ undefok '(_, r),
           match r with
           | ToUndefok value _ => undefok_update value undefok
           | _ => undefok
           end) undefok rs.

Section rounds.
Context `{Collaborators}.

(** The rounds of the [while] loop of [_ParseArgs] on the tokens [args]
    from the state [st]: the token [args[i]] each round reads, with where
    the loop body takes it. *)
Fixpoint rounds (self : FlagValues) (args : list string) (st : ParseState)
    {struct args} : list (string * Route) :=
  match args with
  | [] => []
  | arg :: rest =>
      (arg, route self (ps_heap st) arg rest) ::
      match _ParseArgs_step self arg rest st with
      | Continue st' false => rounds self rest st'
      | Continue st' true =>
          match rest with
          | _ :: rest' => rounds self rest' st'
          | [] => []
          end
      | Break _ | Raise _ _ => []
      end
  end.

(** What one round writes to the object store: the flag as its [Parse]
    leaves it, no longer at its default; nothing when [Parse] raises and on
    every other path. *)
Definition write (h : gmap addr Flag.t) (r : string * Route) : gmap addr Flag.t :=
  match r.2 with
  | ToFlag flag value _ =>
      match Parse (deref h flag) value with
      | inr parsed => <[flag := Flag.set_using_default_value false parsed]> h
      | inl _ => h
      end
  | _ => h
  end.

(** The object store after a sequence of rounds. *)
Definition written (rs : list (string * Route)) (h : gmap addr Flag.t)
    : gmap addr Flag.t :=
  foldl write h rs.

(** The round [r] hands a value to the parser of [flag]. *)
Definition parses (flag : addr) (r : string * Route) : Prop :=
  ∃ value next_taken, r.2 = ToFlag flag value next_taken.

End rounds.

(** Every flag of the name map is registered under its own name, which is
    not empty, and under its short name when it has one, and under no other
    key: what a sequence of [DEFINE]s without overrides leaves. *)
Definition registered_under_own_names (h : gmap addr Flag.t) (self : FlagValues) : Prop :=
  ∀ key flag, FlagDict self !! key = Some flag →
    (Flag.name (deref h flag) = key ∨ Flag.short_name (deref h flag) = Some key) ∧
    Flag.name (deref h flag) ≠ EmptyString ∧
    FlagDict self !! Flag.name (deref h flag) = Some flag ∧
    (∀ s, Flag.short_name (deref h flag) = Some s → FlagDict self !! s = Some flag).

(** No key of [other] is a key of [self]. *)
Definition no_common_key (self other : FlagValues) : Prop :=
  ∀ key, is_Some (FlagDict other !! key) → FlagDict self !! key = None.

(** The scanner state [st] with what [pre] had already collected put in
    front of it. *)
Definition behind (pre st : ParseState) : ParseState :=
  mkParseState (ps_heap st)
    (unknown_flags pre ++ unknown_flags st)
    (unparsed_args pre ++ unparsed_args st)
    (undefok pre ∪ undefok st).

Definition step_behind (pre : ParseState) (s : LoopStep) : LoopStep :=
  match s with
  | Continue st next_taken => Continue (behind pre st) next_taken
  | Break st => Break (behind pre st)
  | Raise e st => Raise e (behind pre st)
  end.

(** What a stretch of lines without directives contributes to the result
    of [__GetFlagFileLines]: its flag lines, stripped. *)
Definition filtered (lines : list string) : list string :=
  PyStr.strip <$> filter (λ line, is_flag_line line = true) lines.

(** ** Further inputs to run the definitions on *)

Module Sample.

(** The registry of [Demo.switches] after [FLAGS.UseGnuGetOpt()]. *)
Definition gnu_switches : FlagValues := UseGnuGetOpt true Demo.switches_registered.

(** A flagfile that includes another one between two flags, one that
    includes a file that does not exist, and one whose last line is a
    directive without a file name. *)
Definition outer_text : string :=
  "--a=1" +:+ PyStr.NL +:+ "--flagfile=inner" +:+ PyStr.NL +:+ "--c=3" +:+ PyStr.NL.
Definition inner_text : string :=
  "# included" +:+ PyStr.NL +:+ "--b=2" +:+ PyStr.NL.
Definition broken_text : string :=
  "--a=1" +:+ PyStr.NL +:+ "--flagfile=absent" +:+ PyStr.NL.
Definition bare_text : string :=
  "--a=1" +:+ PyStr.NL +:+ "--flagfile".
Definition flagfiles : gmap string string :=
  <["outer" := outer_text]>
  (<["inner" := inner_text]>
  (<["broken" := broken_text]>
  (<["bare" := bare_text]> ∅))).

End Sample.

(** * Properties *)

(** ** Registration *)

Lemma takes_name_iff h (fl : gmap string addr) name flag :
  takes_name h fl name flag = true ↔
  fl !! name = None ∨
  (∃ old, fl !! name = Some old ∧ Flag.using_default_value (deref h old) = true) ∨
  Flag.using_default_value (deref h flag) = false.
Proof.
  unfold takes_name. destruct (fl !! name) as [old|] eqn:E.
  - rewrite orb_true_iff, negb_true_iff. split.
    + intros [?|?]; [right; left; eauto | right; right; done].
    + intros [?|[(old' & ? & ?)|?]]; [done | left; congruence | by right].
  - split; [by left | done].
Qed.

(** Past the two collision checks, [__setitem__] binds the short name, if
    any, and then the name when [takes_name] allows it. *)
Lemma setitem_passes h self name flag caller :
  name ≠ EmptyString →
  collides h (FlagDict self) name flag = false →
  (∀ s, Flag.short_name (deref h flag) = Some s →
        collides h (FlagDict self) s flag = false) →
  __setitem__ h self name flag caller =
    (let fl := match Flag.short_name (deref h flag) with
               | Some s => <[s := flag]> (FlagDict self)
               | None => FlagDict self
               end in
     set_flags (if takes_name h fl name flag then <[name := flag]> fl else fl) self,
     inr tt).
Proof.
  intros Hne Hlong Hshort. unfold __setitem__.
  destruct (decide (name = EmptyString)) as [|_]; [done|].
  rewrite Hlong.
  destruct (Flag.short_name (deref h flag)) as [s|] eqn:Es.
  - rewrite (Hshort s eq_refl). simpl. by destruct (takes_name _ _ _ _).
  - simpl. by destruct (takes_name _ _ _ _).
Qed.

(** C1, as amended: for a flag whose short name is not the key [name]
    itself, a registration that passes the collision checks binds [name] to
    the flag exactly when [name] is not yet a key, or the flag now at
    [name] is still at its default, or the new flag is not at its default;
    and an existing flag with a non-default value keeps the key against a
    new flag still at its default. *)
Theorem setitem_replacement_policy h self name flag caller :
  name ≠ EmptyString →
  passes_collision_checks h self name flag →
  Flag.short_name (deref h flag) ≠ Some name →
  replacement_policy h self name flag caller.
Proof.
  intros Hne [Hlong Hshort] Hdiff. unfold replacement_policy.
  rewrite (setitem_passes _ _ _ _ _ Hne Hlong Hshort). cbv zeta.
  set (fl := match Flag.short_name (deref h flag) with
             | Some s => <[s := flag]> (FlagDict self)
             | None => FlagDict self end).
  assert (Hfl : fl !! name = FlagDict self !! name).
  { subst fl. destruct (Flag.short_name (deref h flag)) as [s|]; [|done].
    apply lookup_insert_ne. congruence. }
  assert (Htk : takes_name h fl name flag = takes_name h (FlagDict self) name flag).
  { unfold takes_name. by rewrite Hfl. }
  rewrite Htk. eexists; split; [reflexivity|].
  unfold FlagDict at 1 3. simpl.
  destruct (takes_name h (FlagDict self) name flag) eqn:Et.
  - rewrite lookup_insert_eq. split.
    + split; [intros _; by apply takes_name_iff | done].
    + intros old Hold Ho Hf. unfold takes_name in Et. rewrite Hold, Ho, Hf in Et. done.
  - rewrite Hfl. split.
    + split.
      * intros Hin. unfold takes_name in Et. rewrite Hin in Et.
        apply orb_false_iff in Et as [E1 E2]. apply negb_false_iff in E2. congruence.
      * intros Hc. apply takes_name_iff in Hc. congruence.
    + done.
Qed.

(** The policy at work: [verbosity] was assigned 5, so the overriding
    redefinition (object 2, still at its default) does not take the name. *)
Lemma setitem_replacement_policy_witness :
  replacement_policy Demo.verbosity_assigned Demo.verbosity_registered
    "verbosity" 2 Demo.caller.
Proof.
  apply (setitem_replacement_policy Demo.verbosity_assigned
           Demo.verbosity_registered "verbosity" 2 Demo.caller).
  - discriminate.
  - split.
    + vm_compute. reflexivity.
    + intros s Hs. vm_compute in Hs. injection Hs as <-. vm_compute. reflexivity.
  - vm_compute. discriminate.
Defined.

(** C1 as stated fails when the new flag's short name is the key itself:
    [v] holds object 3, assigned 7; object 4 (called [v], short name [v],
    still at its default, allowed to override) passes both checks and takes
    the key, although the key was held, its holder is not at its default
    and the new flag is. *)
Lemma setitem_short_name_takes_key :
  passes_collision_checks Demo.v_assigned Demo.v_registered "v" 4 ∧
  Flag.name (deref Demo.v_assigned 4) = "v" ∧
  ¬ replacement_policy Demo.v_assigned Demo.v_registered "v" 4 Demo.caller.
Proof.
  split; [|split].
  - split.
    + vm_compute. reflexivity.
    + intros s Hs. vm_compute in Hs. injection Hs as <-. vm_compute. reflexivity.
  - vm_compute. reflexivity.
  - intros (self' & Hcall & _ & Hkeep).
    specialize (Hkeep 3).
    assert (E : __setitem__ Demo.v_assigned Demo.v_registered "v" 4 Demo.caller
                = (set_flags (<["v" := 4]> (FlagDict Demo.v_registered)) Demo.v_registered,
                   inr tt)) by (vm_compute; reflexivity).
    rewrite E in Hcall. injection Hcall as <-.
    assert (H3 : FlagDict (set_flags (<["v" := 4]> (FlagDict Demo.v_registered))
                             Demo.v_registered) !! "v" = Some 3).
    { apply Hkeep; vm_compute; reflexivity. }
    vm_compute in H3. discriminate.
Qed.

(** Past the collision checks the short name is bound to the new flag
    whatever becomes of the name. *)
Lemma setitem_binds_short_name h self name flag caller s :
  name ≠ EmptyString →
  passes_collision_checks h self name flag →
  Flag.short_name (deref h flag) = Some s →
  ∃ self',
    __setitem__ h self name flag caller = (self', inr tt) ∧
    FlagDict self' !! s = Some flag.
Proof.
  intros Hne [Hlong Hshort] Hs.
  rewrite (setitem_passes _ _ _ _ _ Hne Hlong Hshort). cbv zeta. rewrite Hs.
  eexists; split; [reflexivity|]. unfold FlagDict at 1. simpl.
  destruct (takes_name _ _ _ _).
  - destruct (decide (name = s)) as [->|].
    + apply lookup_insert_eq.
    + rewrite lookup_insert_ne by done. apply lookup_insert_eq.
  - apply lookup_insert_eq.
Qed.

(** C10: the short name is rebound to the new flag unconditionally once
    the collision checks are passed, and there is a registration sequence
    after which a flag's name and short name lead to two different
    objects: with [verbosity] registered and assigned 5, registering the
    overriding object 2 (short name [v], at its default) leaves
    [verbosity] on object 1 and puts [v] on object 2. *)
Theorem setitem_keys_diverge :
  (∀ h self name flag caller s,
     name ≠ EmptyString →
     passes_collision_checks h self name flag →
     Flag.short_name (deref h flag) = Some s →
     ∃ self',
       __setitem__ h self name flag caller = (self', inr tt) ∧
       FlagDict self' !! s = Some flag) ∧
  ∃ self',
    Flag.name (deref Demo.verbosity_assigned 2) = "verbosity" ∧
    Flag.short_name (deref Demo.verbosity_assigned 2) = Some "v" ∧
    Flag.using_default_value (deref Demo.verbosity_assigned 1) = false ∧
    Flag.using_default_value (deref Demo.verbosity_assigned 2) = true ∧
    __setitem__ Demo.verbosity_assigned Demo.verbosity_registered
      "verbosity" 2 Demo.caller = (self', inr tt) ∧
    FlagDict self' !! "verbosity" = Some 1 ∧
    FlagDict self' !! "v" = Some 2.
Proof.
  split.
  - intros. by eapply setitem_binds_short_name.
  - eexists. repeat split; vm_compute; reflexivity.
Qed.

(** ** Deregistration *)

Lemma list_remove_filter x l :
  x ∈ l →
  length (list_remove x l) < length l ∧
  filter (λ a, a ≠ x) (list_remove x l) = filter (λ a, a ≠ x) l.
Proof.
  induction l as [|y l IH]; intros Hin; [by apply elem_of_nil in Hin|].
  simpl. destruct (decide (y = x)) as [->|Hne].
  - split; [lia|]. rewrite filter_cons_False; [done|]. intros ?; done.
  - apply elem_of_cons in Hin as [->|Hin]; [done|].
    destruct (IH Hin) as [Hlen Hf]. simpl. split; [lia|].
    rewrite !filter_cons_True by done. by rewrite Hf.
Qed.

Lemma filter_absent (x : addr) (l : list addr) :
  x ∉ l → filter (λ a, a ≠ x) l = l.
Proof.
  induction l as [|y l IH]; intros Hni; [done|].
  apply not_elem_of_cons in Hni as [Hne Hni].
  rewrite filter_cons_True by done. by rewrite IH.
Qed.

(** The [while] loop of [__RemoveFlagFromDictByModule] takes out every
    occurrence and nothing else. *)
Lemma remove_while_filter rounds x l :
  length l ≤ rounds → remove_while rounds x l = filter (λ a, a ≠ x) l.
Proof.
  revert l. induction rounds as [|n IH]; intros l Hlen.
  - destruct l; [done | simpl in Hlen; lia].
  - simpl. case_bool_decide as Hin.
    + destruct (list_remove_filter x l Hin) as [Hlt Hf].
      rewrite IH by lia. done.
    + by rewrite filter_absent.
Qed.

Lemma RemoveFlagFromDictByModule_without {K} (d : list (K * list addr)) flag_obj :
  __RemoveFlagFromDictByModule d flag_obj = without flag_obj d.
Proof.
  unfold __RemoveFlagFromDictByModule, without.
  apply list_fmap_ext. intros _ [module flags] _. by rewrite remove_while_filter.
Qed.

Lemma FlagIsRegistered_reachable h self flag_obj :
  _FlagIsRegistered h self flag_obj = true ↔ reachable h self flag_obj.
Proof.
  unfold _FlagIsRegistered, reachable.
  case_bool_decide as Hl; [by split; [left|]|].
  destruct (Flag.short_name (deref h flag_obj)) as [s|].
  - case_bool_decide as Hs.
    + split; [right; eauto | done].
    + split; [done|]. intros [?|(s' & [= <-] & ?)]; done.
  - split; [done|]. intros [?|(s' & ? & ?)]; done.
Qed.

(** C9: deleting a registered name removes that key and no other from the
    name map; the flag object is taken out of all three module indices
    when neither its name nor its short name leads to it any more, and the
    indices are left alone when one still does; deleting an absent name
    raises [AttributeError] and leaves the registry as it was. *)
Theorem delattr_deregisters h self flag_name :
  match FlagDict self !! flag_name with
  | None => __delattr__ h self flag_name = (self, inl (AttributeError flag_name))
  | Some flag_obj =>
      ∃ self',
        __delattr__ h self flag_name = (self', inr tt) ∧
        FlagDict self' = delete flag_name (FlagDict self) ∧
        __hiddenflags self' = __hiddenflags self ∧
        __flags_parsed self' = __flags_parsed self ∧
        __use_gnu_getopt self' = __use_gnu_getopt self ∧
        (reachable h self' flag_obj →
           FlagsByModuleDict self' = FlagsByModuleDict self ∧
           FlagsByModuleIdDict self' = FlagsByModuleIdDict self ∧
           KeyFlagsByModuleDict self' = KeyFlagsByModuleDict self) ∧
        (¬ reachable h self' flag_obj →
           FlagsByModuleDict self' = without flag_obj (FlagsByModuleDict self) ∧
           FlagsByModuleIdDict self' = without flag_obj (FlagsByModuleIdDict self) ∧
           KeyFlagsByModuleDict self' = without flag_obj (KeyFlagsByModuleDict self))
  end.
Proof.
  unfold __delattr__. destruct (FlagDict self !! flag_name) as [flag_obj|]; [|done].
  set (self1 := set_flags (delete flag_name (FlagDict self)) self).
  destruct (_FlagIsRegistered h self1 flag_obj) eqn:Ereg; simpl.
  - eexists; split; [reflexivity|]. do 4 (split; [done|]). split; [done|].
    intros Hn. apply FlagIsRegistered_reachable in Ereg. done.
  - eexists; split; [reflexivity|]. do 4 (split; [done|]). split.
    + intros Hr. assert (Hr1 : reachable h self1 flag_obj) by exact Hr.
      apply FlagIsRegistered_reachable in Hr1. congruence.
    + intros _. simpl. by rewrite !RemoveFlagFromDictByModule_without.
Qed.

(** Purging leaves no occurrence behind. *)
Lemma without_absent {K} (d : list (K * list addr)) flag_obj module flags :
  (module, flags) ∈ without flag_obj d → flag_obj ∉ flags.
Proof.
  unfold without. intros ([m l] & [= -> ->] & _)%list_elem_of_fmap.
  intros Hin%list_elem_of_filter. by destruct Hin.
Qed.

(** Object 2 is registered as [verbosity] and [v]: deleting [v] keeps it
    in the module indices, deleting [verbosity] after that purges it. *)
Example delattr_short_then_long :
  ∃ self1 self2,
    __delattr__ Demo.objects Demo.short_registered "v" = (self1, inr tt) ∧
    FlagsByModuleDict self1 = [("__main__", [2])] ∧
    __delattr__ Demo.objects self1 "verbosity" = (self2, inr tt) ∧
    FlagsByModuleDict self2 = [("__main__", [])] ∧
    FlagsByModuleIdDict self2 = [(1%Z, [])] ∧
    FlagDict self2 = ∅.
Proof. do 2 eexists. repeat split; vm_compute; reflexivity. Qed.

(** ** Reading a flag as an attribute *)

(** C8, as amended: for a registered flag that is not hidden, a read
    after the registry was marked parsed, or once the flag's [present]
    count is not zero, returns the flag's current value; before that, it
    returns the current value under the permissive policy (the one in force
    when the environment variable is unset) and raises
    [UnparsedFlagAccessError] otherwise.  No read returns anything but the
    current value, which is the default as long as the two agree. *)
Theorem getattr_before_parse environ h self name flag :
  FlagDict self !! name = Some flag →
  name ∉ __hiddenflags self →
  (__flags_parsed self = true ∨ Flag.present (deref h flag) ≠ 0 →
     __getattr__ environ h self name = inr (Flag.value (deref h flag))) ∧
  (__flags_parsed self = false → Flag.present (deref h flag) = 0 →
     (permissive environ →
        __getattr__ environ h self name = inr (Flag.value (deref h flag))) ∧
     (¬ permissive environ →
        ∃ msg, __getattr__ environ h self name = inl (UnparsedFlagAccessError msg))) ∧
  (∀ v, __getattr__ environ h self name = inr v → v = Flag.value (deref h flag)) ∧
  (Flag.value (deref h flag) = Flag.default (deref h flag) →
     ∀ v, __getattr__ environ h self name = inr v → v = Flag.default (deref h flag)) ∧
  (environ !! "GFLAGS_ALLOW_UNPARSED_FLAG_ACCESS" = None → permissive environ).
Proof.
  intros Hfl Hhid. unfold __getattr__, permissive. rewrite Hfl.
  rewrite bool_decide_eq_false_2 by done.
  assert (Hv : ∀ v,
    (if __flags_parsed self || negb (Flag.present (deref h flag) =? 0)
     then inr (Flag.value (deref h flag))
     else if bool_decide (getenv environ "GFLAGS_ALLOW_UNPARSED_FLAG_ACCESS" "1" = "1")
          then inr (Flag.value (deref h flag))
          else inl (UnparsedFlagAccessError
                      ("Trying to access flag " +:+ name +:+ " before flags were parsed.")))
    = (inr v : Exc + PyVal) → v = Flag.value (deref h flag)).
  { intros v. destruct (_ || _); [congruence|]. case_bool_decide; congruence. }
  split; [|split; [|split; [|split]]].
  - intros [Hp|Hp].
    + by rewrite Hp.
    + apply Nat.eqb_neq in Hp. rewrite Hp. by rewrite orb_true_r.
  - intros Hp Hpr. rewrite Hp, Hpr. simpl. split.
    + intros Hperm. by rewrite bool_decide_eq_true_2.
    + intros Hperm. rewrite bool_decide_eq_false_2 by done. eauto.
  - exact Hv.
  - intros Heq v Hr. rewrite <- Heq. by apply Hv.
  - intros Hunset. unfold getenv. by rewrite Hunset.
Qed.

(** Object 3 was assigned 7 through [__setattr__], which leaves [present]
    at zero; the registry is not parsed. *)
Lemma getattr_before_parse_witness :
  (__flags_parsed Demo.v_registered = true ∨
   Flag.present (deref Demo.v_assigned 3) ≠ 0 →
     __getattr__ ∅ Demo.v_assigned Demo.v_registered "v"
     = inr (Flag.value (deref Demo.v_assigned 3))) ∧
  (__flags_parsed Demo.v_registered = false →
   Flag.present (deref Demo.v_assigned 3) = 0 →
     (permissive ∅ →
        __getattr__ ∅ Demo.v_assigned Demo.v_registered "v"
        = inr (Flag.value (deref Demo.v_assigned 3))) ∧
     (¬ permissive ∅ →
        ∃ msg, __getattr__ ∅ Demo.v_assigned Demo.v_registered "v"
               = inl (UnparsedFlagAccessError msg))) ∧
  (∀ v, __getattr__ ∅ Demo.v_assigned Demo.v_registered "v" = inr v →
        v = Flag.value (deref Demo.v_assigned 3)) ∧
  (Flag.value (deref Demo.v_assigned 3) = Flag.default (deref Demo.v_assigned 3) →
     ∀ v, __getattr__ ∅ Demo.v_assigned Demo.v_registered "v" = inr v →
          v = Flag.default (deref Demo.v_assigned 3)) ∧
  ((∅ : gmap string string) !! "GFLAGS_ALLOW_UNPARSED_FLAG_ACCESS" = None →
     permissive ∅).
Proof.
  apply (getattr_before_parse ∅ Demo.v_assigned Demo.v_registered "v" 3).
  - vm_compute. reflexivity.
  - vm_compute. discriminate.
Defined.

(** C8 as stated fails after an attribute-style assignment: [FLAGS.v = 7]
    changes the value and leaves [present] at zero, so a read before the
    parse takes the access-before-parse path; under the permissive policy
    it returns 7, not the default 0, and under the strict policy it raises
    although the flag was set. *)
Lemma getattr_returns_assigned_value :
  FlagDict Demo.v_registered !! "v" = Some 3 ∧
  ("v" ∉ __hiddenflags Demo.v_registered) ∧
  __flags_parsed Demo.v_registered = false ∧
  Flag.present (deref Demo.v_assigned 3) = 0 ∧
  Flag.default (deref Demo.v_assigned 3) = PyInt 0 ∧
  permissive ∅ ∧
  __getattr__ ∅ Demo.v_assigned Demo.v_registered "v" = inr (PyInt 7) ∧
  __getattr__ {[ "GFLAGS_ALLOW_UNPARSED_FLAG_ACCESS" := "0" ]}
    Demo.v_assigned Demo.v_registered "v"
  = inl (UnparsedFlagAccessError
           "Trying to access flag v before flags were parsed.").
Proof.
  repeat split; try (vm_compute; reflexivity).
  vm_compute. discriminate.
Qed.


(** ** Scanning arguments *)

Lemma lstrip_chr_id c s : PyStr.startswith s (PyStr.chr c) = false → PyStr.lstrip_chr c s = s.
Proof.
  destruct s as [|a s]; [done|]. unfold PyStr.startswith, PyStr.chr. simpl.
  destruct (decide (a = c)) as [->|Hne]; [|done].
  destruct (ascii_dec c c); [|done]. by destruct s.
Qed.

Lemma split_arg_plain X :
  plain_name X → split_arg ("--" +:+ X) = (X, None).
Proof.
  intros (_ & _ & Heq & Hdash). unfold split_arg.
  change (PyStr.contains "=" ("--" +:+ X)) with (PyStr.contains "=" X). rewrite Heq.
  change (PyStr.lstrip_chr "-" ("--" +:+ X)) with (PyStr.lstrip_chr "-" X).
  by rewrite (lstrip_chr_id "-" X Hdash).
Qed.

Lemma route_plain self h X rest :
  plain_name X →
  route self h ("--" +:+ X) rest =
    match FlagDict self !! X with
    | Some flag =>
        if Flag.boolean (deref h flag) then ToFlag flag (PyBool true) false
        else match rest with
             | value :: _ => ToFlag flag (PyStr value) true
             | [] => MissingValue
             end
    | None =>
        match (if PyStr.startswith X "no" then FlagDict self !! PyStr.slice_from 2 X else None) with
        | Some flag => if Flag.boolean (deref h flag) then ToFlag flag (PyBool false) false else ToUnknown X
        | None => ToUnknown X
        end
    end.
Proof.
  intros HX. pose proof HX as (Hne & Hund & _ & _). unfold route.
  change (PyStr.startswith ("--" +:+ X) "-") with true. simpl negb. cbv iota.
  destruct (decide ("--" +:+ X = "--")) as [E|_].
  { exfalso. apply Hne. destruct X; [done|]. discriminate E. }
  rewrite (split_arg_plain X HX).
  destruct (decide (X = EmptyString)); [done|].
  destruct (decide (X = "undefok")); [done|].
  destruct (FlagDict self !! X) as [flag|]; [|done].
  destruct (Flag.boolean (deref h flag)); simpl; [done|]. by destruct rest.
Qed.

Lemma startswith_no X : PyStr.startswith ("no" +:+ X) "no" = true.
Proof.
  change ("no" +:+ X) with (String "n" (String "o" X)).
  unfold PyStr.startswith. simpl. by destruct X.
Qed.

Lemma plain_name_no X : plain_name X → plain_name ("no" +:+ X).
Proof.
  intros (Hne & Hund & Heq & Hdash). repeat split; try done.
Qed.

Lemma route_negation_iff self h arg rest target next_taken :
  route self h arg rest = ToFlag target (PyBool false) next_taken ↔
  next_taken = false ∧
  PyStr.startswith arg "-" = true ∧
  FlagDict self !! (split_arg arg).1 = None ∧
  PyStr.startswith (split_arg arg).1 "no" = true ∧
  FlagDict self !! PyStr.slice_from 2 (split_arg arg).1 = Some target ∧
  Flag.boolean (deref h target) = true.
Proof.
  unfold route. destruct (PyStr.startswith arg "-") eqn:Edash; cbn [negb].
  2: { split; [done | intros (_ & ? & _); done]. }
  destruct (decide (arg = "--")) as [->|Hnd].
  { split; [done | intros (_ & _ & _ & Hc & _); by vm_compute in Hc]. }
  destruct (split_arg arg) as [name value] eqn:Esplit. cbn [fst].
  destruct (decide (name = EmptyString)) as [->|Hne].
  { split; [done | intros (_ & _ & _ & Hc & _); by vm_compute in Hc]. }
  destruct (decide (name = "undefok")) as [->|Hund].
  { split; [|intros (_ & _ & _ & Hc & _); by vm_compute in Hc].
    destruct value; [done|]. by destruct rest. }
  destruct (FlagDict self !! name) as [flag|] eqn:Efl.
  { split; [|intros (_ & _ & ? & _); done].
    destruct (Flag.boolean (deref h flag)), value; simpl; try done.
    all: by destruct rest. }
  destruct (PyStr.startswith name "no") eqn:Eno.
  2: { split; [done | intros (_ & _ & _ & ? & _); done]. }
  destruct (FlagDict self !! PyStr.slice_from 2 name) as [flag|] eqn:Etarget.
  2: { split; [done | intros (_ & _ & _ & _ & ? & _); done]. }
  destruct (Flag.boolean (deref h flag)) eqn:Eb.
  - split.
    + intros [= <- <-]. done.
    + intros (-> & _ & _ & _ & [= <-] & _). done.
  - split; [done|]. intros (_ & _ & _ & _ & [= <-] & ?). congruence.
Qed.

Section scanning.
Context `{Collaborators}.

Lemma scan_single h self arg flag value :
  route self h arg [] = ToFlag flag value false →
  _ParseArgs h self [arg] =
    match Parse (deref h flag) value with
    | inl message => (h, inl (IllegalFlagValue message))
    | inr parsed =>
        (<[flag := Flag.set_using_default_value false parsed]> h, inr ([], [], ∅))
    end.
Proof.
  intros Hr. unfold _ParseArgs. simpl. unfold _ParseArgs_step. simpl. rewrite Hr.
  unfold parse_flag. simpl. by destruct (Parse (deref h flag) value).
Qed.

(** C2: with a boolean flag registered under the plain name [X], the
    token [--X] is routed to that flag's [Parse] with the value true, and
    the token [--noX], when [noX] is not a registered name itself, to the
    same flag's [Parse] with the value false: the scan of either token
    stores what [Parse] returns.  A token is routed to a flag with the
    value false exactly when it is a dash token whose name is not
    registered, starts with [no], and whose remainder names a registered
    boolean flag. *)
Theorem boolean_flag_tokens self h X flag :
  plain_name X →
  FlagDict self !! X = Some flag →
  Flag.boolean (deref h flag) = true →
  (∀ rest, route self h ("--" +:+ X) rest = ToFlag flag (PyBool true) false) ∧
  (FlagDict self !! ("no" +:+ X) = None →
     ∀ rest, route self h ("--no" +:+ X) rest = ToFlag flag (PyBool false) false) ∧
  (∀ arg rest value next_taken st,
     route self (ps_heap st) arg rest = ToFlag flag value next_taken →
     _ParseArgs_step self arg rest st = parse_flag flag value next_taken st) ∧
  (∀ parsed, Parse (deref h flag) (PyBool true) = inr parsed →
     _ParseArgs h self ["--" +:+ X] =
       (<[flag := Flag.set_using_default_value false parsed]> h, inr ([], [], ∅))) ∧
  (∀ parsed, FlagDict self !! ("no" +:+ X) = None →
     Parse (deref h flag) (PyBool false) = inr parsed →
     _ParseArgs h self ["--no" +:+ X] =
       (<[flag := Flag.set_using_default_value false parsed]> h, inr ([], [], ∅))) ∧
  (∀ arg rest target next_taken,
     route self h arg rest = ToFlag target (PyBool false) next_taken ↔
     next_taken = false ∧
     PyStr.startswith arg "-" = true ∧
     FlagDict self !! (split_arg arg).1 = None ∧
     PyStr.startswith (split_arg arg).1 "no" = true ∧
     FlagDict self !! PyStr.slice_from 2 (split_arg arg).1 = Some target ∧
     Flag.boolean (deref h target) = true).
Proof.
  intros HX Hfl Hb.
  assert (Hyes : ∀ rest, route self h ("--" +:+ X) rest = ToFlag flag (PyBool true) false).
  { intros rest. rewrite route_plain by done. by rewrite Hfl, Hb. }
  assert (Hno : FlagDict self !! ("no" +:+ X) = None →
     ∀ rest, route self h ("--no" +:+ X) rest = ToFlag flag (PyBool false) false).
  { intros Hfree rest. change ("--no" +:+ X) with ("--" +:+ ("no" +:+ X)).
    rewrite route_plain by by apply plain_name_no.
    rewrite Hfree.
    rewrite startswith_no.
    change (PyStr.slice_from 2 ("no" +:+ X)) with X. by rewrite Hfl, Hb. }
  split; [done|]. split; [done|]. split; [|split; [|split]].
  - intros arg rest value next_taken st Hr. unfold _ParseArgs_step. by rewrite Hr.
  - intros parsed Hp. rewrite (scan_single h self _ flag (PyBool true)) by done.
    by rewrite Hp.
  - intros parsed Hfree Hp. rewrite (scan_single h self _ flag (PyBool false)) by auto.
    by rewrite Hp.
  - intros. apply route_negation_iff.
Qed.


Lemma grows_refl st : grows st st.
Proof. split; done. Qed.

Lemma grows_trans st1 st2 st3 : grows st1 st2 → grows st2 st3 → grows st1 st3.
Proof. intros [? ?] [? ?]. split; by etrans. Qed.

Lemma undefok_update_grows value (ud : gset string) : ud ⊆ undefok_update value ud.
Proof. unfold undefok_update. set_solver. Qed.

Lemma step_grows self arg rest st :
  grows st (step_state (_ParseArgs_step self arg rest st)).
Proof.
  unfold _ParseArgs_step.
  destruct (route self (ps_heap st) arg rest) as [| |value nt|flag value nt|name|]; simpl.
  - unfold positional. destruct (IsGnuGetOpt self); by split.
  - apply grows_refl.
  - split; simpl; [apply undefok_update_grows | done].
  - unfold parse_flag. destruct (Parse _ _); by split.
  - split; simpl; [done | by apply prefix_app_r].
  - apply grows_refl.
Qed.

Lemma loop_grows_bounded n self args st :
  length args ≤ n → grows st (_ParseArgs_loop self args st).1.
Proof.
  revert args st. induction n as [|n IH]; intros args st Hlen.
  { destruct args; [apply grows_refl | simpl in Hlen; lia]. }
  destruct args as [|arg rest]; [apply grows_refl|]. simpl in Hlen. simpl.
  pose proof (step_grows self arg rest st) as Hstep.
  destruct (_ParseArgs_step self arg rest st) as [st1 [|]|st1|e st1]; simpl in Hstep.
  - destruct rest as [|? rest']; [done|]. simpl in Hlen.
    eapply grows_trans; [done|]. apply IH. lia.
  - eapply grows_trans; [done|]. apply IH. lia.
  - done.
  - done.
Qed.

Lemma loop_grows self args st : grows st (_ParseArgs_loop self args st).1.
Proof. by apply (loop_grows_bounded (length args)). Qed.

(** A token the loop routes to the unknown flags is in the list the scan
    ends with. *)
Lemma loop_records_unknown self arg rest st name :
  route self (ps_heap st) arg rest = ToUnknown name →
  (name, arg) ∈ unknown_flags (_ParseArgs_loop self (arg :: rest) st).1.
Proof.
  intros Hr. simpl. unfold _ParseArgs_step. rewrite Hr.
  set (st1 := mkParseState _ _ _ _).
  destruct (loop_grows self rest st1) as [_ [k Hk]]. rewrite Hk.
  subst st1. simpl. set_solver.
Qed.

(** The names an [undefok] token carries are in the set the scan ends
    with, bare and negated. *)
Lemma undefok_update_names value (ud : gset string) w :
  w ∈ PyStr.split "," value →
  PyStr.strip w ∈ undefok_update value ud ∧
  "no" +:+ PyStr.strip w ∈ undefok_update value ud.
Proof.
  intros Hw. unfold undefok_update. split.
  - apply elem_of_union_l, elem_of_union_r, elem_of_list_to_set.
    apply list_elem_of_fmap. eauto.
  - apply elem_of_union_r, elem_of_list_to_set.
    apply list_elem_of_fmap. exists w. eauto.
Qed.

Lemma loop_records_undefok self arg rest st value next_taken w :
  route self (ps_heap st) arg rest = ToUndefok value next_taken →
  w ∈ PyStr.split "," value →
  PyStr.strip w ∈ undefok (_ParseArgs_loop self (arg :: rest) st).1 ∧
  "no" +:+ PyStr.strip w ∈ undefok (_ParseArgs_loop self (arg :: rest) st).1.
Proof.
  intros Hr Hw. simpl. unfold _ParseArgs_step. rewrite Hr.
  set (st1 := mkParseState _ _ _ _).
  assert (Hnames : PyStr.strip w ∈ undefok st1 ∧ "no" +:+ PyStr.strip w ∈ undefok st1).
  { subst st1. simpl. by apply undefok_update_names. }
  destruct next_taken.
  - destruct rest as [|? rest'].
    + done.
    + destruct (loop_grows self rest' st1) as [Hsub _].
      split; apply Hsub; apply Hnames.
  - destruct (loop_grows self rest st1) as [Hsub _].
    split; apply Hsub; apply Hnames.
Qed.

Lemma route_undefok_eq self h value rest :
  route self h ("--undefok=" +:+ value) rest = ToUndefok value false.
Proof. reflexivity. Qed.

Lemma route_undefok_next self h value rest :
  route self h "--undefok" (value :: rest) = ToUndefok value true.
Proof. reflexivity. Qed.

Lemma route_undefok_missing self h :
  route self h "--undefok" [] = MissingValue.
Proof. reflexivity. Qed.


Lemma first_unrecognized_None self unknown ud :
  first_unrecognized self unknown ud = None ↔
  ∀ n v, (n, v) ∈ unknown → n ∈ ud.
Proof.
  induction unknown as [|[n v] unknown IH]; simpl.
  - split; [|done]. intros _ n v Hin. by apply elem_of_nil in Hin.
  - case_bool_decide as Hn.
    + rewrite IH. split.
      * intros Hall n' v' [[= -> ->]|Hin]%elem_of_cons; eauto.
      * intros Hall n' v' Hin. apply (Hall n' v'). by right.
    + split; [done|]. intros Hall. exfalso. apply Hn, (Hall n v). by left.
Qed.

Lemma first_unrecognized_Some self unknown ud e :
  first_unrecognized self unknown ud = Some e →
  ∃ pre n v post,
    unknown = pre ++ (n, v) :: post ∧
    (∀ x, x ∈ pre → x.1 ∈ ud) ∧ (n ∉ ud) ∧
    e = UnrecognizedFlagError n v (GetFlagSuggestions n (RegisteredFlags self)).
Proof.
  induction unknown as [|[n v] unknown IH]; simpl; [done|].
  case_bool_decide as Hn.
  - intros (pre & n' & v' & post & -> & Hpre & Hn' & ->)%IH.
    exists ((n, v) :: pre), n', v', post. repeat split; try done.
    intros x [->|Hx]%elem_of_cons; eauto.
  - intros [= <-]. exists [], n, v, unknown. repeat split; try done.
    intros x Hx. by apply elem_of_nil in Hx.
Qed.

Lemma verify_each_not_unrecognized validators h self e :
  verify_each validators h self = Some e → not_unrecognized e.
Proof.
  induction validators as [|v vs IH]; simpl; [done|].
  destruct (Verify v h self); [by intros [= <-] | done].
Qed.

Lemma AssertAllValidators_not_unrecognized h self e :
  _AssertAllValidators h self = Some e → not_unrecognized e.
Proof. apply verify_each_not_unrecognized. Qed.

Lemma step_not_unrecognized self arg rest st e st' :
  _ParseArgs_step self arg rest st = Raise e st' → not_unrecognized e.
Proof.
  unfold _ParseArgs_step.
  destruct (route self (ps_heap st) arg rest); try done.
  - unfold positional. by destruct (IsGnuGetOpt self).
  - unfold parse_flag. destruct (Parse _ _); [by intros [= <- _] | done].
  - by intros [= <- _].
Qed.

Lemma loop_not_unrecognized_bounded n self args st st' e :
  length args ≤ n →
  _ParseArgs_loop self args st = (st', inl e) → not_unrecognized e.
Proof.
  revert args st. induction n as [|n IH]; intros args st Hlen.
  { destruct args; [done | simpl in Hlen; lia]. }
  destruct args as [|arg rest]; [done|]. simpl in Hlen. simpl.
  pose proof (step_not_unrecognized self arg rest st) as Hstep.
  destruct (_ParseArgs_step self arg rest st) as [st1 [|]|st1|e1 st1].
  - destruct rest as [|? rest']; [done|]. simpl in Hlen. apply IH. lia.
  - apply IH. lia.
  - done.
  - intros [= _ <-]. by eapply Hstep.
Qed.

Lemma ParseArgs_not_unrecognized h self args h' e :
  _ParseArgs h self args = (h', inl e) → not_unrecognized e.
Proof.
  unfold _ParseArgs.
  destruct (_ParseArgs_loop self args _) as [st [e1|rest]] eqn:El; [|done].
  intros [= _ <-]. by eapply (loop_not_unrecognized_bounded (length args)).
Qed.

(** What a round adds to the state. *)
Lemma step_round self arg rest st :
  let r := (arg, route self (ps_heap st) arg rest) in
  let st' := step_state (_ParseArgs_step self arg rest st) in
  unknown_flags st' = unknown_flags st ++ unknown_of [r] ∧
  undefok st' = undefok_of [r] (undefok st) ∧
  ps_heap st' = write (ps_heap st) r.
Proof.
  cbv zeta. unfold _ParseArgs_step, write, unknown_of, undefok_of. cbn [snd foldl omap].
  destruct (route self (ps_heap st) arg rest) as [| |value nt|flag value nt|name|];
    cbn [step_state]; rewrite ?app_nil_r; try done.
  - unfold positional. by destruct (IsGnuGetOpt self).
  - unfold parse_flag. by destruct (Parse _ _).
Qed.

Lemma loop_rounds_bounded n self args st :
  length args ≤ n →
  let rs := rounds self args st in
  let st' := (_ParseArgs_loop self args st).1 in
  unknown_flags st' = unknown_flags st ++ unknown_of rs ∧
  undefok st' = undefok_of rs (undefok st) ∧
  ps_heap st' = written rs (ps_heap st).
Proof.
  cbv zeta. revert args st. induction n as [|n IH]; intros args st Hlen.
  { destruct args; [by rewrite app_nil_r | simpl in Hlen; lia]. }
  destruct args as [|arg rest]; [by rewrite app_nil_r|]. simpl in Hlen.
  cbn [_ParseArgs_loop rounds].
  destruct (step_round self arg rest st) as (Hu & Hud & Hh).
  set (r := (arg, route self (ps_heap st) arg rest)) in *.
  assert (Hgo : ∀ rest' st1,
    step_state (_ParseArgs_step self arg rest st) = st1 →
    length rest' ≤ n →
    unknown_flags (_ParseArgs_loop self rest' st1).1
      = unknown_flags st ++ unknown_of (r :: rounds self rest' st1) ∧
    undefok (_ParseArgs_loop self rest' st1).1
      = undefok_of (r :: rounds self rest' st1) (undefok st) ∧
    ps_heap (_ParseArgs_loop self rest' st1).1
      = written (r :: rounds self rest' st1) (ps_heap st)).
  { intros rest' st1 Hst1 Hlen'. rewrite Hst1 in Hu, Hud, Hh.
    destruct (IH rest' st1 Hlen') as (Hu' & Hud' & Hh').
    rewrite Hu', Hud', Hh', Hu, Hud, Hh.
    change (r :: rounds self rest' st1) with ([r] ++ rounds self rest' st1).
    unfold unknown_of, undefok_of, written.
    rewrite omap_app, !foldl_app, app_assoc. done. }
  assert (Hstop : ∀ st1,
    step_state (_ParseArgs_step self arg rest st) = st1 →
    unknown_flags st1 = unknown_flags st ++ unknown_of [r] ∧
    undefok st1 = undefok_of [r] (undefok st) ∧
    ps_heap st1 = written [r] (ps_heap st)).
  { by intros st1 <-. }
  destruct (_ParseArgs_step self arg rest st) as [st1 [|]|st1|e st1]; cbn [fst step_state] in *.
  - destruct rest as [|next rest']; [by apply Hstop|].
    simpl in Hlen. apply Hgo; [done | lia].
  - apply Hgo; [done | lia].
  - by apply Hstop.
  - by apply Hstop.
Qed.

(** What the scan returns is what its rounds contribute, in their order. *)
Lemma ParseArgs_rounds h self args :
  let rs := rounds self args (mkParseState h [] [] ∅) in
  (_ParseArgs h self args).1 = written rs h ∧
  ∀ unknown unparsed ud,
    (_ParseArgs h self args).2 = inr (unknown, unparsed, ud) →
    unknown = unknown_of rs ∧ ud = undefok_of rs ∅.
Proof.
  cbv zeta. unfold _ParseArgs.
  destruct (loop_rounds_bounded (length args) self args (mkParseState h [] [] ∅) (le_n _))
    as (Hu & Hud & Hh). simpl in Hu, Hud, Hh.
  destruct (_ParseArgs_loop self args _) as [st [e|rest]]; simpl in *.
  - split; [done|]. done.
  - split; [done|]. intros unknown unparsed ud [= <- _ <-]. done.
Qed.

(** The rounds read tokens of [args], in the order of [args]. *)
Lemma rounds_sublist_bounded n self args st :
  length args ≤ n → (rounds self args st).*1 `sublist_of` args.
Proof.
  revert args st. induction n as [|n IH]; intros args st Hlen.
  { destruct args; [done | simpl in Hlen; lia]. }
  destruct args as [|arg rest]; [done|]. simpl in Hlen. cbn [rounds fmap list_fmap fst].
  apply sublist_skip.
  destruct (_ParseArgs_step self arg rest st) as [st1 [|]|st1|e st1].
  - destruct rest as [|next rest']; [apply sublist_nil_l|]. simpl in Hlen.
    apply sublist_cons. apply IH. lia.
  - apply IH. lia.
  - apply sublist_nil_l.
  - apply sublist_nil_l.
Qed.

Lemma rounds_sublist self args st : (rounds self args st).*1 `sublist_of` args.
Proof. by apply (rounds_sublist_bounded (length args)). Qed.

(** Every round records where [route] takes its token, from the object
    store the rounds before it have written. *)
Lemma rounds_route_bounded n self args st rs1 arg r rs2 :
  length args ≤ n →
  rounds self args st = rs1 ++ (arg, r) :: rs2 →
  ∃ rest, r = route self (written rs1 (ps_heap st)) arg rest.
Proof.
  revert args st rs1. induction n as [|n IH]; intros args st rs1 Hlen Hrs.
  { destruct args; [by destruct rs1 | simpl in Hlen; lia]. }
  destruct args as [|arg0 rest]; [by destruct rs1|]. simpl in Hlen.
  cbn [rounds] in Hrs. destruct rs1 as [|r1 rs1].
  - injection Hrs as <- <- _. by exists rest.
  - injection Hrs as <- Hrs.
    destruct (step_round self arg0 rest st) as (_ & _ & Hh).
    change (written ((arg0, route self (ps_heap st) arg0 rest) :: rs1) (ps_heap st))
      with (written rs1 (write (ps_heap st) (arg0, route self (ps_heap st) arg0 rest))).
    rewrite <- Hh.
    destruct (_ParseArgs_step self arg0 rest st) as [st1 [|]|st1|e st1]; cbn [step_state].
    + destruct rest as [|next rest']; [by destruct rs1|]. simpl in Hlen.
      apply (IH rest' st1 rs1); [lia | done].
    + apply (IH rest st1 rs1); [lia | done].
    + by destruct rs1.
    + by destruct rs1.
Qed.

(** When the loop ends without raising, every [Parse] it called
    returned. *)
Lemma rounds_parsed_bounded n self args st st' remaining rs1 arg flag value nt rs2 :
  length args ≤ n →
  _ParseArgs_loop self args st = (st', inr remaining) →
  rounds self args st = rs1 ++ (arg, ToFlag flag value nt) :: rs2 →
  ∃ parsed, Parse (deref (written rs1 (ps_heap st)) flag) value = inr parsed.
Proof.
  revert args st rs1. induction n as [|n IH]; intros args st rs1 Hlen Hrun Hrs.
  { destruct args; [by destruct rs1 | simpl in Hlen; lia]. }
  destruct args as [|arg0 rest]; [by destruct rs1|]. simpl in Hlen.
  cbn [rounds] in Hrs. cbn [_ParseArgs_loop] in Hrun. destruct rs1 as [|r1 rs1].
  - injection Hrs as <- Hr _. revert Hrun. unfold _ParseArgs_step. rewrite Hr.
    unfold parse_flag. simpl. destruct (Parse (deref (ps_heap st) flag) value); [done|].
    eauto.
  - injection Hrs as <- Hrs.
    destruct (step_round self arg0 rest st) as (_ & _ & Hh).
    change (written ((arg0, route self (ps_heap st) arg0 rest) :: rs1) (ps_heap st))
      with (written rs1 (write (ps_heap st) (arg0, route self (ps_heap st) arg0 rest))).
    rewrite <- Hh.
    destruct (_ParseArgs_step self arg0 rest st) as [st1 [|]|st1|e st1]; cbn [step_state].
    + destruct rest as [|next rest']; [by destruct rs1|]. simpl in Hlen.
      apply (IH rest' st1 rs1); [lia | done | done].
    + apply (IH rest st1 rs1); [lia | done | done].
    + by destruct rs1.
    + by destruct rs1.
Qed.

(** Rounds that hand nothing to the parser of [flag] leave it alone. *)
Lemma written_other rs h flag :
  Forall (λ r, ¬ parses flag r) rs → written rs h !! flag = h !! flag.
Proof.
  revert h. induction rs as [|[arg r] rs IH]; intros h Hall; [done|].
  apply Forall_cons in Hall as [Hr Hall].
  change (written ((arg, r) :: rs) h) with (written rs (write h (arg, r))).
  rewrite IH by done. unfold write. cbn [snd].
  destruct r as [| |?|f value nt|?|]; try done.
  destruct (Parse (deref h f) value); [done|].
  apply lookup_insert_ne. intros ->. apply Hr. by exists value, nt.
Qed.

(** A flag holds what the last round that parsed it left. *)
Lemma written_last rs1 arg flag value nt rs2 h parsed :
  Parse (deref (written rs1 h) flag) value = inr parsed →
  Forall (λ r, ¬ parses flag r) rs2 →
  deref (written (rs1 ++ (arg, ToFlag flag value nt) :: rs2) h) flag
  = Flag.set_using_default_value false parsed.
Proof.
  intros Hparse Hrs2. unfold deref.
  unfold written at 1. rewrite foldl_app. cbn [foldl].
  fold (written rs1 h). 
  change (foldl write (write (written rs1 h) (arg, ToFlag flag value nt)) rs2)
    with (written rs2 (write (written rs1 h) (arg, ToFlag flag value nt))).
  rewrite written_other by done.
  unfold write. cbn [snd]. rewrite Hparse. by rewrite lookup_insert_eq.
Qed.

(** A token is recorded as unknown exactly when a round took it there. *)
Lemma elem_of_unknown_of rs name arg :
  (name, arg) ∈ unknown_of rs ↔ (arg, ToUnknown name) ∈ rs.
Proof.
  unfold unknown_of. rewrite list_elem_of_omap. split.
  - intros ([arg' r] & Hin & Hr). destruct r; try done. by injection Hr as -> ->.
  - intros Hin. by exists (arg, ToUnknown name).
Qed.

Lemma elem_of_undefok_update value (ud : gset string) x :
  x ∈ undefok_update value ud ↔
  x ∈ ud ∨ ∃ w, w ∈ PyStr.split "," value ∧
                (x = PyStr.strip w ∨ x = "no" +:+ PyStr.strip w).
Proof.
  unfold undefok_update. rewrite !elem_of_union, !elem_of_list_to_set, !list_elem_of_fmap.
  split.
  - intros [[?|(w & -> & Hw)]|(w & -> & Hw)]; [by left | right; eauto | right; eauto].
  - intros [?|(w & Hw & [->| ->])].
    + by left; left.
    + left; right. eauto.
    + right. eauto.
Qed.

Lemma unknown_of_cons arg r rs :
  unknown_of ((arg, r) :: rs)
  = match r with
    | ToUnknown name => (name, arg) :: unknown_of rs
    | _ => unknown_of rs
    end.
Proof. by destruct r. Qed.

(** An entry of the recorded flags goes back to a round, and so do the
    entries before and after it. *)
Lemma unknown_of_split rs pre n v post :
  unknown_of rs = pre ++ (n, v) :: post →
  ∃ rs1 rs2, rs = rs1 ++ (v, ToUnknown n) :: rs2 ∧
             unknown_of rs1 = pre ∧ unknown_of rs2 = post.
Proof.
  revert pre. induction rs as [|[arg r] rs IH]; intros pre Hrs.
  { by destruct pre. }
  rewrite unknown_of_cons in Hrs.
  assert (Hskip : unknown_of rs = pre ++ (n, v) :: post →
                  (∀ name, r ≠ ToUnknown name) →
                  ∃ rs1 rs2, (arg, r) :: rs = rs1 ++ (v, ToUnknown n) :: rs2 ∧
                             unknown_of rs1 = pre ∧ unknown_of rs2 = post).
  { intros (rs1 & rs2 & -> & <- & <-)%IH Hr. exists ((arg, r) :: rs1), rs2.
    split; [done|]. split; [|done]. rewrite unknown_of_cons. destruct r; try done.
    by destruct (Hr name). }
  destruct r as [| |value nt|flag value nt|name|]; try (by apply Hskip).
  destruct pre as [|p pre].
  - injection Hrs as -> -> Hpost. by exists [], rs.
  - injection Hrs as <- Hrs. apply IH in Hrs as (rs1 & rs2 & -> & <- & <-).
    by exists ((arg, ToUnknown name) :: rs1), rs2.
Qed.

Section calls.
Variable fs : gmap string string.

Lemma ExtractFilename_not_unrecognized line e :
  ExtractFilename line = inl e → not_unrecognized e.
Proof.
  unfold ExtractFilename. repeat case_match; try done. by intros [= <-].
Qed.

Lemma each_line_not_unrecognized recurse :
  (∀ f st st' e, recurse f st = Some (st', inl e) → not_unrecognized e) →
  ∀ line_list flag_line_list st st' e,
    each_line recurse line_list flag_line_list st = Some (st', inl e) →
    not_unrecognized e.
Proof.
  intros Hrec line_list. induction line_list as [|line lines IH]; intros acc st st' e; simpl.
  - done.
  - destruct (PyStr.isspace line); [apply IH|].
    destruct (_ || _); [apply IH|].
    destruct (__IsFlagFileDirective line); [|apply IH].
    destruct (ExtractFilename line) as [e1|sub] eqn:Ex.
    + intros [= _ <-]. by eapply ExtractFilename_not_unrecognized.
    + destruct (recurse sub st) as [[st1 [e1|inc]]|] eqn:Er; [|apply IH|done].
      intros [= _ <-]. by eapply Hrec.
Qed.

Lemma GetFlagFileLines_fuel_not_unrecognized fuel filename st st' e :
  __GetFlagFileLines_fuel fs fuel filename st = Some (st', inl e) →
  not_unrecognized e.
Proof.
  revert filename st st' e. induction fuel as [|fuel IH]; intros filename st st' e; simpl.
  - done.
  - case_bool_decide; [done|].
    destruct (fs !! filename) as [content|]; [|by intros [= _ <-]].
    apply each_line_not_unrecognized. exact IH.
Qed.

Lemma GetFlagFileLines_not_unrecognized filename st st' e :
  __GetFlagFileLines fs filename st = (st', inl e) → not_unrecognized e.
Proof.
  unfold __GetFlagFileLines.
  destruct (__GetFlagFileLines_fuel _ _ _ _) as [[st1 r]|] eqn:E.
  - intros [= -> ->]. by eapply GetFlagFileLines_fuel_not_unrecognized.
  - by intros [= _ <-].
Qed.

Lemma ReadFlagsFromFiles_loop_not_unrecognized n h self force_gnu args new_argv err err' e :
  length args ≤ n →
  ReadFlagsFromFiles_loop fs h self force_gnu args new_argv err = (err', inl e) →
  not_unrecognized e.
Proof.
  revert args new_argv err. induction n as [|n IH]; intros args new_argv err Hlen.
  { destruct args; [done | simpl in Hlen; lia]. }
  destruct args as [|arg rest]; [done|]. simpl in Hlen. simpl.
  destruct (__IsFlagFileDirective arg).
  - destruct (_ || _).
    + destruct rest as [|next rest']; [by intros [= _ <-]|]. simpl in Hlen.
      destruct (__GetFlagFileLines fs _ _) as [st1 [e1|lines]] eqn:Eg.
      * intros [= _ <-]. by eapply GetFlagFileLines_not_unrecognized.
      * apply IH. lia.
    + destruct (ExtractFilename arg) as [e1|fname] eqn:Ex.
      * intros [= _ <-]. by eapply ExtractFilename_not_unrecognized.
      * destruct (__GetFlagFileLines fs _ _) as [st1 [e1|lines]] eqn:Eg.
        -- intros [= _ <-]. by eapply GetFlagFileLines_not_unrecognized.
        -- apply IH. lia.
  - destruct (decide (arg = "--")); [done|].
    destruct (negb (PyStr.startswith arg "-")).
    + destruct (_ && _); [done|]. apply IH. lia.
    + destruct rest as [|next rest']; [apply IH; simpl; lia|]. simpl in Hlen.
      destruct (_ && _); apply IH; simpl; lia.
Qed.

Lemma ReadFlagsFromFiles_not_unrecognized h self argv force_gnu err err' e :
  ReadFlagsFromFiles fs h self argv force_gnu err = (err', inl e) →
  not_unrecognized e.
Proof. by apply (ReadFlagsFromFiles_loop_not_unrecognized (length argv)). Qed.

(** C4: when the call raises [UnrecognizedFlagError], the flagfile
    expansion and the whole scan have completed, and the error names the
    first token, in the order the scan read the tokens, that it took for an
    unknown flag and whose name is not in [undefok].  The object store the
    call leaves behind is the one the rounds of the scan have written: for
    every token handed to a flag's [Parse], [Parse] returned, and the flag
    object holds what the last such [Parse] returned, no longer at its
    default.  The registry itself is as it was, not marked parsed. *)
Theorem call_aborts_on_first_unknown h self argv err h' self' err' n v s :
  __call__ fs h self argv err = ((h', self', err'), inl (UnrecognizedFlagError n v s)) →
  ∃ program_name argv' args unknown unparsed ud pre post,
    argv = program_name :: argv' ∧
    ReadFlagsFromFiles fs h self argv' false err = (err', inr args) ∧
    _ParseArgs h self args = (h', inr (unknown, unparsed, ud)) ∧
    self' = self ∧
    unknown = pre ++ (n, v) :: post ∧
    (∀ x, x ∈ pre → x.1 ∈ ud) ∧
    (n ∉ ud) ∧
    ∃ rs rs1 rs2,
      rs = rounds self args (mkParseState h [] [] ∅) ∧
      rs.*1 `sublist_of` args ∧
      unknown = unknown_of rs ∧
      rs = rs1 ++ (v, ToUnknown n) :: rs2 ∧
      (∀ arg name, (arg, ToUnknown name) ∈ rs1 → name ∈ ud) ∧
      h' = written rs h ∧
      (∀ before arg flag value next_taken after,
         rs = before ++ (arg, ToFlag flag value next_taken) :: after →
         ∃ parsed,
           Parse (deref (written before h) flag) value = inr parsed ∧
           (Forall (λ r, ¬ parses flag r) after →
            deref h' flag = Flag.set_using_default_value false parsed)).
Proof.
  unfold __call__. destruct argv as [|program_name argv'].
  { destruct (_AssertAllValidators h (MarkAsParsed self)) as [e|] eqn:Ev; [|done].
    intros [= _ _ _ ->]. by apply AssertAllValidators_not_unrecognized in Ev. }
  destruct (ReadFlagsFromFiles fs h self argv' false err) as [err1 [e|args]] eqn:Er.
  { intros [= _ _ _ ->]. by apply ReadFlagsFromFiles_not_unrecognized in Er. }
  destruct (_ParseArgs h self args) as [h1 [e|[[unknown unparsed] ud]]] eqn:Ep.
  { intros [= _ _ _ ->]. by apply ParseArgs_not_unrecognized in Ep. }
  destruct (first_unrecognized self unknown ud) as [e|] eqn:Ef.
  2: { destruct (_AssertAllValidators h1 (MarkAsParsed self)) as [e|] eqn:Ev; [|done].
       intros [= _ _ _ ->]. by apply AssertAllValidators_not_unrecognized in Ev. }
  intros [= -> <- -> ->].
  apply first_unrecognized_Some in Ef as (pre & n' & v' & post & Hunknown & Hpre & Hn & [= -> -> ->]).
  exists program_name, argv', args, unknown, unparsed, ud, pre, post.
  do 7 (split; [done|]).
  destruct (ParseArgs_rounds h self args) as [Hheap Hlists].
  rewrite Ep in Hheap, Hlists. cbn [fst snd] in Hheap, Hlists.
  destruct (Hlists unknown unparsed ud eq_refl) as [Hu Hud].
  set (rs := rounds self args (mkParseState h [] [] ∅)) in *.
  assert (Hsplit := Hunknown). rewrite Hu in Hsplit.
  apply unknown_of_split in Hsplit as (rs1 & rs2 & Hrs & Hrs1 & Hrs2).
  exists rs, rs1, rs2. split; [done|]. split; [apply rounds_sublist|].
  split; [done|]. split; [done|]. split.
  { intros arg name Hin. apply (Hpre (name, arg)). rewrite <- Hrs1.
    by apply elem_of_unknown_of. }
  split; [done|].
  intros before arg flag value next_taken after Hbefore.
  assert (Hloop : ∃ st remaining,
            _ParseArgs_loop self args (mkParseState h [] [] ∅) = (st, inr remaining)).
  { revert Ep. unfold _ParseArgs.
    destruct (_ParseArgs_loop self args _) as [st [e|remaining]]; [done | eauto]. }
  destruct Hloop as (st & remaining & Hloop).
  destruct (rounds_parsed_bounded (length args) self args _ st remaining before arg flag
              value next_taken after (le_n _) Hloop Hbefore) as [parsed Hparsed].
  cbn [ps_heap] in Hparsed. exists parsed. split; [done|].
  intros Hafter. rewrite Hheap. fold rs. rewrite Hbefore.
  by apply written_last.
Qed.

Lemma call_raises_unrecognized_iff h self program_name argv err err' args h' unknown unparsed ud :
  ReadFlagsFromFiles fs h self argv false err = (err', inr args) →
  _ParseArgs h self args = (h', inr (unknown, unparsed, ud)) →
  (∃ n v s, (__call__ fs h self (program_name :: argv) err).2
            = inl (UnrecognizedFlagError n v s)) ↔
  (∃ n v, (n, v) ∈ unknown ∧ n ∉ ud).
Proof.
  intros Hr Hp. unfold __call__. rewrite Hr, Hp.
  destruct (first_unrecognized self unknown ud) as [e|] eqn:Ef.
  - apply first_unrecognized_Some in Ef as (pre & n & v & post & -> & Hpre & Hn & ->).
    simpl. split; [|eauto]. intros _. exists n, v. split; [|done]. set_solver.
  - split.
    + intros (n & v & s & Hc).
      destruct (_AssertAllValidators h' (MarkAsParsed self)) as [e|] eqn:Ev; [|done].
      simpl in Hc. injection Hc as ->. by apply AssertAllValidators_not_unrecognized in Ev.
    + intros (n & v & Hin & Hn). exfalso. apply Hn.
      by apply (proj1 (first_unrecognized_None self unknown ud) Ef n v).
Qed.

Lemma call_raises_for_a_round h self program_name argv err err' args h' unknown unparsed ud :
  ReadFlagsFromFiles fs h self argv false err = (err', inr args) →
  _ParseArgs h self args = (h', inr (unknown, unparsed, ud)) →
  (∃ n v s, (__call__ fs h self (program_name :: argv) err).2
            = inl (UnrecognizedFlagError n v s)) ↔
  (∃ arg name,
     (arg, ToUnknown name) ∈ rounds self args (mkParseState h [] [] ∅) ∧
     name ∉ undefok_of (rounds self args (mkParseState h [] [] ∅)) ∅).
Proof.
  intros Hr Hp.
  rewrite (call_raises_unrecognized_iff h self program_name argv err err' args h'
             unknown unparsed ud Hr Hp).
  destruct (ParseArgs_rounds h self args) as [_ Hlists].
  rewrite Hp in Hlists. destruct (Hlists unknown unparsed ud eq_refl) as [-> ->].
  split.
  - intros (n & v & Hin & Hn). exists v, n. split; [|done]. by apply elem_of_unknown_of.
  - intros (arg & name & Hin & Hn). exists name, arg. split; [|done].
    by apply elem_of_unknown_of.
Qed.

End calls.
End scanning.

Lemma route_unknown_iff self h arg rest name :
  route self h arg rest = ToUnknown name ↔
  PyStr.startswith arg "-" = true ∧ arg ≠ "--" ∧
  (split_arg arg).1 = name ∧ name ≠ EmptyString ∧ name ≠ "undefok" ∧
  FlagDict self !! name = None ∧
  ¬ (PyStr.startswith name "no" = true ∧
     ∃ target, FlagDict self !! PyStr.slice_from 2 name = Some target ∧
               Flag.boolean (deref h target) = true).
Proof.
  unfold route. destruct (PyStr.startswith arg "-") eqn:Edash; cbn [negb].
  2: { split; [done | intros (? & _); done]. }
  destruct (decide (arg = "--")) as [->|Hnd].
  { split; [done | intros (_ & ? & _); done]. }
  destruct (split_arg arg) as [name' value] eqn:Esplit. cbn [fst].
  destruct (decide (name' = EmptyString)) as [->|Hne].
  { split; [done | intros (_ & _ & <- & ? & _); done]. }
  destruct (decide (name' = "undefok")) as [->|Hund].
  { split; [|intros (_ & _ & <- & _ & ? & _); done].
    destruct value; [done|]. by destruct rest. }
  destruct (FlagDict self !! name') as [flag|] eqn:Efl.
  { split; [|intros (_ & _ & <- & _ & _ & ? & _); congruence].
    destruct (Flag.boolean (deref h flag)), value; simpl; try done.
    all: by destruct rest. }
  destruct (PyStr.startswith name' "no") eqn:Eno.
  2: { split.
       - intros [= <-]. repeat split; try done. intros [? _]. congruence.
       - intros (_ & _ & <- & _). done. }
  destruct (FlagDict self !! PyStr.slice_from 2 name') as [flag|] eqn:Etarget.
  2: { split.
       - intros [= <-]. repeat split; try done. intros [_ (t & ? & _)]. congruence.
       - intros (_ & _ & <- & _). done. }
  destruct (Flag.boolean (deref h flag)) eqn:Eb.
  - split; [done|]. intros (_ & _ & <- & _ & _ & _ & Hn). exfalso. apply Hn. eauto.
  - split.
    + intros [= <-]. repeat split; try done. intros [_ (t & ? & ?)]. congruence.
    + intros (_ & _ & <- & _). done.
Qed.

(** C3, as amended: when the flagfile expansion and the scan complete,
    the call raises [UnrecognizedFlagError] exactly when some token the
    scan recorded as unknown has a name outside the [undefok] set.  The
    tokens recorded are exactly the tokens a round of the scan took for an
    unknown flag, in the order of the rounds, which is the order of the
    arguments: dash tokens whose name is neither registered nor the
    negation of a registered boolean flag.  The [undefok] set is exactly
    what the [undefok] tokens of the rounds add: each comma-separated name
    of the value, stripped, bare and prefixed with [no].  A token
    [--undefok=value], or [--undefok] followed by its value, is consumed
    without touching any flag or either result list; [--undefok] as the
    last token raises [FlagsError]. *)
Theorem undefok_suppresses_unknown_flags `{Collaborators} :
  (∀ fs h self program_name argv err err' args h' unknown unparsed ud,
     ReadFlagsFromFiles fs h self argv false err = (err', inr args) →
     _ParseArgs h self args = (h', inr (unknown, unparsed, ud)) →
     (∃ n v s, (__call__ fs h self (program_name :: argv) err).2
               = inl (UnrecognizedFlagError n v s)) ↔
     (∃ n v, (n, v) ∈ unknown ∧ n ∉ ud)) ∧
  (∀ fs h self program_name argv err err' args h' unknown unparsed ud,
     ReadFlagsFromFiles fs h self argv false err = (err', inr args) →
     _ParseArgs h self args = (h', inr (unknown, unparsed, ud)) →
     (∃ n v s, (__call__ fs h self (program_name :: argv) err).2
               = inl (UnrecognizedFlagError n v s)) ↔
     (∃ arg name,
        (arg, ToUnknown name) ∈ rounds self args (mkParseState h [] [] ∅) ∧
        name ∉ undefok_of (rounds self args (mkParseState h [] [] ∅)) ∅)) ∧
  (∀ h self args h' unknown unparsed ud,
     _ParseArgs h self args = (h', inr (unknown, unparsed, ud)) →
     ∃ rs,
       rs = rounds self args (mkParseState h [] [] ∅) ∧
       rs.*1 `sublist_of` args ∧
       (∀ rs1 arg r rs2, rs = rs1 ++ (arg, r) :: rs2 →
                         ∃ rest, r = route self (written rs1 h) arg rest) ∧
       unknown = unknown_of rs ∧
       ud = undefok_of rs ∅ ∧
       (∀ name arg, (name, arg) ∈ unknown ↔ (arg, ToUnknown name) ∈ rs)) ∧
  (∀ value (ud : gset string) x,
     x ∈ undefok_update value ud ↔
     x ∈ ud ∨ ∃ w, w ∈ PyStr.split "," value ∧
                   (x = PyStr.strip w ∨ x = "no" +:+ PyStr.strip w)) ∧
  (∀ self h arg rest name,
     route self h arg rest = ToUnknown name ↔
     PyStr.startswith arg "-" = true ∧ arg ≠ "--" ∧
     (split_arg arg).1 = name ∧ name ≠ EmptyString ∧ name ≠ "undefok" ∧
     FlagDict self !! name = None ∧
     ¬ (PyStr.startswith name "no" = true ∧
        ∃ target, FlagDict self !! PyStr.slice_from 2 name = Some target ∧
                  Flag.boolean (deref h target) = true)) ∧
  (∀ self arg rest st name,
     route self (ps_heap st) arg rest = ToUnknown name →
     (name, arg) ∈ unknown_flags (_ParseArgs_loop self (arg :: rest) st).1) ∧
  (∀ self h value rest,
     route self h ("--undefok=" +:+ value) rest = ToUndefok value false) ∧
  (∀ self h value rest,
     route self h "--undefok" (value :: rest) = ToUndefok value true) ∧
  (∀ self st,
     _ParseArgs_step self "--undefok" [] st
     = Raise (FlagsError "Missing value for flag --undefok") st) ∧
  (∀ self arg rest st value next_taken,
     route self (ps_heap st) arg rest = ToUndefok value next_taken →
     _ParseArgs_step self arg rest st
     = Continue (mkParseState (ps_heap st) (unknown_flags st) (unparsed_args st)
                   (undefok_update value (undefok st))) next_taken) ∧
  (∀ self arg rest st value next_taken w,
     route self (ps_heap st) arg rest = ToUndefok value next_taken →
     w ∈ PyStr.split "," value →
     PyStr.strip w ∈ undefok (_ParseArgs_loop self (arg :: rest) st).1 ∧
     "no" +:+ PyStr.strip w ∈ undefok (_ParseArgs_loop self (arg :: rest) st).1).
Proof.
  split; [|split; [|split; [|split; [|split; [|split; [|split; [|split; [|split; [|split]]]]]]]]].
  - intros. by eapply call_raises_unrecognized_iff.
  - intros. by eapply call_raises_for_a_round.
  - intros h self args h' unknown unparsed ud Hp.
    destruct (ParseArgs_rounds h self args) as [_ Hlists].
    rewrite Hp in Hlists. destruct (Hlists unknown unparsed ud eq_refl) as [-> ->].
    eexists. split; [reflexivity|]. split; [apply rounds_sublist|]. split.
    { intros rs1 arg r rs2 Hrs.
      destruct (rounds_route_bounded (length args) self args _ rs1 arg r rs2 (le_n _) Hrs)
        as [rest ->]. by exists rest. }
    split; [done|]. split; [done|]. intros name arg. apply elem_of_unknown_of.
  - intros. apply elem_of_undefok_update.
  - intros. apply route_unknown_iff.
  - intros. by apply loop_records_unknown.
  - intros. apply route_undefok_eq.
  - intros. apply route_undefok_next.
  - intros. reflexivity.
  - intros self arg rest st value next_taken Hr. unfold _ParseArgs_step. by rewrite Hr.
  - intros. by eapply loop_records_undefok.
Qed.

(** The two calls of the design document: [--undefined=1] alone raises,
    and passes once [--undefok=undefined] is given. *)
Example undefined_flag_raises :
  (@__call__ Demo.collaborators ∅ Demo.switches Demo.switches_registered
     ["prog"; "--undefined=1"] []).2
  = inl (UnrecognizedFlagError "undefined" "--undefined=1" []).
Proof. vm_compute. reflexivity. Qed.

Example undefok_flag_passes :
  @__call__ Demo.collaborators ∅ Demo.switches Demo.switches_registered
    ["prog"; "--undefined=1"; "--undefok=undefined"] []
  = ((Demo.switches, MarkAsParsed Demo.switches_registered, []), inr ["prog"]).
Proof. vm_compute. reflexivity. Qed.

(** C3 as stated fails with two unknown flags: [--a] names no registered
    flag and [a] is in the [undefok] set, yet the call raises
    [UnrecognizedFlagError], for [b]. *)
Lemma suppressed_name_still_raises :
  route __init__ ∅ "--a" ["--b"] = ToUnknown "a" ∧
  @_ParseArgs Demo.collaborators ∅ __init__ ["--undefok=a"; "--a"; "--b"]
  = (∅, inr ([("a", "--a"); ("b", "--b")], [], undefok_update "a" ∅)) ∧
  "a" ∈ undefok_update "a" ∅ ∧
  @__call__ Demo.collaborators ∅ ∅ __init__ ["prog"; "--undefok=a"; "--a"; "--b"] []
  = ((∅, __init__, []), inl (UnrecognizedFlagError "b" "--b" [])).
Proof.
  split; [vm_compute; reflexivity|].
  split; [vm_compute; reflexivity|].
  split; [|vm_compute; reflexivity].
  apply (bool_decide_unpack _). vm_compute. exact I.
Qed.

(** [bool_flag] of the demo registry. *)
Lemma boolean_flag_tokens_witness :
  route Demo.switches_registered Demo.switches "--bool_flag" [] = ToFlag 1 (PyBool true) false ∧
  route Demo.switches_registered Demo.switches "--nobool_flag" [] = ToFlag 1 (PyBool false) false ∧
  Flag.value (deref (@_ParseArgs Demo.collaborators Demo.switches
                       Demo.switches_registered ["--bool_flag"]).1 1) = PyBool true.
Proof.
  assert (HX : plain_name "bool_flag").
  { repeat split; try discriminate; vm_compute; reflexivity. }
  assert (Hfl : FlagDict Demo.switches_registered !! "bool_flag" = Some 1)
    by (vm_compute; reflexivity).
  assert (Hb : Flag.boolean (deref Demo.switches 1) = true)
    by (vm_compute; reflexivity).
  destruct (@boolean_flag_tokens Demo.collaborators Demo.switches_registered
              Demo.switches "bool_flag" 1 HX Hfl Hb) as (Hyes & Hno & _ & Hscan & _).
  split; [apply Hyes|]. split; [apply Hno; vm_compute; reflexivity|].
  change ["--bool_flag"] with ["--" +:+ "bool_flag"].
  rewrite (Hscan _ eq_refl). vm_compute. reflexivity.
Defined.

(** [--x=5] is consumed before [--bogus] aborts the call: the value stays. *)
Lemma call_aborts_on_first_unknown_witness :
  ∃ h' rs2,
    @__call__ Demo.collaborators Demo.files Demo.switches Demo.switches_registered
      ["prog"; "--x=5"; "--bogus"; "--nobool_flag"] []
    = ((h', Demo.switches_registered, []),
       inl (UnrecognizedFlagError "bogus" "--bogus" [])) ∧
    @rounds Demo.collaborators Demo.switches_registered
      ["--x=5"; "--bogus"; "--nobool_flag"] (mkParseState Demo.switches [] [] ∅)
    = [("--x=5", ToFlag 2 (PyStr "5") false)] ++ ("--bogus", ToUnknown "bogus") :: rs2 ∧
    deref h' 2
    = Flag.set_using_default_value false
        (Flag.mk "x" None false false (PyStr "5") (PyInt 0) true 1 []).
Proof.
  set (run := @__call__ Demo.collaborators Demo.files Demo.switches
                Demo.switches_registered ["prog"; "--x=5"; "--bogus"; "--nobool_flag"] []).
  assert (Hrun : run = ((run.1.1.1, Demo.switches_registered, []),
                        inl (UnrecognizedFlagError "bogus" "--bogus" [])))
    by (vm_compute; reflexivity).
  destruct (@call_aborts_on_first_unknown Demo.collaborators Demo.files Demo.switches
              Demo.switches_registered ["prog"; "--x=5"; "--bogus"; "--nobool_flag"] []
              run.1.1.1 Demo.switches_registered [] "bogus" "--bogus" [] Hrun)
    as (program_name & argv' & args & unknown & unparsed & ud & pre & post &
        Hargv & Hread & _ & _ & _ & _ & _ & rs & rs1 & rs2 & Hrs & _ & _ & _ & _ & _ & Hkept).
  injection Hargv as <- <-.
  vm_compute in Hread. injection Hread as <-.
  assert (Hdecomp : rs = [] ++ ("--x=5", ToFlag 2 (PyStr "5") false)
                         :: [("--bogus", ToUnknown "bogus");
                             ("--nobool_flag", ToFlag 1 (PyBool false) false)]).
  { rewrite Hrs. vm_compute. reflexivity. }
  destruct (Hkept _ _ _ _ _ _ Hdecomp) as (parsed & Hparsed & Hlast).
  vm_compute in Hparsed. injection Hparsed as <-.
  exists run.1.1.1, [("--nobool_flag", ToFlag 1 (PyBool false) false)].
  split; [exact Hrun|]. split; [vm_compute; reflexivity|].
  apply Hlast. repeat (apply Forall_cons; split; [|]); [| |apply Forall_nil_2].
  - intros (value & next_taken & Heq). discriminate Heq.
  - intros (value & next_taken & Heq). discriminate Heq.
Defined.

Example aborted_call_keeps_parsed_values :
  let '((h', self', _), outcome) :=
    @__call__ Demo.collaborators Demo.files Demo.switches Demo.switches_registered
      ["prog"; "--x=5"; "--bogus"; "--nobool_flag"] [] in
  outcome = inl (UnrecognizedFlagError "bogus" "--bogus" []) ∧
  Flag.value (deref Demo.switches 2) = PyInt 0 ∧
  Flag.value (deref h' 2) = PyStr "5" ∧
  Flag.using_default_value (deref h' 2) = false ∧
  Flag.value (deref h' 1) = PyBool false ∧
  Flag.present (deref h' 1) = 1 ∧
  __flags_parsed self' = false.
Proof. vm_compute. repeat split; reflexivity. Qed.


(** ** Expanding flagfiles *)

Section expansion.
Context `{Collaborators}.
Variable fs : gmap string string.

Lemma each_line_plain recurse line_list flag_line_list st :
  Forall (λ line, __IsFlagFileDirective line = false) line_list →
  each_line recurse line_list flag_line_list st =
    Some (mkExpandState (removelast (parsed_file_stack st)) (stderr st) (pushed st),
          inr (flag_line_list ++
               (PyStr.strip <$> filter (λ line, is_flag_line line = true) line_list))).
Proof.
  revert flag_line_list. induction line_list as [|line lines IH]; intros acc Hall.
  - simpl. by rewrite app_nil_r.
  - apply Forall_cons in Hall as [Hline Hall]. simpl. unfold is_flag_line at 1.
    destruct (PyStr.isspace line) eqn:Esp; simpl.
    { rewrite IH by done. rewrite filter_cons_False; [done|].
      unfold is_flag_line. rewrite Esp. simpl. done. }
    destruct (PyStr.startswith line "#" || PyStr.startswith line "//") eqn:Ec; simpl.
    { rewrite IH by done. rewrite filter_cons_False; [done|].
      unfold is_flag_line. rewrite Esp, Ec. simpl. done. }
    rewrite Hline. rewrite IH by done.
    rewrite filter_cons_True.
    2: { unfold is_flag_line. by rewrite Esp, Ec. }
    by rewrite fmap_cons, <- app_assoc.
Qed.

Lemma GetFlagFileLines_fuel_plain fuel filename content st :
  fs !! filename = Some content →
  filename ∉ parsed_file_stack st →
  Forall (λ line, __IsFlagFileDirective line = false) (PyStr.readlines content) →
  __GetFlagFileLines_fuel fs (S fuel) filename st =
    Some (mkExpandState (parsed_file_stack st) (stderr st)
            (pushed st ++ [parsed_file_stack st ++ [filename]]),
          inr (PyStr.strip <$>
               filter (λ line, is_flag_line line = true) (PyStr.readlines content))).
Proof.
  intros Hfs Hstack Hall. simpl.
  rewrite bool_decide_eq_false_2 by done. rewrite Hfs.
  rewrite each_line_plain by done. simpl. by rewrite removelast_last.
Qed.

(** C5: for a flagfile none of whose lines is a flagfile directive, the
    expansion returns the lines that are not blank and do not start with
    [#] or [//], each stripped, in their order in the file. *)
Theorem flagfile_lines_filtered filename content st :
  fs !! filename = Some content →
  filename ∉ parsed_file_stack st →
  Forall (λ line, __IsFlagFileDirective line = false) (PyStr.readlines content) →
  __GetFlagFileLines fs filename st =
    (mkExpandState (parsed_file_stack st) (stderr st)
       (pushed st ++ [parsed_file_stack st ++ [filename]]),
     inr (PyStr.strip <$>
          filter (λ line, is_flag_line line = true) (PyStr.readlines content))).
Proof.
  intros Hfs Hstack Hall. unfold __GetFlagFileLines.
  by rewrite (GetFlagFileLines_fuel_plain _ _ content).
Qed.

(** Termination of the expansion. *)

Lemma unopened_push stack filename :
  filename ∉ stack → is_Some (fs !! filename) →
  unopened fs (stack ++ [filename]) < unopened fs stack.
Proof.
  intros Hni Hin. unfold unopened. apply subset_size.
  apply elem_of_dom in Hin. rewrite list_to_set_app_L.
  assert (Hns : filename ∉ (list_to_set stack : gset string)).
  { by rewrite elem_of_list_to_set. }
  split.
  - intros x. rewrite !elem_of_difference, elem_of_union. intros [Hx Hn].
    split; [done|]. intros Hs. apply Hn. by left.
  - intros Hsub. specialize (Hsub filename).
    rewrite !elem_of_difference, elem_of_union in Hsub.
    destruct Hsub as [_ Hsub]; [done|]. apply Hsub. right.
    apply elem_of_list_to_set, list_elem_of_singleton. done.
Qed.

Lemma unopened_bound stack : unopened fs stack ≤ size fs.
Proof.
  unfold unopened. rewrite <- (size_dom (D := gset string) fs).
  apply subseteq_size. intros x [Hx _]%elem_of_difference. exact Hx.
Qed.

(** When every recursive call made with the stack [stack0] returns, and
    hands the stack back as it got it unless it raises, so does the loop
    over the lines, which pops the stack at its end. *)
Lemma each_line_returns recurse stack0 :
  (∀ f st, parsed_file_stack st = stack0 →
     ∃ st' r, recurse f st = Some (st', r) ∧
              (∀ lines, r = inr lines → parsed_file_stack st' = stack0)) →
  ∀ line_list flag_line_list st, parsed_file_stack st = stack0 →
    ∃ st' r, each_line recurse line_list flag_line_list st = Some (st', r) ∧
             (∀ lines, r = inr lines → parsed_file_stack st' = removelast stack0).
Proof.
  intros Hrec line_list. induction line_list as [|line lines IH]; intros acc st Hst; simpl.
  - do 2 eexists. split; [reflexivity|]. intros _ _. simpl. by rewrite Hst.
  - destruct (PyStr.isspace line); [by apply IH|].
    destruct (_ || _); [by apply IH|].
    destruct (__IsFlagFileDirective line); [|by apply IH].
    destruct (ExtractFilename line) as [e|sub].
    { do 2 eexists. split; [reflexivity|]. done. }
    destruct (Hrec sub st Hst) as (st1 & r & -> & Hstack).
    destruct r as [e|included].
    + do 2 eexists. split; [reflexivity|]. done.
    + apply IH. by eapply Hstack.
Qed.

Lemma GetFlagFileLines_fuel_returns fuel : ∀ filename st,
  unopened fs (parsed_file_stack st) < fuel →
  ∃ st' r, __GetFlagFileLines_fuel fs fuel filename st = Some (st', r) ∧
           (∀ lines, r = inr lines → parsed_file_stack st' = parsed_file_stack st).
Proof.
  induction fuel as [|fuel IH]; intros filename st Hfuel; [lia|]. simpl.
  case_bool_decide as Hon.
  { do 2 eexists. split; [reflexivity|]. done. }
  destruct (fs !! filename) as [content|] eqn:Hfs.
  2: { do 2 eexists. split; [reflexivity|]. done. }
  set (st1 := mkExpandState _ _ _).
  destruct (each_line_returns (__GetFlagFileLines_fuel fs fuel)
              (parsed_file_stack st ++ [filename])) with
    (line_list := PyStr.readlines content) (flag_line_list := @nil string) (st := st1)
    as (st' & r & Hr & Hstack).
  - intros f st2 Hst2. rewrite <- Hst2. apply IH. rewrite Hst2.
    pose proof (unopened_push (parsed_file_stack st) filename Hon) as Hlt.
    rewrite Hfs in Hlt. specialize (Hlt (mk_is_Some _ _ eq_refl)). lia.
  - done.
  - exists st', r. split; [done|]. intros lines Hl.
    rewrite (Hstack lines Hl). apply removelast_last.
Qed.

(** More fuel does not change a result. *)
Lemma each_line_mono (rec1 rec2 : string → ExpandState → option (ExpandState * (Exc + list string))) :
  (∀ f st r, rec1 f st = Some r → rec2 f st = Some r) →
  ∀ line_list flag_line_list st r,
    each_line rec1 line_list flag_line_list st = Some r →
    each_line rec2 line_list flag_line_list st = Some r.
Proof.
  intros Hrec line_list. induction line_list as [|line lines IH]; intros acc st r; simpl.
  - done.
  - destruct (PyStr.isspace line); [apply IH|].
    destruct (_ || _); [apply IH|].
    destruct (__IsFlagFileDirective line); [|apply IH].
    destruct (ExtractFilename line) as [e|sub]; [done|].
    destruct (rec1 sub st) as [[st1 r1]|] eqn:E1; [|done].
    rewrite (Hrec _ _ _ E1). destruct r1; [done | apply IH].
Qed.

Lemma GetFlagFileLines_fuel_mono fuel : ∀ fuel' filename st r,
  fuel ≤ fuel' →
  __GetFlagFileLines_fuel fs fuel filename st = Some r →
  __GetFlagFileLines_fuel fs fuel' filename st = Some r.
Proof.
  induction fuel as [|fuel IH]; intros fuel' filename st r Hle; [done|].
  destruct fuel' as [|fuel']; [lia|]. simpl.
  case_bool_decide; [done|].
  destruct (fs !! filename); [|done].
  apply each_line_mono. intros f st2 r2. apply IH. lia.
Qed.

Lemma __GetFlagFileLines_enough_fuel filename st fuel :
  size fs < fuel →
  __GetFlagFileLines_fuel fs fuel filename st = Some (__GetFlagFileLines fs filename st).
Proof.
  intros Hfuel. unfold __GetFlagFileLines.
  destruct (GetFlagFileLines_fuel_returns (S (size fs)) filename st) as (st' & r & Hr & _).
  { pose proof (unopened_bound (parsed_file_stack st)). lia. }
  rewrite Hr. apply (GetFlagFileLines_fuel_mono (S (size fs))); [lia | done].
Qed.

(** The stack invariant. *)
Lemma each_line_stack_ok recurse :
  (∀ f st st' r, stack_ok st → recurse f st = Some (st', r) → stack_ok st') →
  ∀ line_list flag_line_list st st' r,
    stack_ok st →
    each_line recurse line_list flag_line_list st = Some (st', r) → stack_ok st'.
Proof.
  intros Hrec line_list. induction line_list as [|line lines IH]; intros acc st st' r Hok; simpl.
  - intros [= <- _]. destruct Hok as [Hnd Hp]. split; simpl; [|done].
    destruct (parsed_file_stack st) as [|x l] using rev_ind; [done|].
    rewrite removelast_last. by apply NoDup_app in Hnd as [? _].
  - destruct (PyStr.isspace line); [by apply IH|].
    destruct (_ || _); [by apply IH|].
    destruct (__IsFlagFileDirective line); [|by apply IH].
    destruct (ExtractFilename line) as [e|sub]; [by intros [= <- _]|].
    destruct (recurse sub st) as [[st1 r1]|] eqn:E1; [|done].
    pose proof (Hrec _ _ _ _ Hok E1) as Hok1.
    destruct r1; [by intros [= <- _] | by apply IH].
Qed.

Lemma GetFlagFileLines_fuel_stack_ok fuel : ∀ filename st st' r,
  stack_ok st →
  __GetFlagFileLines_fuel fs fuel filename st = Some (st', r) → stack_ok st'.
Proof.
  induction fuel as [|fuel IH]; intros filename st st' r Hok; [done|]. simpl.
  case_bool_decide as Hon; [by intros [= <- _]|].
  assert (Hok1 : stack_ok (mkExpandState (parsed_file_stack st ++ [filename]) (stderr st)
                   (pushed st ++ [parsed_file_stack st ++ [filename]]))).
  { destruct Hok as [Hnd Hp].
    assert (NoDup (parsed_file_stack st ++ [filename])).
    { apply NoDup_app. split; [done|]. split; [|apply NoDup_singleton].
      intros x Hx ->%list_elem_of_singleton. done. }
    split; simpl; [done|]. apply Forall_app. split; [done|]. by apply Forall_singleton. }
  destruct (fs !! filename); [|by intros [= <- _]].
  apply each_line_stack_ok; [|done]. exact IH.
Qed.

End expansion.

(** The file of the design document: [--a=1], a comment, a blank line,
    [--b=2]. *)
Lemma flagfile_lines_filtered_witness :
  @__GetFlagFileLines Demo.collaborators Demo.files "flags" (mkExpandState [] [] [])
  = (mkExpandState [] [] [["flags"]], inr ["--a=1"; "--b=2"]).
Proof.
  rewrite (@flagfile_lines_filtered Demo.collaborators Demo.files "flags"
             Demo.flags_text (mkExpandState [] [] [])).
  - vm_compute. reflexivity.
  - vm_compute. reflexivity.
  - apply not_elem_of_nil.
  - apply (bool_decide_unpack _). vm_compute. exact I.
Defined.

(** C6: for every finite set of files, whatever they include, the
    expansion returns: any bound on the depth of the recursion above the
    number of files gives the method's result.  A file already on the stack
    contributes no line, after a warning on the error stream, and leaves
    the stack as it is; a call that returns hands the stack back as it
    received it; and no stack the recursion ever builds holds a file
    twice. *)
Theorem flagfile_expansion_terminates `{Collaborators}
    (fs : gmap string string) filename st :
  (∀ fuel, size fs < fuel →
     __GetFlagFileLines_fuel fs fuel filename st
     = Some (__GetFlagFileLines fs filename st)) ∧
  (filename ∈ parsed_file_stack st →
     __GetFlagFileLines fs filename st
     = (mkExpandState (parsed_file_stack st)
          (stderr st ++
             ["Warning: Hit circular flagfile dependency. Ignoring flagfile: "
                +:+ filename +:+ PyStr.NL])
          (pushed st),
        inr [])) ∧
  (∀ lines, (__GetFlagFileLines fs filename st).2 = inr lines →
     parsed_file_stack (__GetFlagFileLines fs filename st).1 = parsed_file_stack st) ∧
  (stack_ok st → stack_ok (__GetFlagFileLines fs filename st).1).
Proof.
  pose proof (__GetFlagFileLines_enough_fuel fs filename st (S (size fs))
                ltac:(lia)) as Hrun.
  split; [|split; [|split]].
  - intros fuel Hfuel. by apply __GetFlagFileLines_enough_fuel.
  - intros Hon. simpl in Hrun. rewrite bool_decide_eq_true_2 in Hrun by done.
    by injection Hrun as <-.
  - intros lines Hlines.
    destruct (GetFlagFileLines_fuel_returns fs (S (size fs)) filename st)
      as (st' & r & Hr & Hstack).
    { pose proof (unopened_bound fs (parsed_file_stack st)). lia. }
    rewrite Hr in Hrun. injection Hrun as Hrun. rewrite <- Hrun in *.
    by eapply Hstack.
  - intros Hok. destruct (__GetFlagFileLines fs filename st) as [st' r].
    by eapply GetFlagFileLines_fuel_stack_ok.
Qed.

(** [ping] includes [pong], which includes [ping]: the inner inclusion is
    dropped with a warning, and a file that includes itself likewise. *)
Example mutual_inclusion_expands :
  @__GetFlagFileLines Demo.collaborators Demo.files "ping" (mkExpandState [] [] [])
  = (mkExpandState []
       ["Warning: Hit circular flagfile dependency. Ignoring flagfile: ping"
          +:+ PyStr.NL]
       [["ping"]; ["ping"; "pong"]],
     inr ["--b=2"; "--a=1"]).
Proof. vm_compute. reflexivity. Qed.

Example self_inclusion_expands :
  (@__GetFlagFileLines Demo.collaborators
     {[ "self" := "--flagfile=self" +:+ PyStr.NL +:+ "--a=1" +:+ PyStr.NL ]}
     "self" (mkExpandState [] [] [])).2
  = inr ["--a=1"].
Proof. vm_compute. reflexivity. Qed.


(** ** Prefixes of the sorted names *)

Import Prefixes.

Lemma lcp_comm s t : lcp s t = lcp t s.
Proof.
  revert t. induction s as [|a s IH]; intros [|b t]; simpl; try done.
  destruct (decide (a = b)) as [->|Hne].
  - rewrite decide_True by done. by rewrite IH.
  - by rewrite decide_False by done.
Qed.

Lemma lcp_le_l s t : lcp s t ≤ PyStr.len s.
Proof.
  revert t. induction s as [|a s IH]; intros [|b t]; simpl; try lia.
  destruct (decide (a = b)); [|lia]. specialize (IH t). lia.
Qed.

Lemma prefix_empty s : String.prefix EmptyString s = true.
Proof. by destruct s. Qed.

Lemma is_prefix_lcp p s : is_prefix p s ↔ lcp p s = PyStr.len p.
Proof.
  unfold is_prefix. revert s. induction p as [|a p IH]; intros s.
  - rewrite prefix_empty. by destruct s.
  - destruct s as [|b s]; simpl; [done|].
    destruct (ascii_dec a b) as [->|Hne].
    + rewrite decide_True by done. rewrite IH. split; [by intros -> | by intros [= ->]].
    + by rewrite decide_False by done.
Qed.

Lemma len_slice_to k s : PyStr.len (PyStr.slice_to k s) = min k (PyStr.len s).
Proof.
  revert s. induction k as [|k IH]; intros [|a s]; simpl; try done.
  by rewrite IH.
Qed.

Lemma slice_to_all k s : PyStr.len s ≤ k → PyStr.slice_to k s = s.
Proof.
  revert s. induction k as [|k IH]; intros [|a s] Hlen; simpl in *; try done; try lia.
  rewrite IH; [done | lia].
Qed.

Lemma lcp_slice_to k s t : lcp (PyStr.slice_to k s) t = min k (lcp s t).
Proof.
  revert s t. induction k as [|k IH]; intros [|a s] [|b t]; simpl; try done.
  destruct (decide (a = b)); [|done]. by rewrite IH.
Qed.

Lemma is_prefix_slice_to k s : is_prefix (PyStr.slice_to k s) s.
Proof.
  apply is_prefix_lcp. rewrite lcp_slice_to, len_slice_to.
  assert (lcp s s = PyStr.len s) as ->; [|done].
  induction s as [|a s IH]; simpl; [done|]. rewrite decide_True by done. by rewrite IH.
Qed.

Lemma is_prefix_slice p s : is_prefix p s → p = PyStr.slice_to (PyStr.len p) s.
Proof.
  unfold is_prefix. revert s. induction p as [|a p IH]; intros s Hp.
  - by destruct s.
  - destruct s as [|b s]; simpl in *; [done|].
    destruct (ascii_dec a b) as [->|]; [|done]. f_equal. by apply IH.
Qed.

Lemma is_prefix_len p s : is_prefix p s → PyStr.len p ≤ PyStr.len s.
Proof.
  intros Hp%is_prefix_lcp. rewrite <- Hp, lcp_comm. apply lcp_le_l.
Qed.

(** Among the non-empty left-substrings of [curr], those that tell it from
    a neighbour are the long enough ones and [curr] itself. *)
Lemma distinguishes_iff q curr other :
  is_prefix q curr → q ≠ EmptyString →
  distinguishes q curr other ↔
  PyStr.len q = PyStr.len curr ∨ common curr other < PyStr.len q.
Proof.
  intros Hq Hne. destruct other as [n|]; simpl.
  2: { split; [|done]. intros _. right. destruct q; [done | simpl; lia]. }
  pose proof (is_prefix_len _ _ Hq) as Hlen.
  pose proof (is_prefix_slice _ _ Hq) as Hslice.
  split.
  - intros [->|Hn]; [by left|]. right.
    rewrite is_prefix_lcp in Hn. rewrite Hslice in Hn.
    rewrite lcp_slice_to, len_slice_to in Hn. lia.
  - intros [Heq|Hlt].
    + left. rewrite Hslice. apply slice_to_all. lia.
    + right. rewrite is_prefix_lcp, Hslice, lcp_slice_to, len_slice_to. lia.
Qed.

Lemma shortest_by_length p curr prev next :
  curr ≠ EmptyString →
  is_prefix p curr →
  PyStr.len p = min (PyStr.len curr) (max (common curr prev) (common curr next) + 1) →
  shortest_distinguishing p curr prev next.
Proof.
  intros Hcurr Hp Hlen.
  assert (Hpne : p ≠ EmptyString).
  { intros ->. destruct curr; [done|]. cbn [String.length] in Hlen. lia. }
  split; [done|]. split; [done|].
  split; [|split].
  - apply distinguishes_iff; [done..|]. lia.
  - apply distinguishes_iff; [done..|]. lia.
  - intros q Hqne Hq Hd1 Hd2.
    apply distinguishes_iff in Hd1; [|done..].
    apply distinguishes_iff in Hd2; [|done..].
    pose proof (is_prefix_len _ _ Hq). lia.
Qed.

(** The inner loop stops at the first index where [curr] and its successor
    part, and runs to its end when [curr] is a left-substring of it. *)
Lemma differs_at_S a s b t i :
  differs_at (String a s) (Some (String b t)) (S i) = differs_at s (Some t) i.
Proof. reflexivity. Qed.

Lemma first_difference_S a s b t idxs :
  first_difference (String a s) (Some (String b t)) (S <$> idxs)
  = S <$> first_difference s (Some t) idxs.
Proof.
  induction idxs as [|i idxs IH]; [done|].
  rewrite fmap_cons. cbn [first_difference]. rewrite differs_at_S.
  destruct (differs_at s (Some t) i); [done|]. exact IH.
Qed.

Lemma first_difference_spec curr next_flag :
  first_difference curr next_flag (seq 0 (PyStr.len curr)) =
  if decide (common curr next_flag < PyStr.len curr)
  then Some (common curr next_flag) else None.
Proof.
  revert next_flag. induction curr as [|a s IH]; intros next_flag.
  - cbn [String.length seq first_difference]. case_decide; [lia | done].
  - cbn [String.length seq first_difference].
    destruct next_flag as [[|b t]|].
    + cbn. case_decide; [done | lia].
    + destruct (decide (a = b)) as [->|Hne].
      * assert (Hd : differs_at (String b s) (Some (String b t)) 0 = false).
        { unfold differs_at. simpl. by rewrite bool_decide_eq_true_2. }
        rewrite Hd. rewrite <- fmap_S_seq, first_difference_S, IH.
        assert (Hc : common (String b s) (Some (String b t)) = S (common s (Some t))).
        { simpl. by rewrite decide_True. }
        rewrite Hc. repeat case_decide; try done; lia.
      * assert (Hd : differs_at (String a s) (Some (String b t)) 0 = true).
        { unfold differs_at. simpl. rewrite bool_decide_eq_false_2; [done|]. congruence. }
        rewrite Hd.
        assert (Hc : common (String a s) (Some (String b t)) = 0).
        { simpl. by rewrite decide_False. }
        rewrite Hc. case_decide; [done | lia].
    + cbn. case_decide; [done | lia].
Qed.

Lemma is_prefix_refl s : is_prefix s s.
Proof.
  pose proof (is_prefix_slice_to (PyStr.len s) s) as Hp.
  by rewrite slice_to_all in Hp.
Qed.

Lemma distinguishes_self q x :
  is_prefix q x → distinguishes q x (Some x) → q = x.
Proof. intros Hq [->|Hn]; done. Qed.

Lemma repeats_adjacent_tail x rest :
  repeats_adjacent (x :: rest) → repeats_adjacent rest.
Proof. intros Hadj l1 curr l2 ->. by apply (Hadj (x :: l1)). Qed.

(** The outer loop returns, with an entry for every name of the list and no
    other change to the dictionary; the entry of a name is the shortest
    telling left-substring with respect to the neighbours of any of its
    occurrences, provided [prev_idx] is what the first name shares with
    the name before the list. *)
Lemma loop_assigns L : ∀ sm prev_idx curr_idx prev,
  Forall (λ s, s ≠ EmptyString) L →
  repeats_adjacent L →
  (∀ x, head L = Some x → prev_idx = common x prev) →
  ∃ sm',
    ShortestUniquePrefixes_loop L sm prev_idx curr_idx = inr sm' ∧
    (∀ name, name ∉ L → sm' !! name = sm !! name) ∧
    (∀ l1 curr l2, L = l1 ++ curr :: l2 →
       ∃ p, sm' !! curr = Some p ∧
            shortest_distinguishing p curr (neighbour_before prev l1) (head l2)).
Proof.
  induction L as [|x rest IH]; intros sm prev_idx curr_idx prev Hne Hadj Hprev.
  { exists sm. split; [done|]. split; [done|].
    intros l1 curr l2 Hl. by destruct l1. }
  apply Forall_cons in Hne as [Hx Hne].
  specialize (Hprev x eq_refl).
  cbn [ShortestUniquePrefixes_loop]. rewrite first_difference_spec.
  set (b := common x (head rest)).
  assert (Hnext : ∀ y, head rest = Some y → b = lcp x y).
  { intros y Hy. subst b. by rewrite Hy. }
  assert (Hfinish : ∀ p prev_idx' curr_idx',
    shortest_distinguishing p x prev (head rest) →
    (∀ y, head rest = Some y → prev_idx' = common y (Some x)) →
    ∃ sm',
      ShortestUniquePrefixes_loop rest (<[x := p]> sm) prev_idx' curr_idx' = inr sm' ∧
      (∀ name, name ∉ x :: rest → sm' !! name = sm !! name) ∧
      (∀ l1 curr l2, x :: rest = l1 ++ curr :: l2 →
         ∃ q, sm' !! curr = Some q ∧
              shortest_distinguishing q curr (neighbour_before prev l1) (head l2))).
  { intros p prev_idx' curr_idx' Hp Hcarry.
    destruct (IH (<[x := p]> sm) prev_idx' curr_idx' (Some x) Hne
                (repeats_adjacent_tail _ _ Hadj) Hcarry)
      as (sm' & -> & Hother & Hocc).
    exists sm'. split; [done|]. split.
    - intros name [Hnx Hnr]%not_elem_of_cons.
      rewrite Hother by done. by rewrite lookup_insert_ne.
    - intros l1 curr l2 Hl. destruct l1 as [|x' l1].
      + injection Hl as <- <-. destruct (decide (x ∈ rest)) as [Hin|Hni].
        * (* [x] comes again: it is its own successor *)
          pose proof (Hadj [] x rest eq_refl Hin) as Hhead.
          destruct rest as [|y rest']; [done|]. injection Hhead as ->.
          destruct (Hocc [] x rest' eq_refl) as (q & Hq & Hsd).
          assert (q = x) as ->.
          { destruct Hsd as (_ & Hpre & Hd & _). by apply distinguishes_self. }
          assert (p = x) as ->.
          { destruct Hp as (_ & Hpre & _ & Hd & _). by apply distinguishes_self. }
          exists x. done.
        * exists p. split; [|done].
          rewrite Hother by done. apply lookup_insert_eq.
      + injection Hl as <- ->.
        destruct (Hocc l1 curr l2 eq_refl) as (q & Hq & Hsd).
        exists q. split; [done|].
        assert (neighbour_before prev (x :: l1) = neighbour_before (Some x) l1) as ->; [|done].
        unfold neighbour_before. destruct l1 as [|z l1]; [done|].
        rewrite last_cons_cons. destruct (last (z :: l1)) eqn:El; [done|].
        by apply last_None in El. }
  case_decide as Hb.
  - apply Hfinish.
    + apply shortest_by_length; [done | apply is_prefix_slice_to |].
      rewrite len_slice_to. fold b. lia.
    + intros y Hy. simpl. rewrite lcp_comm. by apply Hnext.
  - destruct (PyStr.len x) as [|last] eqn:Hlen.
    { destruct x; [done | simpl in Hlen; lia]. }
    apply Hfinish.
    + apply shortest_by_length; [done | apply is_prefix_refl |]. fold b. lia.
    + intros y Hy. simpl. rewrite lcp_comm.
      pose proof (lcp_le_l x y). rewrite <- (Hnext y Hy) in *. lia.
Qed.

(** The sorted list of names. *)
Lemma sorted_flags_sorted h fl : StronglySorted String.le (sorted_flags h fl).
Proof. apply StronglySorted_merge_sort; apply _. Qed.

Lemma elem_of_sorted_flags h (fl : gmap string addr) name :
  name ∈ sorted_flags h fl ↔
  is_Some (fl !! name) ∨
  ∃ n flag, fl !! n = Some flag ∧ Flag.boolean (deref h flag) = true ∧
            name = "no" +:+ n.
Proof.
  unfold sorted_flags. rewrite merge_sort_Permutation.
  rewrite list_elem_of_In, List.in_flat_map. split.
  - intros ([n flag] & Hin%list_elem_of_In%elem_of_map_to_list & Hname).
    destruct (Flag.boolean (deref h flag)) eqn:Eb.
    + destruct Hname as [<-|[<-|[]]]; [left; eauto | right; eauto].
    + destruct Hname as [<-|[]]. left; eauto.
  - intros [[flag Hfl]|(n & flag & Hfl & Hb & ->)].
    + exists (name, flag). split; [by apply list_elem_of_In, elem_of_map_to_list|].
      destruct (Flag.boolean (deref h flag)); by left.
    + exists (n, flag). split; [by apply list_elem_of_In, elem_of_map_to_list|].
      rewrite Hb. right. by left.
Qed.

Lemma sorted_flags_nonempty h (fl : gmap string addr) :
  fl !! EmptyString = None →
  Forall (λ s, s ≠ EmptyString) (sorted_flags h fl).
Proof.
  intros Hfl. apply Forall_forall. intros name Hin ->.
  apply elem_of_sorted_flags in Hin as [[flag Hs]|(n & flag & _ & _ & Hs)].
  - congruence.
  - discriminate Hs.
Qed.

Lemma sorted_repeats_adjacent L :
  StronglySorted String.le L → repeats_adjacent L.
Proof.
  intros Hs l1 curr l2 -> Hin.
  apply (StronglySorted_app_1_r _ l1 (curr :: l2)) in Hs.
  destruct l2 as [|y l2]; [by apply elem_of_nil in Hin|]. simpl. f_equal.
  apply StronglySorted_inv in Hs as [Hs Hall].
  apply Forall_cons in Hall as [Hle _].
  apply elem_of_cons in Hin as [->|Hin]; [done|].
  apply StronglySorted_inv in Hs as [_ Hall].
  rewrite Forall_forall in Hall. specialize (Hall curr Hin).
  by apply (anti_symm String.le).
Qed.

(** C7: when no name is empty, [ShortestUniquePrefixes] returns a
    dictionary with an entry for exactly the names of the sorted,
    boolean-doubled list, and at every position of that list the entry of
    the name there is its shortest non-empty left-substring that tells it
    from the name before and the name after it, where a left-substring
    tells a name from a neighbour when it is not a left-substring of the
    neighbour too, or is the whole name. *)
Theorem shortest_unique_prefixes h (fl : gmap string addr) :
  fl !! EmptyString = None →
  ∃ shortest_matches,
    ShortestUniquePrefixes h fl = inr shortest_matches ∧
    StronglySorted String.le (sorted_flags h fl) ∧
    (∀ name, name ∈ sorted_flags h fl ↔
       is_Some (fl !! name) ∨
       ∃ n flag, fl !! n = Some flag ∧ Flag.boolean (deref h flag) = true ∧
                 name = "no" +:+ n) ∧
    (∀ name, name ∉ sorted_flags h fl → shortest_matches !! name = None) ∧
    (∀ l1 curr l2, sorted_flags h fl = l1 ++ curr :: l2 →
       ∃ p, shortest_matches !! curr = Some p ∧
            shortest_distinguishing p curr (last l1) (head l2)).
Proof.
  intros Hfl. unfold ShortestUniquePrefixes.
  destruct (loop_assigns (sorted_flags h fl) ∅ 0 None None) as (sm & Hrun & Hother & Hocc).
  - by apply sorted_flags_nonempty.
  - apply sorted_repeats_adjacent, sorted_flags_sorted.
  - done.
  - exists sm. split; [done|]. split; [apply sorted_flags_sorted|].
    split; [apply elem_of_sorted_flags|]. split.
    + intros name Hn. by rewrite Hother.
    + intros l1 curr l2 Hl. destruct (Hocc l1 curr l2 Hl) as (p & Hp & Hsd).
      exists p. split; [done|].
      assert (neighbour_before None l1 = last l1) as <-; [|done].
      unfold neighbour_before. by destruct (last l1).
Qed.

(** The names [alpha], [alphabet] and [beta]: [alpha] keeps all its five
    characters, [beta] gets [b]. *)
Lemma shortest_unique_prefixes_witness :
  ∃ shortest_matches,
    ShortestUniquePrefixes Demo.greek Demo.greek_names = inr shortest_matches ∧
    sorted_flags Demo.greek Demo.greek_names = ["alpha"; "alphabet"; "beta"] ∧
    shortest_matches !! "alpha" = Some "alpha" ∧
    shortest_matches !! "alphabet" = Some "alphab" ∧
    shortest_matches !! "beta" = Some "b" ∧
    shortest_distinguishing "alpha" "alpha" None (Some "alphabet") ∧
    shortest_distinguishing "b" "beta" (Some "alphabet") None.
Proof.
  destruct (shortest_unique_prefixes Demo.greek Demo.greek_names)
    as (sm & Hrun & _ & _ & _ & Hocc).
  { vm_compute. reflexivity. }
  assert (Hsorted : sorted_flags Demo.greek Demo.greek_names
                    = ["alpha"; "alphabet"; "beta"]) by (vm_compute; reflexivity).
  assert (Ha : sm !! "alpha" = Some "alpha").
  { vm_compute in Hrun. injection Hrun as <-. vm_compute. reflexivity. }
  assert (Hab : sm !! "alphabet" = Some "alphab").
  { vm_compute in Hrun. injection Hrun as <-. vm_compute. reflexivity. }
  assert (Hb : sm !! "beta" = Some "b").
  { vm_compute in Hrun. injection Hrun as <-. vm_compute. reflexivity. }
  exists sm. split; [done|]. split; [done|]. split; [done|]. split; [done|].
  split; [done|]. split.
  - destruct (Hocc [] "alpha" ["alphabet"; "beta"] Hsorted) as (p & Hp & Hsd).
    rewrite Ha in Hp. injection Hp as <-. exact Hsd.
  - destruct (Hocc ["alpha"; "alphabet"] "beta" [] Hsorted) as (p & Hp & Hsd).
    rewrite Hb in Hp. injection Hp as <-. exact Hsd.
Defined.

(** A name that is also the negation of a boolean flag occurs twice in the
    list and keeps all its characters; an empty name makes the method fail
    on its unassigned loop variable. *)
Example negated_name_clash :
  let h : gmap addr Flag.t :=
    <[1 := Demo.fresh "x" None true false (PyBool false)]>
    (<[2 := Demo.fresh "nox" None false false PyNone]> ∅) in
  let fl : gmap string addr := <["x" := 1]> (<["nox" := 2]> ∅) in
  sorted_flags h fl = ["nox"; "nox"; "x"] ∧
  ShortestUniquePrefixes h fl = inr (<["x" := "x"]> (<["nox" := "nox"]> ∅)).
Proof. vm_compute. split; reflexivity. Qed.

Example empty_name_fails :
  ShortestUniquePrefixes (<[1 := Demo.fresh EmptyString None false false PyNone]> ∅)
    (<[EmptyString := 1]> ∅)
  = inl (UnboundLocalError "curr_idx").
Proof. vm_compute. reflexivity. Qed.

(** * Further properties *)

(** ** Registering, looking up and deleting a name *)

Lemma collides_free h (fl : gmap string addr) key flag :
  fl !! key = None → collides h fl key flag = false.
Proof. intros Hfree. unfold collides. by rewrite Hfree. Qed.

Lemma delattr_flags h self flag_name flag_obj :
  FlagDict self !! flag_name = Some flag_obj →
  ∃ self', __delattr__ h self flag_name = (self', inr tt) ∧
           FlagDict self' = delete flag_name (FlagDict self).
Proof.
  intros Hin. unfold __delattr__. rewrite Hin.
  destruct (negb _); eexists; split; reflexivity.
Qed.

(** [__setitem__] raises before it writes. *)
Lemma setitem_raises h self name flag caller self' e :
  __setitem__ h self name flag caller = (self', inl e) →
  self' = self ∧
  ((name = EmptyString ∧ e = FlagsError "Flag name cannot be empty") ∨
   (name ≠ EmptyString ∧ ∃ key, e = DuplicateFlagError key)).
Proof.
  unfold __setitem__. destruct (decide (name = EmptyString)) as [->|Hne].
  - intros [= <- <-]. split; [done|]. by left.
  - destruct (collides h (FlagDict self) name flag).
    + destruct caller as [module module_name]. destruct (_ && _); [done|].
      intros [= <- <-]. split; [done|]. right. eauto.
    + destruct (Flag.short_name (deref h flag)) as [s|].
      * destruct (collides h (FlagDict self) s flag).
        -- intros [= <- <-]. split; [done|]. right. eauto.
        -- by destruct (takes_name _ _ _ _).
      * by destruct (takes_name _ _ _ _).
Qed.

(** A registration under a free name, with a free short name. *)
Lemma setitem_fresh h self name flag caller :
  name ≠ EmptyString →
  FlagDict self !! name = None →
  (∀ s, Flag.short_name (deref h flag) = Some s → FlagDict self !! s = None) →
  ∃ self', __setitem__ h self name flag caller = (self', inr tt) ∧
           ∀ key, FlagDict self' !! key =
                  if bool_decide (key = name ∨ Flag.short_name (deref h flag) = Some key)
                  then Some flag else FlagDict self !! key.
Proof.
  intros Hne Hname Hshort.
  rewrite (setitem_passes h self name flag caller Hne).
  2: { by apply collides_free. }
  2: { intros s Hs. apply collides_free. by apply Hshort. }
  cbv zeta. eexists. split; [reflexivity|]. intros key.
  unfold FlagDict at 1. cbn [__flags set_flags].
  destruct (Flag.short_name (deref h flag)) as [s|] eqn:Hs.
  - assert (Htakes : takes_name h (<[s := flag]> (FlagDict self)) name flag = true).
    { apply takes_name_iff. destruct (decide (name = s)) as [->|Hns].
      - destruct (Flag.using_default_value (deref h flag)) eqn:Hu.
        + right. left. exists flag. by rewrite lookup_insert_eq.
        + by right; right.
      - left. by rewrite lookup_insert_ne. }
    rewrite Htakes.
    destruct (decide (key = name)) as [->|Hkn].
    + rewrite lookup_insert_eq. rewrite bool_decide_eq_true_2; [done | by left].
    + rewrite lookup_insert_ne by done.
      destruct (decide (key = s)) as [->|Hks].
      * rewrite lookup_insert_eq. rewrite bool_decide_eq_true_2; [done | by right].
      * rewrite lookup_insert_ne by done. rewrite bool_decide_eq_false_2; [done|].
        intros [?|[= ?]]; done.
  - unfold takes_name. rewrite Hname.
    destruct (decide (key = name)) as [->|Hkn].
    + rewrite lookup_insert_eq. rewrite bool_decide_eq_true_2; [done | by left].
    + rewrite lookup_insert_ne by done. rewrite bool_decide_eq_false_2; [done|].
      intros [?|?]; done.
Qed.

(** X1: registering a flag under a free, non-empty name, when its short
    name collides with nothing, succeeds; the name then looks up the flag
    and is contained in the registry; deleting the name succeeds, after
    which the lookup raises [KeyError] and the name is no longer
    contained. *)
Theorem register_lookup_delete h self name flag caller :
  name ≠ EmptyString →
  FlagDict self !! name = None →
  (∀ s, Flag.short_name (deref h flag) = Some s →
        collides h (FlagDict self) s flag = false) →
  ∃ self' self'',
    __setitem__ h self name flag caller = (self', inr tt) ∧
    __getitem__ self' name = inr flag ∧
    __contains__ self' name = true ∧
    __delattr__ h self' name = (self'', inr tt) ∧
    __getitem__ self'' name = inl (KeyError name) ∧
    __contains__ self'' name = false.
Proof.
  intros Hne Hfree Hshort.
  rewrite (setitem_passes _ _ _ _ _ Hne (collides_free _ _ _ _ Hfree) Hshort). cbv zeta.
  set (fl := match Flag.short_name (deref h flag) with
             | Some s => <[s := flag]> (FlagDict self)
             | None => FlagDict self end).
  set (self' := set_flags (if takes_name h fl name flag then <[name := flag]> fl else fl) self).
  assert (Hbound : FlagDict self' !! name = Some flag).
  { subst self'. unfold FlagDict at 1. simpl. unfold takes_name.
    destruct (fl !! name) as [old|] eqn:Eold; [|apply lookup_insert_eq].
    assert (old = flag) as ->.
    { subst fl. destruct (Flag.short_name (deref h flag)) as [s|].
      - destruct (decide (s = name)) as [->|Hsn].
        + rewrite lookup_insert_eq in Eold. congruence.
        + rewrite lookup_insert_ne in Eold by done. congruence.
      - congruence. }
    destruct (Flag.using_default_value (deref h flag)); simpl;
      [apply lookup_insert_eq | apply lookup_insert_eq]. }
  destruct (delattr_flags h self' name flag Hbound) as (self'' & Hdel & Hfl'').
  exists self', self''. split; [done|].
  unfold __getitem__, __contains__. rewrite Hbound, Hfl'', lookup_delete_eq.
  repeat split; done.
Qed.

Lemma register_lookup_delete_witness :
  ∃ self' self'',
    __setitem__ Demo.objects __init__ "verbosity" 2 Demo.caller = (self', inr tt) ∧
    __getitem__ self' "verbosity" = inr 2 ∧
    __contains__ self' "verbosity" = true ∧
    __delattr__ Demo.objects self' "verbosity" = (self'', inr tt) ∧
    __getitem__ self'' "verbosity" = inl (KeyError "verbosity") ∧
    __contains__ self'' "verbosity" = false.
Proof.
  apply (register_lookup_delete Demo.objects __init__ "verbosity" 2 Demo.caller).
  - discriminate.
  - reflexivity.
  - intros s Hs. reflexivity.
Defined.

(** X2: a registration that raises leaves the registry as it was, and it
    raises for one of three reasons: the name is empty ([FlagsError]), the
    name collides ([DuplicateFlagError] for the name), or the flag's short
    name collides ([DuplicateFlagError] for the short name). *)
Theorem failed_registration_changes_nothing h self name flag caller self' e :
  __setitem__ h self name flag caller = (self', inl e) →
  self' = self ∧
  (e = FlagsError "Flag name cannot be empty" ∧ name = EmptyString ∨
   e = DuplicateFlagError name ∧ collides h (FlagDict self) name flag = true ∨
   ∃ s, Flag.short_name (deref h flag) = Some s ∧ e = DuplicateFlagError s ∧
        collides h (FlagDict self) s flag = true).
Proof.
  unfold __setitem__.
  destruct (decide (name = EmptyString)) as [->|Hne].
  { intros [= <- <-]. split; [done|]. by left. }
  destruct (collides h (FlagDict self) name flag) eqn:Ec.
  { destruct caller as [module module_name]. destruct (_ && _); [done|].
    intros [= <- <-]. split; [done|]. right. by left. }
  destruct (Flag.short_name (deref h flag)) as [s|] eqn:Es.
  - destruct (collides h (FlagDict self) s flag) eqn:Ecs.
    + intros [= <- <-]. split; [done|]. right. right. eauto.
    + by destruct (takes_name _ _ _ _).
  - by destruct (takes_name _ _ _ _).
Qed.

(** Object 3 does not allow overrides and neither does the holder of
    [verbosity]. *)
Lemma failed_registration_changes_nothing_witness :
  Demo.verbosity_registered = Demo.verbosity_registered ∧
  (DuplicateFlagError "verbosity" = FlagsError "Flag name cannot be empty" ∧
     "verbosity" = EmptyString ∨
   DuplicateFlagError "verbosity" = DuplicateFlagError "verbosity" ∧
     collides Demo.objects (FlagDict Demo.verbosity_registered) "verbosity" 3 = true ∨
   ∃ s, Flag.short_name (deref Demo.objects 3) = Some s ∧
        DuplicateFlagError "verbosity" = DuplicateFlagError s ∧
        collides Demo.objects (FlagDict Demo.verbosity_registered) s 3 = true).
Proof.
  apply (failed_registration_changes_nothing Demo.objects Demo.verbosity_registered
           "verbosity" 3 Demo.caller).
  vm_compute. reflexivity.
Defined.

(** X3: a flag that allows overrides registers under every non-empty
    name, whatever the registry holds; afterwards its short name leads to
    it, and every key other than the name and the short name is as it
    was. *)
Theorem overriding_flag_always_registers h self name flag caller :
  name ≠ EmptyString →
  Flag.allow_override (deref h flag) = true →
  ∃ self',
    __setitem__ h self name flag caller = (self', inr tt) ∧
    (∀ s, Flag.short_name (deref h flag) = Some s → FlagDict self' !! s = Some flag) ∧
    (∀ key, key ≠ name → Flag.short_name (deref h flag) ≠ Some key →
            FlagDict self' !! key = FlagDict self !! key).
Proof.
  intros Hne Hover.
  assert (Hc : ∀ key, collides h (FlagDict self) key flag = false).
  { intros key. unfold collides. destruct (FlagDict self !! key); [|done].
    by rewrite Hover. }
  rewrite (setitem_passes _ _ _ _ _ Hne (Hc name) (λ s _, Hc s)). cbv zeta.
  eexists. split; [reflexivity|]. unfold FlagDict at 1 3. simpl. split.
  - intros s Hs. rewrite Hs.
    destruct (takes_name _ _ _ _).
    + destruct (decide (name = s)) as [->|]; [apply lookup_insert_eq|].
      rewrite lookup_insert_ne by done. apply lookup_insert_eq.
    + apply lookup_insert_eq.
  - intros key Hk Hks.
    destruct (Flag.short_name (deref h flag)) as [s|].
    + assert (s ≠ key) by congruence.
      destruct (takes_name _ _ _ _); rewrite ?lookup_insert_ne by done; done.
    + destruct (takes_name _ _ _ _); rewrite ?lookup_insert_ne by done; done.
Qed.

Lemma overriding_flag_always_registers_witness :
  ∃ self',
    __setitem__ Demo.objects Demo.verbosity_registered "verbosity" 2 Demo.caller
    = (self', inr tt) ∧
    (∀ s, Flag.short_name (deref Demo.objects 2) = Some s →
          FlagDict self' !! s = Some 2) ∧
    (∀ key, key ≠ "verbosity" → Flag.short_name (deref Demo.objects 2) ≠ Some key →
            FlagDict self' !! key = FlagDict Demo.verbosity_registered !! key).
Proof.
  apply (overriding_flag_always_registers Demo.objects Demo.verbosity_registered
           "verbosity" 2 Demo.caller).
  - discriminate.
  - vm_compute. reflexivity.
Defined.

(** X4: when every key of the name map leads to a flag that carries the
    key as its name or as its short name, this is still so after a flag is
    registered under its own name, whatever the outcome, and after any
    name is deleted. *)
Theorem keys_keep_naming_their_flags h self flag caller flag_name :
  keys_name_their_flags h self →
  keys_name_their_flags h
    (__setitem__ h self (Flag.name (deref h flag)) flag caller).1 ∧
  keys_name_their_flags h (__delattr__ h self flag_name).1.
Proof.
  intros Hinv. split.
  - set (name := Flag.name (deref h flag)).
    destruct (__setitem__ h self name flag caller) as [self' [e|[]]] eqn:Eset.
    { apply setitem_raises in Eset as [-> _]. done. }
    simpl. revert Eset. unfold __setitem__.
    destruct (decide (name = EmptyString)); [done|].
    destruct (collides h (FlagDict self) name flag).
    { destruct caller as [module module_name]. destruct (_ && _); [|done].
      by intros [= <-]. }
    assert (Hstep : ∀ (fl : gmap string addr),
      (∀ key a, fl !! key = Some a →
         Flag.name (deref h a) = key ∨ Flag.short_name (deref h a) = Some key) →
      ∀ key a,
        (if takes_name h fl name flag then <[name := flag]> fl else fl) !! key = Some a →
        Flag.name (deref h a) = key ∨ Flag.short_name (deref h a) = Some key).
    { intros fl Hfl key a. destruct (takes_name h fl name flag); [|apply Hfl].
      destruct (decide (name = key)) as [<-|Hk].
      - rewrite lookup_insert_eq. intros [= <-]. by left.
      - rewrite lookup_insert_ne by done. apply Hfl. }
    destruct (Flag.short_name (deref h flag)) as [s|] eqn:Es.
    + destruct (collides h (FlagDict self) s flag); [done|].
      destruct (takes_name h (<[s:=flag]> (FlagDict self)) name flag) eqn:Et;
        intros [= <-]; intros key a Hka; unfold FlagDict in Hka; simpl in Hka.
      all: apply (Hstep (<[s:=flag]> (FlagDict self))); [|by rewrite Et].
      all: intros key' a'; destruct (decide (s = key')) as [<-|Hk];
        [rewrite lookup_insert_eq; intros [= <-]; by right
        |rewrite lookup_insert_ne by done; apply Hinv].
    + destruct (takes_name h (FlagDict self) name flag) eqn:Et;
        intros [= <-]; intros key a Hka; unfold FlagDict in Hka; simpl in Hka.
      all: apply (Hstep (FlagDict self)); [apply Hinv | by rewrite Et].
  - unfold __delattr__. destruct (FlagDict self !! flag_name) as [flag_obj|]; [|done].
    assert (Hdel : ∀ key a, delete flag_name (FlagDict self) !! key = Some a →
      Flag.name (deref h a) = key ∨ Flag.short_name (deref h a) = Some key).
    { intros key a [_ Hka]%lookup_delete_Some. by apply Hinv. }
    destruct (negb _); simpl; exact Hdel.
Qed.

Lemma keys_keep_naming_their_flags_witness :
  keys_name_their_flags Demo.objects
    (__setitem__ Demo.objects Demo.verbosity_registered
       (Flag.name (deref Demo.objects 2)) 2 Demo.caller).1 ∧
  keys_name_their_flags Demo.objects
    (__delattr__ Demo.objects Demo.verbosity_registered "verbosity").1.
Proof.
  apply (keys_keep_naming_their_flags Demo.objects Demo.verbosity_registered 2
           Demo.caller "verbosity").
  intros key flag Hkey.
  assert (Hfl : FlagDict Demo.verbosity_registered = {["verbosity" := 1]})
    by (vm_compute; reflexivity).
  rewrite Hfl in Hkey. apply lookup_singleton_Some in Hkey as [<- <-].
  left. vm_compute. reflexivity.
Defined.

(** ** Hiding, assigning and reading back *)

Section attributes.
Context `{Collaborators}.

Lemma deref_insert_eq (h : gmap addr Flag.t) a f : deref (<[a := f]> h) a = f.
Proof. unfold deref. by rewrite lookup_insert_eq. Qed.

Lemma deref_insert_ne (h : gmap addr Flag.t) a b f :
  a ≠ b → deref (<[a := f]> h) b = deref h b.
Proof. intros Hne. unfold deref. by rewrite lookup_insert_ne. Qed.

(** The validators raise nothing but [IllegalFlagValue]. *)
Lemma verify_each_raises validators h self e :
  verify_each validators h self = Some e → ∃ message, e = IllegalFlagValue message.
Proof.
  induction validators as [|v vs IH]; simpl; [done|].
  destruct (Verify v h self) as [message|]; [|exact IH].
  intros [= <-]. eauto.
Qed.

(** What [__setattr__] leaves in the object store on a registered name
    that is not hidden. *)
Lemma setattr_heap h self name value flag :
  name ∉ __hiddenflags self →
  FlagDict self !! name = Some flag →
  (__setattr__ h self name value).1
  = <[flag := Flag.set_using_default_value false (Flag.set_value value (deref h flag))]> h.
Proof.
  intros Hhid Hfl. unfold __setattr__.
  rewrite bool_decide_eq_false_2 by done. rewrite Hfl.
  rewrite !deref_insert_eq, insert_insert_eq.
  by destruct (_AssertValidators _ _ _).
Qed.

(** X5: once a name is hidden, reading it and assigning to it as an
    attribute raise [AttributeError], whether or not the name is
    registered; the item lookup still finds the flag, and reads of every
    other name are as before. *)
Theorem hidden_flag_is_out_of_reach environ h self name value :
  __getattr__ environ h (HideFlag name self) name = inl (AttributeError name) ∧
  __setattr__ h (HideFlag name self) name value = (h, inl (AttributeError name)) ∧
  __getitem__ (HideFlag name self) name = __getitem__ self name ∧
  (∀ other, other ≠ name →
     __getattr__ environ h (HideFlag name self) other = __getattr__ environ h self other).
Proof.
  assert (Hin : name ∈ __hiddenflags (HideFlag name self)).
  { simpl. apply elem_of_union_l, elem_of_singleton. done. }
  split; [|split; [|split]].
  - unfold __getattr__. destruct (FlagDict (HideFlag name self) !! name); [|done].
    by rewrite bool_decide_eq_true_2.
  - unfold __setattr__. by rewrite bool_decide_eq_true_2.
  - done.
  - intros other Hne.
    assert (Hhid : bool_decide (other ∈ __hiddenflags (HideFlag name self))
                   = bool_decide (other ∈ __hiddenflags self)).
    { apply bool_decide_ext. simpl. rewrite elem_of_union, elem_of_singleton.
      split; [intros [Heq|Hin']; [congruence | done] | by right]. }
    unfold __getattr__. change (FlagDict (HideFlag name self)) with (FlagDict self).
    destruct (FlagDict self !! other); [|done]. by rewrite Hhid.
Qed.

(** X6: an attribute assignment to a registered name that is not hidden
    writes the value into the flag object and clears its
    [using_default_value] before the validators run: the call returns the
    value or raises [IllegalFlagValue], and in both cases the object holds
    the new value; its [present] count and its default are untouched, and
    so is every other object. *)
Theorem setattr_stores_before_validating h self name value flag :
  name ∉ __hiddenflags self →
  FlagDict self !! name = Some flag →
  ∃ h',
    (__setattr__ h self name value = (h', inr value) ∨
     ∃ message, __setattr__ h self name value = (h', inl (IllegalFlagValue message))) ∧
    Flag.value (deref h' flag) = value ∧
    Flag.using_default_value (deref h' flag) = false ∧
    Flag.present (deref h' flag) = Flag.present (deref h flag) ∧
    Flag.default (deref h' flag) = Flag.default (deref h flag) ∧
    (∀ a, a ≠ flag → h' !! a = h !! a).
Proof.
  intros Hhid Hfl.
  exists (<[flag := Flag.set_using_default_value false
                      (Flag.set_value value (deref h flag))]> h).
  split.
  - pose proof (setattr_heap h self name value flag Hhid Hfl) as Hheap.
    revert Hheap. unfold __setattr__.
    rewrite bool_decide_eq_false_2 by done. rewrite Hfl.
    unfold _AssertValidators.
    destruct (verify_each _ _ _) as [e|] eqn:Ev; simpl; intros ->.
    + right. apply verify_each_raises in Ev as [message ->]. eauto.
    + by left.
  - rewrite deref_insert_eq. repeat split; try done.
    intros a Hne. by rewrite lookup_insert_ne.
Qed.

(** X7: a value assigned through one name of a flag is read back through
    every name of that flag that is not hidden, under the permissive policy
    or once the registry is marked as parsed, whatever the validators
    said. *)
Theorem setattr_then_getattr environ h self name alias value flag :
  name ∉ __hiddenflags self →
  alias ∉ __hiddenflags self →
  FlagDict self !! name = Some flag →
  FlagDict self !! alias = Some flag →
  permissive environ ∨ __flags_parsed self = true →
  __getattr__ environ (__setattr__ h self name value).1 self alias = inr value.
Proof.
  intros Hhid Hhid' Hfl Hal Hmode.
  rewrite (setattr_heap h self name value flag Hhid Hfl).
  unfold __getattr__. rewrite Hal. rewrite bool_decide_eq_false_2 by done.
  rewrite deref_insert_eq. simpl.
  destruct Hmode as [Hperm|Hparsed].
  - destruct (_ || _); [done|]. unfold permissive in Hperm.
    by rewrite bool_decide_eq_true_2.
  - by rewrite Hparsed.
Qed.

End attributes.

Lemma setattr_stores_before_validating_witness :
  ∃ h',
    (@__setattr__ Demo.collaborators Demo.objects Demo.verbosity_registered
       "verbosity" (PyInt 5) = (h', inr (PyInt 5)) ∨
     ∃ message,
       @__setattr__ Demo.collaborators Demo.objects Demo.verbosity_registered
         "verbosity" (PyInt 5) = (h', inl (IllegalFlagValue message))) ∧
    Flag.value (deref h' 1) = PyInt 5 ∧
    Flag.using_default_value (deref h' 1) = false ∧
    Flag.present (deref h' 1) = Flag.present (deref Demo.objects 1) ∧
    Flag.default (deref h' 1) = Flag.default (deref Demo.objects 1) ∧
    (∀ a, a ≠ 1 → h' !! a = Demo.objects !! a).
Proof.
  apply (@setattr_stores_before_validating Demo.collaborators Demo.objects
           Demo.verbosity_registered "verbosity" (PyInt 5) 1).
  - apply (bool_decide_unpack _). vm_compute. exact I.
  - vm_compute. reflexivity.
Defined.

(** [FLAGS.v = 9] is read back as [FLAGS.verbosity]: both names lead to
    object 2. *)
Lemma setattr_then_getattr_witness :
  __getattr__ ∅
    (@__setattr__ Demo.collaborators Demo.objects Demo.short_registered "v" (PyInt 9)).1
    Demo.short_registered "verbosity"
  = inr (PyInt 9).
Proof.
  apply (@setattr_then_getattr Demo.collaborators ∅ Demo.objects Demo.short_registered
           "v" "verbosity" (PyInt 9) 2).
  - apply (bool_decide_unpack _). vm_compute. exact I.
  - apply (bool_decide_unpack _). vm_compute. exact I.
  - vm_compute. reflexivity.
  - vm_compute. reflexivity.
  - left. vm_compute. reflexivity.
Defined.

(** ** More on scanning *)

Lemma contains_append_eq X v : PyStr.contains "=" (X +:+ "=" +:+ v) = true.
Proof.
  induction X as [|a X IH]; [done|].
  change (String a X +:+ "=" +:+ v) with (String a (X +:+ "=" +:+ v)).
  simpl. by destruct (decide (a = "="%char)).
Qed.

Lemma split1_append_eq X v :
  PyStr.contains "=" X = false →
  PyStr.split1 "=" (X +:+ "=" +:+ v) = (X, v).
Proof.
  induction X as [|a X IH]; intros Hc; [done|].
  change (String a X +:+ "=" +:+ v) with (String a (X +:+ "=" +:+ v)).
  simpl in *. destruct (decide (a = "="%char)); [done|]. by rewrite IH.
Qed.

Lemma startswith_dash_cons a Z :
  PyStr.startswith (String a Z) "-" = bool_decide (a = "-"%char).
Proof.
  unfold PyStr.startswith.
  change (String.prefix "-" (String a Z))
    with (if ascii_dec "-" a then String.prefix EmptyString Z else false).
  destruct (ascii_dec "-" a) as [<-|Hne].
  - by rewrite prefix_empty.
  - rewrite bool_decide_eq_false_2; [done|]. congruence.
Qed.

Lemma startswith_dash_append X Y :
  X ≠ EmptyString → PyStr.startswith X "-" = false →
  PyStr.startswith (X +:+ Y) "-" = false.
Proof.
  intros Hne Hd. destruct X as [|a X]; [done|].
  change (String a X +:+ Y) with (String a (X +:+ Y)).
  by rewrite startswith_dash_cons in *.
Qed.

Lemma split_arg_value X v :
  plain_name X → split_arg ("--" +:+ X +:+ "=" +:+ v) = (X, Some v).
Proof.
  intros (Hne & _ & Heq & Hdash). unfold split_arg.
  change (PyStr.contains "=" ("--" +:+ X +:+ "=" +:+ v))
    with (PyStr.contains "=" (X +:+ "=" +:+ v)).
  rewrite contains_append_eq.
  change (PyStr.lstrip_chr "-" ("--" +:+ X +:+ "=" +:+ v))
    with (PyStr.lstrip_chr "-" (X +:+ "=" +:+ v)).
  rewrite (lstrip_chr_id "-") by by apply startswith_dash_append.
  by rewrite split1_append_eq.
Qed.

(** One dash is as good as two. *)
Lemma route_single_dash self h Z rest :
  Z ≠ EmptyString → Z ≠ "-" →
  route self h ("-" +:+ Z) rest = route self h ("--" +:+ Z) rest.
Proof.
  intros Hne Hd. unfold route.
  assert (H1 : PyStr.startswith ("-" +:+ Z) "-" = true).
  { change ("-" +:+ Z) with (String "-" Z). by rewrite startswith_dash_cons. }
  rewrite H1.
  change (PyStr.startswith ("--" +:+ Z) "-") with true. cbn [negb].
  destruct (decide ("-" +:+ Z = "--")) as [E|_].
  { exfalso. apply Hd. by injection E. }
  destruct (decide ("--" +:+ Z = "--")) as [E|_].
  { exfalso. apply Hne. by injection E. }
  change (split_arg ("-" +:+ Z)) with (split_arg ("--" +:+ Z)). done.
Qed.

(** [--X=v] reaches the parser of the flag registered under [X] with the
    string [v]. *)
Lemma route_with_value h self X flag v rest :
  plain_name X →
  FlagDict self !! X = Some flag →
  route self h ("--" +:+ X +:+ "=" +:+ v) rest = ToFlag flag (PyStr v) false.
Proof.
  intros HX Hfl. pose proof HX as (Hne & Hund & Heq & Hdash).
  unfold route.
  change (PyStr.startswith ("--" +:+ X +:+ "=" +:+ v) "-") with true. cbn [negb].
  destruct (decide (_ = "--")) as [E|_].
  { exfalso. injection E as E. by destruct X. }
  rewrite split_arg_value by done.
  destruct (decide (X = EmptyString)); [done|].
  destruct (decide (X = "undefok")); [done|].
  rewrite Hfl. by rewrite andb_false_r.
Qed.

Section scanner.
Context `{Collaborators}.

Lemma undefok_update_union value (ud1 ud2 : gset string) :
  undefok_update value (ud1 ∪ ud2) = ud1 ∪ undefok_update value ud2.
Proof. unfold undefok_update. by rewrite !(assoc_L (∪)). Qed.

(** A round of the loop reads nothing of the state but the object store. *)
Lemma step_behind_eq self arg rest pre st :
  _ParseArgs_step self arg rest (behind pre st)
  = step_behind pre (_ParseArgs_step self arg rest st).
Proof.
  unfold _ParseArgs_step. simpl.
  destruct (route self (ps_heap st) arg rest) as [| |value nt|flag value nt|name|]; simpl.
  - unfold positional. destruct (IsGnuGetOpt self); simpl;
      unfold behind; simpl; by rewrite app_assoc.
  - done.
  - unfold behind. simpl. by rewrite undefok_update_union.
  - unfold parse_flag. simpl. by destruct (Parse _ _).
  - unfold behind. simpl. by rewrite app_assoc.
  - done.
Qed.

Lemma loop_behind_bounded n self args pre st :
  length args ≤ n →
  _ParseArgs_loop self args (behind pre st)
  = (behind pre (_ParseArgs_loop self args st).1, (_ParseArgs_loop self args st).2).
Proof.
  revert args st. induction n as [|n IH]; intros args st Hlen.
  { destruct args; [done | simpl in Hlen; lia]. }
  destruct args as [|arg rest]; [done|]. simpl in Hlen. simpl.
  rewrite step_behind_eq.
  destruct (_ParseArgs_step self arg rest st) as [st1 [|]|st1|e st1]; simpl; try done.
  - destruct rest as [|? rest']; [done|]. simpl in Hlen. apply IH. lia.
  - apply IH. lia.
Qed.

Lemma loop_behind self args pre st :
  _ParseArgs_loop self args (behind pre st)
  = (behind pre (_ParseArgs_loop self args st).1, (_ParseArgs_loop self args st).2).
Proof. by apply (loop_behind_bounded (length args)). Qed.

(** X8: in GNU mode a token that does not start with a dash is put aside
    and the scan goes on as if the token were not there: the outcome for
    [arg :: args] is the outcome for [args], with [arg] in front of the
    unparsed arguments. *)
Theorem gnu_scan_skips_positional h self arg args :
  IsGnuGetOpt self = true →
  no_dash arg →
  _ParseArgs h self (arg :: args) =
    match _ParseArgs h self args with
    | (h', inl e) => (h', inl e)
    | (h', inr (unknown_flags, unparsed_args, undefok)) =>
        (h', inr (unknown_flags, arg :: unparsed_args, undefok))
    end.
Proof.
  intros Hgnu Harg. unfold _ParseArgs. simpl. unfold _ParseArgs_step, route.
  unfold no_dash in Harg. rewrite Harg. simpl. unfold positional. rewrite Hgnu. simpl.
  change (mkParseState h [] [arg] ∅)
    with (mkParseState h ([] ++ []) ([arg] ++ []) ∅).
  assert (Hb : mkParseState h ([] ++ []) ([arg] ++ []) ∅
               = behind (mkParseState h [] [arg] ∅) (mkParseState h [] [] ∅)).
  { unfold behind. simpl. by rewrite (left_id_L ∅ (∪)). }
  rewrite Hb, loop_behind.
  destruct (_ParseArgs_loop self args (mkParseState h [] [] ∅)) as [st [e|rest]]; simpl.
  - done.
  - by rewrite (left_id_L ∅ (∪)).
Qed.

(** In GNU mode the loop runs through tokens without a dash. *)
Lemma loop_gnu_no_dash self args : ∀ st,
  IsGnuGetOpt self = true →
  Forall no_dash args →
  _ParseArgs_loop self args st
  = (mkParseState (ps_heap st) (unknown_flags st) (unparsed_args st ++ args) (undefok st),
     inr []).
Proof.
  induction args as [|arg args IH]; intros st Hgnu Hall.
  - simpl. rewrite app_nil_r. by destruct st.
  - apply Forall_cons in Hall as [Harg Hall]. cbn [_ParseArgs_loop].
    unfold _ParseArgs_step, route. unfold no_dash in Harg. rewrite Harg. cbn [negb].
    unfold positional. rewrite Hgnu. rewrite IH by done. simpl.
    by rewrite <- app_assoc.
Qed.

(** X9: when no token starts with a dash, the scan touches no flag and
    records nothing: all tokens come back as unparsed arguments, in their
    order, in GNU mode and outside it. *)
Theorem scan_without_flags h self args :
  Forall no_dash args →
  _ParseArgs h self args = (h, inr ([], args, ∅)).
Proof.
  intros Hall. unfold _ParseArgs. destruct (IsGnuGetOpt self) eqn:Hgnu.
  - rewrite loop_gnu_no_dash by done. simpl. by rewrite app_nil_r.
  - destruct Hall as [|arg args Harg Hall]; [done|].
    simpl. unfold _ParseArgs_step, route.
    unfold no_dash in Harg. rewrite Harg. simpl. unfold positional. by rewrite Hgnu.
Qed.

Lemma route_flag_registered self h arg rest flag value next_taken :
  route self h arg rest = ToFlag flag value next_taken →
  ∃ key, FlagDict self !! key = Some flag.
Proof.
  unfold route. destruct (negb _); [done|].
  destruct (decide (arg = "--")); [done|].
  destruct (split_arg arg) as [name v].
  destruct (decide (name = EmptyString)); [done|].
  destruct (decide (name = "undefok")).
  { destruct v; [done|]. by destruct rest. }
  destruct (FlagDict self !! name) as [f|] eqn:Efl.
  { destruct (_ && _); [intros [= <- _ _]; eauto|].
    destruct v; [intros [= <- _ _]; eauto|].
    destruct rest; [done|]. intros [= <- _ _]; eauto. }
  destruct (PyStr.startswith name "no"); [|done].
  destruct (FlagDict self !! PyStr.slice_from 2 name) as [f|] eqn:Et; [|done].
  destruct (Flag.boolean (deref h f)); [|done]. intros [= <- _ _]. eauto.
Qed.

Lemma step_heap_unregistered self arg rest st a :
  unregistered self a →
  ps_heap (step_state (_ParseArgs_step self arg rest st)) !! a = ps_heap st !! a.
Proof.
  intros Hun. unfold _ParseArgs_step.
  destruct (route self (ps_heap st) arg rest) as [| |value nt|flag value nt|name|] eqn:Er;
    simpl; try done.
  - unfold positional. by destruct (IsGnuGetOpt self).
  - unfold parse_flag. destruct (Parse _ _); simpl; [done|].
    apply route_flag_registered in Er as [key Hkey].
    apply lookup_insert_ne. intros ->. by apply (Hun key).
Qed.

Lemma loop_heap_unregistered n self args st a :
  length args ≤ n →
  unregistered self a →
  ps_heap (_ParseArgs_loop self args st).1 !! a = ps_heap st !! a.
Proof.
  revert args st. induction n as [|n IH]; intros args st Hlen Hun.
  { destruct args; [done | simpl in Hlen; lia]. }
  destruct args as [|arg rest]; [done|]. simpl in Hlen. simpl.
  pose proof (step_heap_unregistered self arg rest st a Hun) as Hstep.
  destruct (_ParseArgs_step self arg rest st) as [st1 [|]|st1|e st1]; simpl in *; try done.
  - destruct rest as [|? rest']; [done|]. simpl in Hlen.
    rewrite IH by (done || lia). done.
  - rewrite IH by (done || lia). done.
Qed.

(** X10: the scan writes to no flag object but those the name map leads
    to: an object that is the value of no key is after the scan what it
    was before, whatever the tokens and whether or not the scan raises. *)
Theorem scan_writes_registered_flags_only h self args a :
  unregistered self a →
  (_ParseArgs h self args).1 !! a = h !! a.
Proof.
  intros Hun. unfold _ParseArgs.
  pose proof (loop_heap_unregistered (length args) self args
                (mkParseState h [] [] ∅) a (le_n _) Hun) as Hl.
  by destruct (_ParseArgs_loop self args _) as [st [e|rest]].
Qed.

(** The scan of a first token that reaches the parser of [flag] with
    [value], and of the tokens after it. *)
Lemma scan_flag_token h self arg rest flag value next_taken :
  route self h arg rest = ToFlag flag value next_taken →
  _ParseArgs h self (arg :: rest) =
    match Parse (deref h flag) value with
    | inl message => (h, inl (IllegalFlagValue message))
    | inr parsed =>
        _ParseArgs (<[flag := Flag.set_using_default_value false parsed]> h) self
          (if next_taken then tail rest else rest)
    end.
Proof.
  intros Hr. unfold _ParseArgs. cbn [_ParseArgs_loop].
  unfold _ParseArgs_step. cbn [ps_heap]. rewrite Hr.
  unfold parse_flag. cbn [ps_heap].
  destruct (Parse (deref h flag) value) as [message|parsed]; [done|].
  unfold with_heap. cbn [unknown_flags unparsed_args undefok].
  destruct next_taken; [|done]. by destruct rest.
Qed.

(** X12: for a flag registered under the plain name [X], the scan of
    [--X=v] hands the string [v] to the flag's parser and goes on with the
    token that follows; when the flag is not boolean, the scan of [--X]
    hands it the following token and goes on after that one, and raises
    [FlagsError] for a missing value when nothing follows; a token with a
    single dash is scanned like the one with two, except that the error
    for a missing value quotes the token as it was written. *)
Theorem value_tokens h self X flag :
  plain_name X →
  FlagDict self !! X = Some flag →
  (∀ v rest,
     _ParseArgs h self (("--" +:+ X +:+ "=" +:+ v) :: rest) =
       match Parse (deref h flag) (PyStr v) with
       | inl message => (h, inl (IllegalFlagValue message))
       | inr parsed =>
           _ParseArgs (<[flag := Flag.set_using_default_value false parsed]> h) self rest
       end) ∧
  (Flag.boolean (deref h flag) = false →
     (∀ v rest,
        _ParseArgs h self (("--" +:+ X) :: v :: rest) =
          match Parse (deref h flag) (PyStr v) with
          | inl message => (h, inl (IllegalFlagValue message))
          | inr parsed =>
              _ParseArgs (<[flag := Flag.set_using_default_value false parsed]> h) self rest
          end) ∧
     _ParseArgs h self ["--" +:+ X]
     = (h, inl (FlagsError ("Missing value for flag " +:+ "--" +:+ X))) ∧
     _ParseArgs h self ["-" +:+ X]
     = (h, inl (FlagsError ("Missing value for flag " +:+ "-" +:+ X)))) ∧
  (∀ rest, rest ≠ [] ∨ Flag.boolean (deref h flag) = true →
     _ParseArgs h self (("-" +:+ X) :: rest) = _ParseArgs h self (("--" +:+ X) :: rest)) ∧
  (∀ v rest,
     _ParseArgs h self (("-" +:+ X +:+ "=" +:+ v) :: rest)
     = _ParseArgs h self (("--" +:+ X +:+ "=" +:+ v) :: rest)).
Proof.
  intros HX Hfl. pose proof HX as (Hne & Hund & Heq & Hdash).
  assert (Hfirst : ∀ Y, X +:+ Y ≠ EmptyString ∧ X +:+ Y ≠ "-").
  { intros Y. destruct X as [|a X]; [done|]. split; [done|].
    intros E. injection E as -> _. by rewrite startswith_dash_cons in Hdash. }
  assert (Hsingle : ∀ rest, route self h ("-" +:+ X) rest = route self h ("--" +:+ X) rest).
  { intros rest. apply route_single_dash; [done|].
    intros ->. by rewrite startswith_dash_cons in Hdash. }
  assert (Hmissing : ∀ arg,
    route self h arg [] = MissingValue →
    _ParseArgs h self [arg] = (h, inl (FlagsError ("Missing value for flag " +:+ arg)))).
  { intros arg Hr. unfold _ParseArgs. cbn [_ParseArgs_loop].
    unfold _ParseArgs_step. cbn [ps_heap]. by rewrite Hr. }
  split; [|split; [|split]].
  - intros v rest.
    by rewrite (scan_flag_token h self _ rest flag (PyStr v) false)
      by by apply route_with_value.
  - intros Hb. split; [|split].
    + intros v rest.
      rewrite (scan_flag_token h self _ (v :: rest) flag (PyStr v) true); [done|].
      rewrite route_plain by done. by rewrite Hfl, Hb.
    + apply Hmissing. rewrite route_plain by done. by rewrite Hfl, Hb.
    + apply Hmissing. rewrite Hsingle, route_plain by done. by rewrite Hfl, Hb.
  - intros rest Hrest.
    assert (Hr : ∃ value next_taken,
              route self h ("--" +:+ X) rest = ToFlag flag value next_taken).
    { rewrite route_plain by done. rewrite Hfl.
      destruct (Flag.boolean (deref h flag)); [eauto|].
      destruct Hrest as [Hrest|?]; [|done]. destruct rest; [done | eauto]. }
    destruct Hr as (value & next_taken & Hr).
    rewrite (scan_flag_token h self ("--" +:+ X) rest flag value next_taken) by done.
    by rewrite (scan_flag_token h self ("-" +:+ X) rest flag value next_taken)
      by by rewrite Hsingle.
  - intros v rest.
    assert (Hr : route self h ("--" +:+ X +:+ "=" +:+ v) rest = ToFlag flag (PyStr v) false)
      by by apply route_with_value.
    rewrite (scan_flag_token h self ("--" +:+ X +:+ "=" +:+ v) rest flag (PyStr v) false)
      by done.
    rewrite (scan_flag_token h self ("-" +:+ X +:+ "=" +:+ v) rest flag (PyStr v) false);
      [done|].
    rewrite <- Hr. apply (route_single_dash self h (X +:+ "=" +:+ v)); apply Hfirst.
Qed.

(** X26: for a flag registered under the plain name [X], the scan of
    [--X=v] followed by more tokens hands [v] to the flag's parser first:
    when the parser rejects it, the scan raises [IllegalFlagValue] at once,
    with no flag object changed and no later token read; when the parser
    accepts it, the scan is the scan of the remaining tokens over the
    object store in which the flag has taken the parsed value and is no
    longer at its default. *)
Theorem flag_token_then_rest h self X flag v rest :
  plain_name X →
  FlagDict self !! X = Some flag →
  (∀ message, Parse (deref h flag) (PyStr v) = inl message →
     _ParseArgs h self (("--" +:+ X +:+ "=" +:+ v) :: rest)
     = (h, inl (IllegalFlagValue message))) ∧
  (∀ parsed, Parse (deref h flag) (PyStr v) = inr parsed →
     _ParseArgs h self (("--" +:+ X +:+ "=" +:+ v) :: rest)
     = _ParseArgs (<[flag := Flag.set_using_default_value false parsed]> h) self rest).
Proof.
  intros HX Hfl.
  assert (Hstep : ∀ st,
    _ParseArgs_step self ("--" +:+ X +:+ "=" +:+ v) rest st
    = parse_flag flag (PyStr v) false st).
  { intros st. unfold _ParseArgs_step.
    by rewrite (route_with_value (ps_heap st) self X flag v rest HX Hfl). }
  split.
  - intros message Hparse. unfold _ParseArgs. cbn [_ParseArgs_loop].
    rewrite Hstep. unfold parse_flag. cbn [ps_heap]. by rewrite Hparse.
  - intros parsed Hparse. unfold _ParseArgs. cbn [_ParseArgs_loop].
    rewrite Hstep. unfold parse_flag. cbn [ps_heap]. by rewrite Hparse.
Qed.

(** X11: a call leaves the name map and the hidden names alone.  When it
    returns, the registry is marked as parsed, all validators are
    satisfied, and the result is empty for an empty [argv] and starts with
    the program name otherwise.  When it raises, the registry is as it was,
    unless the validators raised: then it is already marked as parsed. *)
Theorem call_outcomes fs h self argv err h' self' err' r :
  __call__ fs h self argv err = ((h', self', err'), r) →
  FlagDict self' = FlagDict self ∧
  __hiddenflags self' = __hiddenflags self ∧
  (∀ out, r = inr out →
     self' = MarkAsParsed self ∧
     _AssertAllValidators h' self' = None ∧
     (argv = [] ∧ out = [] ∧ h' = h ∨
      ∃ program_name argv' unparsed,
        argv = program_name :: argv' ∧ out = program_name :: unparsed)) ∧
  (∀ e, r = inl e →
     self' = self ∨
     self' = MarkAsParsed self ∧ _AssertAllValidators h' self' = Some e).
Proof.
  assert (Hfail : ∀ e, (h', self', err', r) = (h', self, err', inl e) →
    FlagDict self' = FlagDict self ∧
    __hiddenflags self' = __hiddenflags self ∧
    (∀ out, r = inr out →
       self' = MarkAsParsed self ∧
       _AssertAllValidators h' self' = None ∧
       (argv = [] ∧ out = [] ∧ h' = h ∨
        ∃ program_name argv' unparsed,
          argv = program_name :: argv' ∧ out = program_name :: unparsed)) ∧
    (∀ e, r = inl e →
       self' = self ∨
       self' = MarkAsParsed self ∧ _AssertAllValidators h' self' = Some e)).
  { intros e [= -> ->]. split; [done|]. split; [done|]. split; [done|].
    intros e' _. by left. }
  unfold __call__. destruct argv as [|program_name argv'].
  { destruct (_AssertAllValidators h (MarkAsParsed self)) as [e|] eqn:Ev;
      intros [= <- <- <- <-]; (split; [done|]); (split; [done|]); split.
    - done.
    - intros e' [= <-]. by right.
    - intros out [= <-]. split; [done|]. split; [done|]. by left.
    - done. }
  destruct (ReadFlagsFromFiles fs h self argv' false err) as [err1 [e|args]].
  { intros [= <- <- <- <-]. by eapply Hfail. }
  destruct (_ParseArgs h self args) as [h1 [e|[[unknown unparsed] ud]]].
  { intros [= <- <- <- <-]. by eapply Hfail. }
  destruct (first_unrecognized self unknown ud) as [e|].
  { intros [= <- <- <- <-]. by eapply Hfail. }
  destruct (_AssertAllValidators h1 (MarkAsParsed self)) as [e|] eqn:Ev;
    intros [= <- <- <- <-]; (split; [done|]); (split; [done|]); split.
  - done.
  - intros e' [= <-]. by right.
  - intros out [= <-]. split; [done|]. split; [done|]. right. eauto.
  - done.
Qed.

End scanner.

Lemma value_tokens_witness :
  @_ParseArgs Demo.collaborators Demo.switches Demo.switches_registered
    ["--x"; "5"; "rest"]
  = @_ParseArgs Demo.collaborators
      (<[2 := Flag.set_using_default_value false
                (Flag.mk "x" None false false (PyStr "5") (PyInt 0) true 1 [])]>
         Demo.switches)
      Demo.switches_registered ["rest"] ∧
  @_ParseArgs Demo.collaborators Demo.switches Demo.switches_registered ["--x"]
  = (Demo.switches, inl (FlagsError "Missing value for flag --x")) ∧
  @_ParseArgs Demo.collaborators Demo.switches Demo.switches_registered ["-x"; "5"]
  = @_ParseArgs Demo.collaborators Demo.switches Demo.switches_registered ["--x"; "5"].
Proof.
  assert (HX : plain_name "x").
  { repeat split; try discriminate; vm_compute; reflexivity. }
  assert (Hfl : FlagDict Demo.switches_registered !! "x" = Some 2)
    by (vm_compute; reflexivity).
  destruct (@value_tokens Demo.collaborators Demo.switches Demo.switches_registered
              "x" 2 HX Hfl) as (_ & Hnext & Hdash & _).
  destruct Hnext as (Hnext & Hmissing & _); [vm_compute; reflexivity|].
  split; [exact (Hnext "5" ["rest"])|].
  split; [exact Hmissing|].
  apply (Hdash ["5"]). by left.
Defined.

Lemma gnu_scan_skips_positional_witness :
  @_ParseArgs Demo.collaborators Demo.switches Sample.gnu_switches ["input"; "--x=5"]
  = match @_ParseArgs Demo.collaborators Demo.switches Sample.gnu_switches ["--x=5"] with
    | (h', inl e) => (h', inl e)
    | (h', inr (unknown_flags, unparsed_args, undefok)) =>
        (h', inr (unknown_flags, "input" :: unparsed_args, undefok))
    end.
Proof.
  apply (@gnu_scan_skips_positional Demo.collaborators Demo.switches
           Sample.gnu_switches "input" ["--x=5"]).
  - vm_compute. reflexivity.
  - vm_compute. reflexivity.
Defined.

Lemma scan_without_flags_witness :
  @_ParseArgs Demo.collaborators Demo.switches Demo.switches_registered ["in"; "out"]
  = (Demo.switches, inr ([], ["in"; "out"], ∅)).
Proof.
  apply (@scan_without_flags Demo.collaborators Demo.switches Demo.switches_registered
           ["in"; "out"]).
  repeat (apply Forall_cons; split; [vm_compute; reflexivity|]). apply Forall_nil_2.
Defined.

(** Only object 1 is registered: [--verbosity=3] leaves object 3 alone. *)
Lemma scan_writes_registered_flags_only_witness :
  (@_ParseArgs Demo.collaborators Demo.objects Demo.verbosity_registered
     ["--verbosity=3"]).1 !! 3
  = Demo.objects !! 3.
Proof.
  apply (@scan_writes_registered_flags_only Demo.collaborators Demo.objects
           Demo.verbosity_registered ["--verbosity=3"] 3).
  intros key Hkey.
  assert (Hfl : FlagDict Demo.verbosity_registered = {["verbosity" := 1]})
    by (vm_compute; reflexivity).
  rewrite Hfl in Hkey. apply lookup_singleton_Some in Hkey as [_ Hkey].
  discriminate Hkey.
Defined.

Lemma call_outcomes_witness :
  FlagDict
    (@__call__ Demo.collaborators Demo.files Demo.switches Demo.switches_registered
       ["prog"; "--x=5"; "rest"] []).1.1.2
  = FlagDict Demo.switches_registered.
Proof.
  set (run := @__call__ Demo.collaborators Demo.files Demo.switches
                Demo.switches_registered ["prog"; "--x=5"; "rest"] []).
  refine (proj1 (@call_outcomes Demo.collaborators Demo.files Demo.switches
                   Demo.switches_registered ["prog"; "--x=5"; "rest"] []
                   run.1.1.1 run.1.1.2 run.1.2 run.2 _)).
  vm_compute. reflexivity.
Defined.

(** [--x=5 --x=6]: the later token wins. *)
Lemma flag_token_then_rest_witness :
  @_ParseArgs Demo.collaborators Demo.switches Demo.switches_registered
    ["--x=5"; "--x=6"]
  = @_ParseArgs Demo.collaborators
      (<[2 := Flag.set_using_default_value false
                (Flag.mk "x" None false false (PyStr "5") (PyInt 0) true 1 [])]>
         Demo.switches)
      Demo.switches_registered ["--x=6"].
Proof.
  assert (HX : plain_name "x").
  { repeat split; try discriminate; vm_compute; reflexivity. }
  assert (Hfl : FlagDict Demo.switches_registered !! "x" = Some 2)
    by (vm_compute; reflexivity).
  apply (proj2 (@flag_token_then_rest Demo.collaborators Demo.switches
                  Demo.switches_registered "x" 2 "5" ["--x=6"] HX Hfl)).
  vm_compute. reflexivity.
Defined.

(** ** More on flagfiles *)

Section inclusion.
Context `{Collaborators}.
Variable fs : gmap string string.

Lemma ReadFlagsFromFiles_loop_plain n h self force_gnu args new_argv err :
  length args ≤ n →
  Forall (λ arg, __IsFlagFileDirective arg = false) args →
  ReadFlagsFromFiles_loop fs h self force_gnu args new_argv err
  = (err, inr (new_argv ++ args)).
Proof.
  revert args new_argv. induction n as [|n IH]; intros args new_argv Hlen Hall.
  { destruct args; [by rewrite app_nil_r | simpl in Hlen; lia]. }
  destruct args as [|arg rest]; [by rewrite app_nil_r|].
  apply Forall_cons in Hall as [Harg Hall]. simpl in Hlen. simpl. rewrite Harg.
  destruct (decide (arg = "--")); [by rewrite <- app_assoc|].
  destruct (negb (PyStr.startswith arg "-")).
  - destruct (_ && _); [by rewrite <- app_assoc|].
    rewrite IH by (done || lia). by rewrite <- app_assoc.
  - destruct rest as [|next rest'].
    + rewrite IH by (done || simpl; lia). by rewrite <- app_assoc.
    + simpl in Hlen. destruct (_ && _).
      * apply Forall_cons in Hall as [_ Hall].
        rewrite IH by (done || lia). by rewrite <- !app_assoc.
      * rewrite IH by (done || simpl; lia). by rewrite <- app_assoc.
Qed.

(** X13: an argument list without a flagfile directive comes back from
    [ReadFlagsFromFiles] as it is, in GNU mode and outside it, whatever the
    registry and the files; nothing is written to the error stream. *)
Theorem ReadFlagsFromFiles_without_directives h self argv force_gnu err :
  Forall (λ arg, __IsFlagFileDirective arg = false) argv →
  ReadFlagsFromFiles fs h self argv force_gnu err = (err, inr argv).
Proof.
  intros Hall. unfold ReadFlagsFromFiles.
  by rewrite (ReadFlagsFromFiles_loop_plain (length argv)).
Qed.

(** A directive line is neither blank nor a comment. *)
Lemma directive_is_flag_line line :
  __IsFlagFileDirective line = true →
  PyStr.isspace line = false ∧
  (PyStr.startswith line "#" || PyStr.startswith line "//") = false.
Proof.
  intros Hd.
  assert (Hdash : PyStr.startswith line "-" = true).
  { revert Hd. unfold __IsFlagFileDirective.
    destruct line as [|a line]; [done|].
    unfold PyStr.startswith.
    change (String.prefix "--flagfile=" (String a line))
      with (if ascii_dec "-" a then String.prefix "-flagfile=" line else false).
    change (String.prefix "-flagfile=" (String a line))
      with (if ascii_dec "-" a then String.prefix "flagfile=" line else false).
    change (String.prefix "-" (String a line))
      with (if ascii_dec "-" a then String.prefix EmptyString line else false).
    destruct (ascii_dec "-" a) as [<-|Hne].
    - intros _. apply prefix_empty.
    - destruct (decide (String a line = "--flagfile")) as [[= -> _]|_]; [done|].
      destruct (decide (String a line = "-flagfile")) as [[= -> _]|_]; [done|]. done. }
  destruct line as [|a line]; [done|].
  rewrite startswith_dash_cons in Hdash. apply bool_decide_eq_true_1 in Hdash as ->.
  split; [done|]. unfold PyStr.startswith.
  change (String.prefix "#" (String "-" line)) with false.
  change (String.prefix "//" (String "-" line)) with false. done.
Qed.

(** The loop over the lines, through a stretch without directives. *)
Lemma each_line_app_plain recurse lines1 lines2 flag_line_list st :
  Forall (λ line, __IsFlagFileDirective line = false) lines1 →
  each_line recurse (lines1 ++ lines2) flag_line_list st
  = each_line recurse lines2 (flag_line_list ++ filtered lines1) st.
Proof.
  unfold filtered.
  revert flag_line_list. induction lines1 as [|line lines IH]; intros acc Hall.
  - simpl. by rewrite app_nil_r.
  - apply Forall_cons in Hall as [Hline Hall]. simpl.
    destruct (PyStr.isspace line) eqn:Esp.
    { rewrite IH by done. rewrite filter_cons_False; [done|].
      unfold is_flag_line. rewrite Esp. simpl. done. }
    destruct (PyStr.startswith line "#" || PyStr.startswith line "//") eqn:Ec.
    { rewrite IH by done. rewrite filter_cons_False; [done|].
      unfold is_flag_line. rewrite Esp, Ec. simpl. done. }
    rewrite Hline. rewrite IH by done.
    rewrite filter_cons_True.
    2: { unfold is_flag_line. by rewrite Esp, Ec. }
    by rewrite fmap_cons, <- app_assoc.
Qed.

(** The loop over the lines at a directive. *)
Lemma each_line_directive recurse line lines flag_line_list st :
  __IsFlagFileDirective line = true →
  each_line recurse (line :: lines) flag_line_list st
  = match ExtractFilename line with
    | inl e => Some (st, inl e)
    | inr sub_filename =>
        match recurse sub_filename st with
        | None => None
        | Some (st', inl e) => Some (st', inl e)
        | Some (st', inr included_flags) =>
            each_line recurse lines (flag_line_list ++ included_flags) st'
        end
    end.
Proof.
  intros Hd. destruct (directive_is_flag_line line Hd) as [Hsp Hc].
  simpl. by rewrite Hsp, Hc, Hd.
Qed.

(** X14: the flag lines of an included file are spliced in at the place
    of the directive that names it: for a file with one directive, naming a
    file without directives, the result is the flag lines before the
    directive, then those of the included file, then those after it; the
    stack is back to what it was, and the two files were pushed in turn. *)
Theorem included_file_is_spliced_in filename content before line after
    sub_filename sub_content st :
  fs !! filename = Some content →
  PyStr.readlines content = before ++ line :: after →
  Forall (λ line, __IsFlagFileDirective line = false) before →
  Forall (λ line, __IsFlagFileDirective line = false) after →
  __IsFlagFileDirective line = true →
  ExtractFilename line = inr sub_filename →
  fs !! sub_filename = Some sub_content →
  Forall (λ line, __IsFlagFileDirective line = false) (PyStr.readlines sub_content) →
  filename ∉ parsed_file_stack st →
  sub_filename ∉ parsed_file_stack st →
  sub_filename ≠ filename →
  __GetFlagFileLines fs filename st =
    (mkExpandState (parsed_file_stack st) (stderr st)
       (pushed st ++ [parsed_file_stack st ++ [filename];
                      (parsed_file_stack st ++ [filename]) ++ [sub_filename]]),
     inr (filtered before ++ filtered (PyStr.readlines sub_content) ++ filtered after)).
Proof.
  intros Hfs Hlines Hbefore Hafter Hd Hex Hsub Hsublines Hstack Hsubstack Hne.
  assert (Hinner : ∀ st1, sub_filename ∉ parsed_file_stack st1 →
    __GetFlagFileLines_fuel fs (S (size fs)) sub_filename st1 =
      Some (mkExpandState (parsed_file_stack st1) (stderr st1)
              (pushed st1 ++ [parsed_file_stack st1 ++ [sub_filename]]),
            inr (filtered (PyStr.readlines sub_content)))).
  { intros st1 Hst1. by apply (GetFlagFileLines_fuel_plain fs _ _ sub_content). }
  remember (S (size fs)) as fuel1 eqn:Efuel.
  pose proof (__GetFlagFileLines_enough_fuel fs filename st (S fuel1)
                ltac:(lia)) as Hrun.
  apply (inj Some). rewrite <- Hrun. clear Hrun.
  cbn [__GetFlagFileLines_fuel].
  rewrite bool_decide_eq_false_2 by done. rewrite Hfs, Hlines.
  rewrite each_line_app_plain by done. rewrite each_line_directive by done.
  rewrite Hex. rewrite Hinner.
  2: { simpl. intros [Hin|Hin%list_elem_of_singleton]%elem_of_app; done. }
  rewrite each_line_plain by done. simpl.
  rewrite removelast_last. unfold filtered. rewrite <- !app_assoc. done.
Qed.

(** X15: a flagfile that cannot be opened aborts the expansion with
    [CantOpenFlagFileError], at the top and inside an included file alike;
    the files entered so far stay on the stack. *)
Theorem missing_flagfile_aborts filename st :
  filename ∉ parsed_file_stack st →
  (fs !! filename = None →
     __GetFlagFileLines fs filename st =
       (mkExpandState (parsed_file_stack st ++ [filename]) (stderr st)
          (pushed st ++ [parsed_file_stack st ++ [filename]]),
        inl (CantOpenFlagFileError filename))) ∧
  (∀ content before line after sub_filename,
     fs !! filename = Some content →
     PyStr.readlines content = before ++ line :: after →
     Forall (λ line, __IsFlagFileDirective line = false) before →
     __IsFlagFileDirective line = true →
     ExtractFilename line = inr sub_filename →
     sub_filename ∉ parsed_file_stack st →
     sub_filename ≠ filename →
     fs !! sub_filename = None →
     __GetFlagFileLines fs filename st =
       (mkExpandState ((parsed_file_stack st ++ [filename]) ++ [sub_filename]) (stderr st)
          (pushed st ++ [parsed_file_stack st ++ [filename];
                         (parsed_file_stack st ++ [filename]) ++ [sub_filename]]),
        inl (CantOpenFlagFileError sub_filename))).
Proof.
  intros Hstack. split.
  - intros Hfs. unfold __GetFlagFileLines. simpl.
    rewrite bool_decide_eq_false_2 by done. by rewrite Hfs.
  - intros content before line after sub_filename Hfs Hlines Hbefore Hd Hex Hsub Hne Hmissing.
    remember (S (size fs)) as fuel1 eqn:Efuel.
    pose proof (__GetFlagFileLines_enough_fuel fs filename st (S fuel1)
                  ltac:(lia)) as Hrun.
    apply (inj Some). rewrite <- Hrun. clear Hrun.
    cbn [__GetFlagFileLines_fuel].
    rewrite bool_decide_eq_false_2 by done. rewrite Hfs, Hlines.
    rewrite each_line_app_plain by done. rewrite each_line_directive by done.
    rewrite Hex. subst fuel1. cbn [__GetFlagFileLines_fuel].
    rewrite bool_decide_eq_false_2.
    2: { simpl. intros [Hin|Hin%list_elem_of_singleton]%elem_of_app; done. }
    rewrite Hmissing. simpl. by rewrite <- !app_assoc.
Qed.

(** X16: a line of a flagfile that is exactly [--flagfile] or
    [-flagfile], without [=] and a file name, aborts the expansion with
    [FlagsError]; the lines before it are lost and the file stays on the
    stack. *)
Theorem bare_directive_in_flagfile filename content before line after st :
  fs !! filename = Some content →
  PyStr.readlines content = before ++ line :: after →
  Forall (λ line, __IsFlagFileDirective line = false) before →
  filename ∉ parsed_file_stack st →
  line = "--flagfile" ∨ line = "-flagfile" →
  __GetFlagFileLines fs filename st =
    (mkExpandState (parsed_file_stack st ++ [filename]) (stderr st)
       (pushed st ++ [parsed_file_stack st ++ [filename]]),
     inl (FlagsError ("Hit illegal --flagfile type: " +:+ line))).
Proof.
  intros Hfs Hlines Hbefore Hstack Hline.
  unfold __GetFlagFileLines. cbn [__GetFlagFileLines_fuel].
  rewrite bool_decide_eq_false_2 by done. rewrite Hfs, Hlines.
  rewrite each_line_app_plain by done.
  rewrite each_line_directive by (destruct Hline as [->| ->]; reflexivity).
  by destruct Hline as [->| ->].
Qed.

End inclusion.

Lemma ReadFlagsFromFiles_without_directives_witness :
  @ReadFlagsFromFiles Demo.collaborators Demo.files Demo.switches
    Demo.switches_registered ["--x=5"; "rest"] false []
  = ([], inr ["--x=5"; "rest"]).
Proof.
  apply (@ReadFlagsFromFiles_without_directives Demo.collaborators Demo.files
           Demo.switches Demo.switches_registered ["--x=5"; "rest"] false []).
  repeat (apply Forall_cons; split; [vm_compute; reflexivity|]). apply Forall_nil_2.
Defined.

Lemma included_file_is_spliced_in_witness :
  @__GetFlagFileLines Demo.collaborators Sample.flagfiles "outer" (mkExpandState [] [] [])
  = (mkExpandState [] [] [["outer"]; ["outer"; "inner"]],
     inr ["--a=1"; "--b=2"; "--c=3"]).
Proof.
  apply (@included_file_is_spliced_in Demo.collaborators Sample.flagfiles "outer"
           Sample.outer_text ["--a=1" +:+ PyStr.NL] ("--flagfile=inner" +:+ PyStr.NL)
           ["--c=3" +:+ PyStr.NL] "inner" Sample.inner_text (mkExpandState [] [] [])).
  - vm_compute. reflexivity.
  - vm_compute. reflexivity.
  - repeat (apply Forall_cons; split; [vm_compute; reflexivity|]). apply Forall_nil_2.
  - repeat (apply Forall_cons; split; [vm_compute; reflexivity|]). apply Forall_nil_2.
  - vm_compute. reflexivity.
  - vm_compute. reflexivity.
  - vm_compute. reflexivity.
  - apply (bool_decide_unpack _). vm_compute. exact I.
  - apply not_elem_of_nil.
  - apply not_elem_of_nil.
  - discriminate.
Defined.

Lemma missing_flagfile_aborts_witness :
  @__GetFlagFileLines Demo.collaborators Sample.flagfiles "absent" (mkExpandState [] [] [])
  = (mkExpandState ["absent"] [] [["absent"]],
     inl (CantOpenFlagFileError "absent")) ∧
  @__GetFlagFileLines Demo.collaborators Sample.flagfiles "broken" (mkExpandState [] [] [])
  = (mkExpandState ["broken"; "absent"] [] [["broken"]; ["broken"; "absent"]],
     inl (CantOpenFlagFileError "absent")).
Proof.
  split.
  - apply (@missing_flagfile_aborts Demo.collaborators Sample.flagfiles "absent"
             (mkExpandState [] [] [])).
    + apply not_elem_of_nil.
    + vm_compute. reflexivity.
  - apply (proj2 (@missing_flagfile_aborts Demo.collaborators Sample.flagfiles "broken"
                    (mkExpandState [] [] []) (not_elem_of_nil _))
             Sample.broken_text ["--a=1" +:+ PyStr.NL]
             ("--flagfile=absent" +:+ PyStr.NL) [] "absent").
    + vm_compute. reflexivity.
    + vm_compute. reflexivity.
    + repeat (apply Forall_cons; split; [vm_compute; reflexivity|]). apply Forall_nil_2.
    + vm_compute. reflexivity.
    + vm_compute. reflexivity.
    + apply not_elem_of_nil.
    + discriminate.
    + vm_compute. reflexivity.
Defined.

Lemma bare_directive_in_flagfile_witness :
  @__GetFlagFileLines Demo.collaborators Sample.flagfiles "bare" (mkExpandState [] [] [])
  = (mkExpandState ["bare"] [] [["bare"]],
     inl (FlagsError "Hit illegal --flagfile type: --flagfile")).
Proof.
  apply (@bare_directive_in_flagfile Demo.collaborators Sample.flagfiles "bare"
           Sample.bare_text ["--a=1" +:+ PyStr.NL] "--flagfile" []
           (mkExpandState [] [] [])).
  - vm_compute. reflexivity.
  - vm_compute. reflexivity.
  - repeat (apply Forall_cons; split; [vm_compute; reflexivity|]). apply Forall_nil_2.
  - apply not_elem_of_nil.
  - by left.
Defined.

(** ** The module indices *)

Lemma get_list_setdefault_add {K} `{EqDecision K} (key : K) flag (d : list (K * list addr)) :
  get_list key (setdefault_add key flag d)
  = if bool_decide (flag ∈ get_list key d) then get_list key d
    else get_list key d ++ [flag].
Proof.
  induction d as [|[k l] d IH]; simpl.
  - rewrite decide_True by done. done.
  - destruct (decide (k = key)) as [->|Hne]; simpl.
    + by rewrite decide_True.
    + by rewrite decide_False.
Qed.

Lemma get_list_setdefault_add_ne {K} `{EqDecision K} (key key' : K) flag
    (d : list (K * list addr)) :
  key' ≠ key → get_list key' (setdefault_add key flag d) = get_list key' d.
Proof.
  intros Hne. induction d as [|[k l] d IH]; simpl.
  - destruct (decide (key = key')); congruence.
  - destruct (decide (k = key)) as [->|Hk]; simpl.
    + destruct (decide (key = key')); congruence.
    + by rewrite IH.
Qed.

Lemma append_missing_spec flags : ∀ key_flags,
  (∃ added, append_missing flags key_flags = key_flags ++ added ∧
            (∀ a, a ∈ added ↔ a ∈ flags ∧ a ∉ key_flags) ∧
            NoDup added).
Proof.
  induction flags as [|flag flags IH]; intros key_flags; simpl.
  - exists []. split; [by rewrite app_nil_r|]. split; [|constructor].
    intros a. split; [by intros ?%elem_of_nil | by intros [?%elem_of_nil _]].
  - case_bool_decide as Hin.
    + destruct (IH key_flags) as (added & -> & Hadded & Hnd).
      exists added. split; [done|]. split; [|done].
      intros a. rewrite Hadded, elem_of_cons. split; [tauto|].
      intros [[->|?] ?]; tauto.
    + destruct (IH (key_flags ++ [flag])) as (added & -> & Hadded & Hnd).
      exists (flag :: added). split; [by rewrite <- app_assoc|]. split.
      * intros a. rewrite !elem_of_cons, Hadded, elem_of_app, list_elem_of_singleton.
        destruct (decide (a = flag)) as [->|Hne]; [tauto|]. tauto.
      * constructor; [|done]. rewrite Hadded, elem_of_app, list_elem_of_singleton. tauto.
Qed.

(** Which flags are key for a module. *)
Lemma elem_of_GetKeyFlagsForModule self module a :
  a ∈ _GetKeyFlagsForModule self module ↔
  a ∈ _GetFlagsDefinedByModule self module ∨
  a ∈ get_list module (KeyFlagsByModuleDict self).
Proof.
  unfold _GetKeyFlagsForModule.
  destruct (append_missing_spec (get_list module (KeyFlagsByModuleDict self))
              (_GetFlagsDefinedByModule self module)) as (added & -> & Hadded & Hnd).
  rewrite elem_of_app, Hadded.
  destruct (decide (a ∈ _GetFlagsDefinedByModule self module)); tauto.
Qed.

(** X17: the key flags of a module are the flags the module defines, in
    the order of their definition, followed by the flags declared key for
    it that it does not define; a flag is among them exactly when it is
    defined by the module or declared key for it, and none occurs twice
    when none is defined twice. *)
Theorem key_flags_of_a_module self module :
  _GetFlagsDefinedByModule self module `prefix_of` _GetKeyFlagsForModule self module ∧
  (∀ a, a ∈ _GetKeyFlagsForModule self module ↔
        a ∈ _GetFlagsDefinedByModule self module ∨
        a ∈ get_list module (KeyFlagsByModuleDict self)) ∧
  (NoDup (_GetFlagsDefinedByModule self module) →
   NoDup (_GetKeyFlagsForModule self module)).
Proof.
  split; [|split; [apply elem_of_GetKeyFlagsForModule|]].
  - unfold _GetKeyFlagsForModule.
    destruct (append_missing_spec (get_list module (KeyFlagsByModuleDict self))
                (_GetFlagsDefinedByModule self module)) as (added & -> & _).
    by exists added.
  - unfold _GetKeyFlagsForModule.
    destruct (append_missing_spec (get_list module (KeyFlagsByModuleDict self))
                (_GetFlagsDefinedByModule self module)) as (added & -> & Hadded & Hnd).
    intros Hdef. apply NoDup_app. split; [done|]. split; [|done].
    intros a Ha Hadd. apply Hadded in Hadd. tauto.
Qed.

Lemma setdefault_add_idem {K} `{EqDecision K} (key : K) flag (d : list (K * list addr)) :
  setdefault_add key flag (setdefault_add key flag d) = setdefault_add key flag d.
Proof.
  induction d as [|[k l] d IH]; cbn [setdefault_add].
  - rewrite decide_True by done. rewrite bool_decide_eq_true_2; [done|].
    by apply list_elem_of_singleton.
  - destruct (decide (k = key)) as [->|Hne]; cbn [setdefault_add].
    + rewrite decide_True by done. f_equal. f_equal.
      rewrite bool_decide_eq_true_2; [done|].
      case_bool_decide; [done|].
      apply elem_of_app. right. by apply list_elem_of_singleton.
    + rewrite decide_False by done. by rewrite IH.
Qed.

(** X18: declaring a flag key for a module makes it one of the module's
    key flags; declaring it again changes nothing; the key flags of the
    other modules, the name map and the flags each module defines are as
    before. *)
Theorem register_key_flag self module_name flag :
  flag ∈ _GetKeyFlagsForModule (_RegisterKeyFlagForModule module_name flag self) module_name ∧
  _RegisterKeyFlagForModule module_name flag
    (_RegisterKeyFlagForModule module_name flag self)
  = _RegisterKeyFlagForModule module_name flag self ∧
  (∀ module, module ≠ module_name →
     _GetKeyFlagsForModule (_RegisterKeyFlagForModule module_name flag self) module
     = _GetKeyFlagsForModule self module) ∧
  FlagDict (_RegisterKeyFlagForModule module_name flag self) = FlagDict self ∧
  (∀ module,
     _GetFlagsDefinedByModule (_RegisterKeyFlagForModule module_name flag self) module
     = _GetFlagsDefinedByModule self module).
Proof.
  split; [|split; [|split; [|split]]].
  - apply elem_of_GetKeyFlagsForModule. right. simpl.
    rewrite get_list_setdefault_add. case_bool_decide; [done|].
    apply elem_of_app. right. by apply list_elem_of_singleton.
  - unfold _RegisterKeyFlagForModule, set_module_indices. simpl. f_equal.
    apply setdefault_add_idem.
  - intros module Hne. unfold _GetKeyFlagsForModule, _GetFlagsDefinedByModule. simpl.
    by rewrite get_list_setdefault_add_ne.
  - done.
  - done.
Qed.

Lemma defining_entry_app_flag {K} `{EqDecision K} h flagname (key : K) flag
    (d : list (K * list addr)) :
  defining_entry h flagname d = None →
  Flag.name (deref h flag) = flagname ∨ Flag.short_name (deref h flag) = Some flagname →
  defining_entry h flagname (setdefault_append key flag d) = Some key.
Proof.
  intros Hnone Hflag. unfold defining_entry in *.
  assert (Hmatch : (bool_decide (Flag.name (deref h flag) = flagname) ||
                    bool_decide (Flag.short_name (deref h flag) = Some flagname)) = true).
  { destruct Hflag as [Hn|Hs].
    - by rewrite (bool_decide_eq_true_2 _ Hn).
    - rewrite (bool_decide_eq_true_2 _ Hs). apply orb_true_r. }
  induction d as [|[k l] d IH]; simpl in *.
  - by rewrite Hmatch.
  - destruct (existsb _ l) eqn:El; [done|].
    destruct (decide (k = key)) as [->|Hne]; simpl.
    + rewrite existsb_app, El. simpl. by rewrite Hmatch.
    + rewrite El. by apply IH.
Qed.

Lemma get_list_setdefault_append {K} `{EqDecision K} (key key' : K) flag
    (d : list (K * list addr)) :
  get_list key' (setdefault_append key flag d)
  = if decide (key' = key) then get_list key' d ++ [flag] else get_list key' d.
Proof.
  induction d as [|[k l] d IH]; simpl.
  - destruct (decide (key' = key)) as [->|Hne].
    + by rewrite decide_True.
    + rewrite decide_False by done. done.
  - destruct (decide (k = key)) as [->|Hk]; simpl.
    + destruct (decide (key = key')) as [<-|Hk'].
      * by rewrite decide_True.
      * rewrite decide_False by done. done.
    + destruct (decide (k = key')) as [->|Hk']; [|done].
      by rewrite decide_False.
Qed.

(** X19: recording a flag as defined by a module puts it at the end of
    that module's list and leaves the lists of the other modules alone; it
    then is a key flag of the module, and when no module defined one of the
    flag's names before, the module is now found as the one defining it, by
    name and by id alike. *)
Theorem register_flag_by_module h self module_name module_id flag :
  (∀ module,
     _GetFlagsDefinedByModule (_RegisterFlagByModule module_name flag self) module
     = if decide (module = module_name)
       then _GetFlagsDefinedByModule self module ++ [flag]
       else _GetFlagsDefinedByModule self module) ∧
  flag ∈ _GetKeyFlagsForModule (_RegisterFlagByModule module_name flag self) module_name ∧
  (∀ flagname,
     Flag.name (deref h flag) = flagname ∨
       Flag.short_name (deref h flag) = Some flagname →
     (FindModuleDefiningFlag h self flagname = None →
      FindModuleDefiningFlag h (_RegisterFlagByModule module_name flag self) flagname
      = Some module_name) ∧
     (FindModuleIdDefiningFlag h self flagname = None →
      FindModuleIdDefiningFlag h (_RegisterFlagByModuleId module_id flag self) flagname
      = Some module_id)).
Proof.
  assert (Hdef : ∀ module,
     _GetFlagsDefinedByModule (_RegisterFlagByModule module_name flag self) module
     = if decide (module = module_name)
       then _GetFlagsDefinedByModule self module ++ [flag]
       else _GetFlagsDefinedByModule self module).
  { intros module. unfold _GetFlagsDefinedByModule. simpl.
    apply get_list_setdefault_append. }
  split; [done|]. split.
  - apply elem_of_GetKeyFlagsForModule. left. rewrite Hdef, decide_True by done.
    apply elem_of_app. right. by apply list_elem_of_singleton.
  - intros flagname Hflag. split; intros Hnone; by apply defining_entry_app_flag.
Qed.

(** ** The values of all flags *)

Lemma FlagValuesDict_loop_spec h self flag_names : ∀ flag_values,
  (∀ name, name ∈ flag_names → is_Some (FlagDict self !! name)) →
  ∃ d, FlagValuesDict_loop h self flag_names flag_values = inr d ∧
       ∀ name, d !! name =
         if decide (name ∈ flag_names)
         then (λ a, Flag.value (deref h a)) <$> FlagDict self !! name
         else flag_values !! name.
Proof.
  induction flag_names as [|n ns IH]; intros acc Hall; cbn [FlagValuesDict_loop].
  - exists acc. split; [done|]. intros name. rewrite decide_False; [done|].
    apply not_elem_of_nil.
  - destruct (Hall n) as [a Ha]; [by left|]. rewrite Ha.
    destruct (IH (<[n := Flag.value (deref h a)]> acc)) as (d & -> & Hd).
    { intros name Hin. apply Hall. by right. }
    exists d. split; [done|]. intros name. rewrite Hd.
    destruct (decide (name ∈ ns)) as [Hin|Hni].
    + rewrite decide_True; [done | by right].
    + destruct (decide (name = n)) as [->|Hne].
      * rewrite decide_True by by left. by rewrite lookup_insert_eq, Ha.
      * rewrite decide_False.
        -- by rewrite lookup_insert_ne.
        -- intros [?|?]%elem_of_cons; done.
Qed.

(** X20: [FlagValuesDict] never raises: it returns the dictionary that
    maps every registered name, long or short, to the current value of its
    flag, so that two names of one flag carry the same value. *)
Theorem FlagValuesDict_maps_names_to_values h self :
  FlagValuesDict h self = inr ((λ a, Flag.value (deref h a)) <$> FlagDict self) ∧
  (∀ name alias flag d,
     FlagValuesDict h self = inr d →
     FlagDict self !! name = Some flag → FlagDict self !! alias = Some flag →
     d !! name = Some (Flag.value (deref h flag)) ∧ d !! alias = d !! name).
Proof.
  assert (Hrun : FlagValuesDict h self
                 = inr ((λ a, Flag.value (deref h a)) <$> FlagDict self)).
  { unfold FlagValuesDict.
    destruct (FlagValuesDict_loop_spec h self (RegisteredFlags self) ∅) as (d & -> & Hd).
    { intros name Hin. unfold RegisteredFlags in Hin.
      apply list_elem_of_fmap in Hin as ([k a] & -> & Hin).
      apply elem_of_map_to_list in Hin. eauto. }
    f_equal. apply map_eq. intros name. rewrite Hd, lookup_fmap.
    case_decide as Hin; [done|]. rewrite lookup_empty.
    destruct (FlagDict self !! name) as [a|] eqn:Ea; [|done].
    exfalso. apply Hin. unfold RegisteredFlags.
    apply list_elem_of_fmap. exists (name, a). split; [done|].
    by apply elem_of_map_to_list. }
  split; [done|].
  intros name alias flag d Hd Hname Halias. rewrite Hrun in Hd. injection Hd as <-.
  rewrite !lookup_fmap, Hname, Halias. done.
Qed.

(** ** Merging and separating registries *)

Lemma elem_of_keys (fl : gmap string addr) name :
  name ∈ (fst <$> map_to_list fl) ↔ is_Some (fl !! name).
Proof.
  rewrite list_elem_of_fmap. split.
  - intros ([k a] & -> & Hin). apply elem_of_map_to_list in Hin. eauto.
  - intros [a Ha]. exists (name, a). split; [done|]. by apply elem_of_map_to_list.
Qed.

Lemma RemoveFlagValues_loop_succeeds h other : ∀ flag_names self,
  NoDup flag_names →
  (∀ name, name ∈ flag_names → is_Some (FlagDict self !! name)) →
  ∃ self', RemoveFlagValues_loop h self (Another other) (size (FlagDict other)) flag_names
           = (self', inr tt) ∧
           ∀ name, FlagDict self' !! name =
                   if bool_decide (name ∈ flag_names) then None
                   else FlagDict self !! name.
Proof.
  induction flag_names as [|n ns IH]; intros self Hnd Hall; cbn [RemoveFlagValues_loop operand];
    rewrite bool_decide_eq_true_2 by done.
  - exists self. split; [done|]. intros name.
    rewrite bool_decide_eq_false_2; [done | apply not_elem_of_nil].
  - apply NoDup_cons in Hnd as [Hn Hnd].
    destruct (Hall n) as [a Ha]; [by left|].
    destruct (delattr_flags h self n a Ha) as (self1 & -> & Hfl).
    destruct (IH self1 Hnd) as (self' & -> & Hlook).
    { intros name Hin. rewrite Hfl, lookup_delete_ne.
      - apply Hall. by right.
      - intros ->. done. }
    exists self'. split; [done|]. intros name. rewrite Hlook, Hfl.
    destruct (decide (name = n)) as [->|Hne].
    + rewrite (bool_decide_eq_false_2 _ Hn).
      rewrite bool_decide_eq_true_2 by by left. apply lookup_delete_eq.
    + rewrite lookup_delete_ne by done.
      case_bool_decide as Hin.
      * rewrite bool_decide_eq_true_2; [done | by right].
      * rewrite bool_decide_eq_false_2; [done|].
        intros [?|?]%elem_of_cons; done.
Qed.

Lemma RemoveFlagValues_loop_raises h other : ∀ flag_names self self' e,
  NoDup flag_names →
  RemoveFlagValues_loop h self (Another other) (size (FlagDict other)) flag_names
  = (self', inl e) →
  ∃ name, e = AttributeError name ∧ name ∈ flag_names ∧ FlagDict self !! name = None.
Proof.
  induction flag_names as [|n ns IH]; intros self self' e Hnd Hrun;
    cbn [RemoveFlagValues_loop operand] in Hrun;
    rewrite bool_decide_eq_true_2 in Hrun by done; [done|].
  apply NoDup_cons in Hnd as [Hn Hnd].
  destruct (FlagDict self !! n) as [a|] eqn:Ha.
  - destruct (delattr_flags h self n a Ha) as (self1 & Hdel & Hfl).
    rewrite Hdel in Hrun.
    destruct (IH _ _ _ Hnd Hrun) as (name & -> & Hin & Hnone).
    exists name. split; [done|]. split; [by right|].
    rewrite Hfl, lookup_delete_ne in Hnone; [done|]. intros ->. done.
  - unfold __delattr__ in Hrun. rewrite Ha in Hrun. injection Hrun as <- <-.
    exists n. split; [done|]. split; [by left | done].
Qed.

(** X21: [RemoveFlagValues] of another registry returns when every name
    of that registry is a name of this one, and then the name map has lost
    exactly those names; when it raises, it raises [AttributeError] for a
    name of the other registry that this one never had.  Handed the
    registry itself, it returns only when there is no flag at all:
    otherwise it deletes one name and raises [RuntimeError], the
    dictionary it iterates over having changed. *)
Theorem RemoveFlagValues_outcome h self :
  (∀ other,
     (∀ name, is_Some (FlagDict other !! name) → is_Some (FlagDict self !! name)) →
     ∃ self', RemoveFlagValues h self (Another other) = (self', inr tt) ∧
              ∀ name, FlagDict self' !! name =
                      if bool_decide (is_Some (FlagDict other !! name)) then None
                      else FlagDict self !! name) ∧
  (∀ other self' e,
     RemoveFlagValues h self (Another other) = (self', inl e) →
     ∃ name, e = AttributeError name ∧
             is_Some (FlagDict other !! name) ∧ FlagDict self !! name = None) ∧
  (FlagDict self = ∅ → RemoveFlagValues h self Itself = (self, inr tt)) ∧
  (FlagDict self ≠ ∅ →
     ∃ name flag self',
       FlagDict self !! name = Some flag ∧
       __delattr__ h self name = (self', inr tt) ∧
       RemoveFlagValues h self Itself = (self', inl changed_size)).
Proof.
  unfold RemoveFlagValues. cbn [operand]. split; [|split; [|split]].
  - intros other Hall.
    destruct (RemoveFlagValues_loop_succeeds h other (fst <$> map_to_list (FlagDict other)) self)
      as (self' & Hrun & Hlook).
    { apply NoDup_fst_map_to_list. }
    { intros name Hin. apply Hall. by apply elem_of_keys. }
    exists self'. split; [done|]. intros name. rewrite Hlook.
    by rewrite (bool_decide_ext _ _ (elem_of_keys (FlagDict other) name)).
  - intros other self' e Hrun.
    destruct (RemoveFlagValues_loop_raises h other _ _ _ _ (NoDup_fst_map_to_list _) Hrun)
      as (name & -> & Hin & Hnone).
    exists name. split; [done|]. split; [|done]. by apply elem_of_keys.
  - intros Hempty. rewrite Hempty, map_to_list_empty.
    cbn [fmap list_fmap RemoveFlagValues_loop operand]. rewrite Hempty.
    by rewrite bool_decide_eq_true_2.
  - intros Hne.
    destruct (fst <$> map_to_list (FlagDict self)) as [|name names] eqn:Hnames.
    { exfalso. apply Hne. apply map_to_list_empty_iff.
      by destruct (map_to_list (FlagDict self)). }
    assert (Hin : is_Some (FlagDict self !! name)).
    { apply elem_of_keys. rewrite Hnames. by left. }
    destruct Hin as [flag Hflag].
    destruct (delattr_flags h self name flag Hflag) as (self' & Hdel & Hfl).
    exists name, flag, self'. split; [done|]. split; [done|].
    cbn [RemoveFlagValues_loop operand]. rewrite bool_decide_eq_true_2 by done.
    rewrite Hdel. destruct names as [|next names]; cbn [RemoveFlagValues_loop operand].
    all: rewrite bool_decide_eq_false_2; [done|].
    all: rewrite Hfl, map_size_delete, Hflag.
    all: assert (size (FlagDict self) ≠ 0) by (by apply map_size_non_empty_iff); lia.
Qed.

Section merged.
Variable raised : string → FlagValues → FlagValues → Exc.

(** Why [__setitem__] raises. *)
Lemma setitem_error h self name flag caller self' e :
  __setitem__ h self name flag caller = (self', inl e) →
  self' = self ∧
  ((name = EmptyString ∧ e = FlagsError "Flag name cannot be empty") ∨
   (name ≠ EmptyString ∧
    ∃ key, e = DuplicateFlagError key ∧ collides h (FlagDict self) key flag = true ∧
           (key = name ∨ Flag.short_name (deref h flag) = Some key))).
Proof.
  unfold __setitem__. destruct (decide (name = EmptyString)) as [->|Hne].
  - intros [= <- <-]. split; [done|]. by left.
  - destruct (collides h (FlagDict self) name flag) eqn:Ec.
    + destruct caller as [module module_name]. destruct (_ && _); [done|].
      intros [= <- <-]. split; [done|]. right. split; [done|].
      exists name. split; [done|]. split; [done | by left].
    + destruct (Flag.short_name (deref h flag)) as [s|] eqn:Es.
      * destruct (collides h (FlagDict self) s flag) eqn:Ecs.
        -- intros [= <- <-]. split; [done|]. right. split; [done|].
           exists s. split; [done|]. split; [done | by right].
        -- by destruct (takes_name _ _ _ _).
      * by destruct (takes_name _ _ _ _).
Qed.

Lemma AppendFlagValues_loop_raises h flag_values used caller : ∀ flag_names self self' e,
  (∀ other, flag_values = Another other →
     used = size (FlagDict other) ∧
     ∀ name, name ∈ flag_names → is_Some (FlagDict other !! name)) →
  AppendFlagValues_loop raised h self flag_values used flag_names caller = (self', inl e) →
  (flag_values = Itself ∧ e = changed_size) ∨
  ∃ flag_name flag,
    FlagDict (operand self' flag_values) !! flag_name = Some flag ∧
    Flag.name (deref h flag) = flag_name ∧
    ((flag_name = EmptyString ∧ e = FlagsError "Flag name cannot be empty") ∨
     (flag_name ≠ EmptyString ∧
      e = raised flag_name self' (operand self' flag_values) ∧
      ∃ key, collides h (FlagDict self') key flag = true ∧
             (key = flag_name ∨ Flag.short_name (deref h flag) = Some key))).
Proof.
  induction flag_names as [|n ns IH]; intros self self' e Hother Hrun;
    cbn [AppendFlagValues_loop] in Hrun.
  - case_bool_decide as Hsize; [done|]. injection Hrun as <- <-.
    destruct flag_values as [|other]; [by left|].
    destruct (Hother other eq_refl) as [-> _]. done.
  - case_bool_decide as Hsize.
    2: { injection Hrun as <- <-. destruct flag_values as [|other]; [by left|].
         destruct (Hother other eq_refl) as [-> _]. done. }
    assert (Hnext : ∀ other, flag_values = Another other →
              used = size (FlagDict other) ∧
              ∀ name, name ∈ ns → is_Some (FlagDict other !! name)).
    { intros other Ho. destruct (Hother other Ho) as [Hu Hk]. split; [done|].
      intros name Hin. apply Hk. by right. }
    destruct (FlagDict (operand self flag_values) !! n) as [flag|] eqn:Hflag.
    2: { injection Hrun as <- <-. destruct flag_values as [|other]; [by left|].
         destruct (Hother other eq_refl) as [_ Hk].
         destruct (Hk n) as [? Hn]; [by left|]. simpl in Hflag. congruence. }
    case_bool_decide as Hname; [|by apply (IH self)].
    destruct (__setitem__ h self n flag caller) as [self1 [e1|[]]] eqn:Hset;
      [|by apply (IH self1)].
    apply setitem_error in Hset as [-> Hwhy].
    right. exists n, flag.
    destruct Hwhy as [[-> ->]|[Hne (key & -> & Hc & Hkey)]].
    + injection Hrun as <- <-. split; [done|]. split; [done|]. by left.
    + injection Hrun as <- <-. split; [done|]. split; [done|]. right.
      split; [done|]. split; [done|]. by exists key.
Qed.

Lemma AppendFlagValues_loop_skips h flag_values caller self : ∀ flag_names,
  (∀ name, name ∈ flag_names → is_Some (FlagDict (operand self flag_values) !! name)) →
  (∀ flag_name flag, FlagDict (operand self flag_values) !! flag_name = Some flag →
                     Flag.name (deref h flag) ≠ flag_name) →
  AppendFlagValues_loop raised h self flag_values
    (size (FlagDict (operand self flag_values))) flag_names caller
  = (self, inr tt).
Proof.
  induction flag_names as [|n ns IH]; intros Hkeys Hall;
    cbn [AppendFlagValues_loop]; rewrite bool_decide_eq_true_2 by done; [done|].
  destruct (Hkeys n) as [flag Hflag]; [by left|]. rewrite Hflag.
  rewrite bool_decide_eq_false_2.
  - apply IH; [|done]. intros name Hin. apply Hkeys. by right.
  - intros Heq. by apply (Hall n flag).
Qed.

(** X22: when [AppendFlagValues] raises, either the registry was handed
    to itself and the dictionary it iterates over has grown, or the error
    belongs to an entry stored under the long name of its flag:
    [FlagsError] when that name is empty, and otherwise what the second
    [raise] ends in for that long name, the flag colliding in the registry
    as it stands under its long or its short name.  Entries stored under a
    short name only are never visited: a registry made of such entries
    appends nothing. *)
Theorem AppendFlagValues_errors h self flag_values caller :
  (∀ self' e,
     AppendFlagValues raised h self flag_values caller = (self', inl e) →
     (flag_values = Itself ∧ e = changed_size) ∨
     ∃ flag_name flag,
       FlagDict (operand self' flag_values) !! flag_name = Some flag ∧
       Flag.name (deref h flag) = flag_name ∧
       ((flag_name = EmptyString ∧ e = FlagsError "Flag name cannot be empty") ∨
        (flag_name ≠ EmptyString ∧
         e = raised flag_name self' (operand self' flag_values) ∧
         ∃ key, collides h (FlagDict self') key flag = true ∧
                (key = flag_name ∨ Flag.short_name (deref h flag) = Some key)))) ∧
  ((∀ flag_name flag, FlagDict (operand self flag_values) !! flag_name = Some flag →
                      Flag.name (deref h flag) ≠ flag_name) →
   AppendFlagValues raised h self flag_values caller = (self, inr tt)).
Proof.
  unfold AppendFlagValues. cbv zeta. split.
  - intros self' e Hrun.
    eapply AppendFlagValues_loop_raises; [|exact Hrun].
    intros other ->. split; [done|]. intros name Hin. by apply elem_of_keys.
  - intros Hall. apply AppendFlagValues_loop_skips; [|done].
    intros name Hin. by apply elem_of_keys.
Qed.

Lemma AppendFlagValues_loop_merges h self other caller :
  registered_under_own_names h other →
  no_common_key self other →
  ∀ flag_names (seen : list string) cur,
    NoDup flag_names →
    (∀ name, name ∈ flag_names → is_Some (FlagDict other !! name)) →
    (∀ name, name ∈ flag_names → name ∉ seen) →
    (∀ key, FlagDict cur !! key =
            match FlagDict other !! key with
            | Some b => if bool_decide (Flag.name (deref h b) ∈ seen) then Some b else None
            | None => FlagDict self !! key
            end) →
    ∃ cur' (seen' : list string),
      AppendFlagValues_loop raised h cur (Another other) (size (FlagDict other))
        flag_names caller = (cur', inr tt) ∧
      (∀ n, n ∈ seen' ↔
            n ∈ seen ∨
            n ∈ flag_names ∧ ∃ a, FlagDict other !! n = Some a ∧ Flag.name (deref h a) = n) ∧
      (∀ key, FlagDict cur' !! key =
              match FlagDict other !! key with
              | Some b => if bool_decide (Flag.name (deref h b) ∈ seen') then Some b else None
              | None => FlagDict self !! key
              end).
Proof.
  intros Hwf Hdisj.
  induction flag_names as [|k names IH]; intros seen cur Hnd Hkeys Hfresh Hinv;
    cbn [AppendFlagValues_loop operand]; rewrite bool_decide_eq_true_2 by done.
  - exists cur, seen. split; [done|]. split; [|done].
    intros n. split; [by left|]. intros [?|[Hin _]]; [done|].
    by apply elem_of_nil in Hin.
  - apply NoDup_cons in Hnd as [Hk Hnd].
    destruct (Hkeys k) as [a Hka]; [by left|]. rewrite Hka.
    destruct (Hwf k a Hka) as (Hkeys_a & Hnonempty & Hlong & Hshort).
    case_bool_decide as Hname.
    + assert (Hk_free : FlagDict cur !! k = None).
      { rewrite Hinv, Hka. rewrite bool_decide_eq_false_2; [done|].
        rewrite <- Hname. apply Hfresh. by left. }
      assert (Hs_free : ∀ s, Flag.short_name (deref h a) = Some s →
                             FlagDict cur !! s = None).
      { intros s Hs. rewrite Hinv, (Hshort s Hs).
        rewrite bool_decide_eq_false_2; [done|].
        rewrite <- Hname. apply Hfresh. by left. }
      destruct (setitem_fresh h cur k a caller) as (cur1 & -> & Hcur1);
        [congruence | done | done |].
      destruct (IH (k :: seen) cur1 Hnd) as (cur' & seen' & -> & Hseen' & Hcur').
      { intros name Hin. apply Hkeys. by right. }
      { intros name Hin [->|Hd]%elem_of_cons; [done|].
        apply (Hfresh name); [by right | done]. }
      { intros key. rewrite Hcur1, Hinv.
        destruct (FlagDict other !! key) as [b|] eqn:Hb.
        - destruct (Hwf key b Hb) as (Hbkeys & _ & Hblong & _).
          destruct (decide (Flag.name (deref h b) = k)) as [Hbk|Hbk].
          + assert (b = a) as -> by congruence.
            rewrite (bool_decide_eq_true_2 (Flag.name (deref h a) ∈ k :: seen))
              by (rewrite Hbk; by left).
            rewrite bool_decide_eq_true_2; [done|].
            destruct Hbkeys as [<-|?]; [by left | by right].
          + assert (b ≠ a) as Hba by congruence.
            rewrite bool_decide_eq_false_2.
            * rewrite (bool_decide_ext (Flag.name (deref h b) ∈ k :: seen)
                         (Flag.name (deref h b) ∈ seen)); [done|].
              rewrite elem_of_cons. tauto.
            * intros [->|Hs]; [congruence|].
              specialize (Hshort _ Hs). congruence.
        - rewrite bool_decide_eq_false_2; [done|].
          intros [->|Hs]; [congruence|].
          specialize (Hshort _ Hs). congruence. }
      exists cur', seen'. split; [done|]. split; [|done].
      intros n. rewrite Hseen', !elem_of_cons. split.
      * intros [[->|?]|[Hin Ha]].
        -- right. split; [by left|]. by exists a.
        -- by left.
        -- right. split; [by right | done].
      * intros [?|[[->|Hin] Ha]].
        -- left. by right.
        -- left. by left.
        -- right. done.
    + destruct (IH seen cur Hnd) as (cur' & seen' & -> & Hseen' & Hcur').
      { intros name Hin. apply Hkeys. by right. }
      { intros name Hin. apply Hfresh. by right. }
      { done. }
      exists cur', seen'. split; [done|]. split; [|done].
      intros n. rewrite Hseen', elem_of_cons. split.
      * intros [?|[Hin Ha]]; [by left|]. right. split; [by right | done].
      * intros [?|[[->|Hin] (b & Hb & Hn)]].
        -- by left.
        -- congruence.
        -- right. split; [done|]. by exists b.
Qed.

(** X23: appending a registry whose flags are registered under their own
    names, none of which is a key here, succeeds and gives the union of the
    two name maps; removing the same registry afterwards succeeds and gives
    back the name map from before. *)
Theorem append_then_remove h self flag_values caller
    (Hown : registered_under_own_names h (operand self flag_values))
    (Hfree : no_common_key self (operand self flag_values)) :
  ∃ merged,
    AppendFlagValues raised h self flag_values caller = (merged, inr tt) ∧
    FlagDict merged = FlagDict (operand self flag_values) ∪ FlagDict self ∧
    ∃ restored,
      RemoveFlagValues h merged flag_values = (restored, inr tt) ∧
      FlagDict restored = FlagDict self.
Proof.
  destruct flag_values as [|other]; cbn [operand] in *.
  { assert (Hempty : FlagDict self = ∅).
    { apply map_empty. intros key.
      destruct (FlagDict self !! key) as [a|] eqn:Ha; [|done].
      rewrite <- Ha. apply Hfree. by rewrite Ha. }
    exists self. unfold AppendFlagValues, RemoveFlagValues. cbn [operand].
    rewrite Hempty, map_to_list_empty.
    cbn [fmap list_fmap AppendFlagValues_loop RemoveFlagValues_loop operand].
    rewrite Hempty. rewrite bool_decide_eq_true_2 by done.
    split; [done|]. split; [by rewrite (left_id_L ∅ (∪))|].
    by exists self. }
  unfold AppendFlagValues, RemoveFlagValues. cbn [operand].
  destruct (AppendFlagValues_loop_merges h self other caller Hown Hfree
              (fst <$> map_to_list (FlagDict other)) [] self)
    as (merged & seen' & Hrun & Hseen' & Hmerged).
  { apply NoDup_fst_map_to_list. }
  { intros name Hin. by apply elem_of_keys. }
  { intros name _. apply not_elem_of_nil. }
  { intros key. destruct (FlagDict other !! key) as [b|] eqn:Hb; [|done].
    rewrite bool_decide_eq_false_2 by apply not_elem_of_nil.
    apply Hfree. by rewrite Hb. }
  assert (Hunion : FlagDict merged = FlagDict other ∪ FlagDict self).
  { apply map_eq. intros key. rewrite Hmerged, lookup_union.
    destruct (FlagDict other !! key) as [b|] eqn:Hb.
    - destruct (Hown key b Hb) as (_ & _ & Hlong & _).
      rewrite bool_decide_eq_true_2.
      + by destruct (FlagDict self !! key).
      + apply Hseen'. right. split; [|by exists b].
        apply elem_of_keys. by rewrite Hlong.
    - by destruct (FlagDict self !! key). }
  exists merged. split; [done|]. split; [done|].
  destruct (RemoveFlagValues_loop_succeeds h other (fst <$> map_to_list (FlagDict other)) merged)
    as (restored & Hremove & Hrestored).
  { apply NoDup_fst_map_to_list. }
  { intros name [b Hb]%elem_of_keys. rewrite Hunion.
    exists b. apply lookup_union_Some_raw. by left. }
  exists restored. split; [done|]. apply map_eq. intros key.
  rewrite Hrestored, Hunion. case_bool_decide as Hin.
  - symmetry. apply Hfree. by apply elem_of_keys.
  - rewrite lookup_union_r; [done|].
    destruct (FlagDict other !! key) eqn:Hb; [|done].
    exfalso. apply Hin. apply elem_of_keys. by rewrite Hb.
Qed.

End merged.

(** [verbosity] leads to object 1 here and [v] to object 3 there. *)
Lemma append_then_remove_witness :
  ∃ merged,
    AppendFlagValues (λ flag_name _ _, DuplicateFlagError flag_name)
      Demo.objects Demo.verbosity_registered (Another Demo.v_registered) Demo.caller
    = (merged, inr tt) ∧
    FlagDict merged = FlagDict Demo.v_registered ∪ FlagDict Demo.verbosity_registered ∧
    ∃ restored,
      RemoveFlagValues Demo.objects merged (Another Demo.v_registered) = (restored, inr tt) ∧
      FlagDict restored = FlagDict Demo.verbosity_registered.
Proof.
  assert (Hv : FlagDict Demo.v_registered = {["v" := 3]}) by (vm_compute; reflexivity).
  apply (append_then_remove (λ flag_name _ _, DuplicateFlagError flag_name)
           Demo.objects Demo.verbosity_registered (Another Demo.v_registered) Demo.caller).
  - intros key flag Hkey. cbn [operand] in Hkey. rewrite Hv in Hkey.
    apply lookup_singleton_Some in Hkey as [<- <-].
    split; [left; vm_compute; reflexivity|]. split; [vm_compute; discriminate|].
    split; [vm_compute; reflexivity|]. intros s Hs. vm_compute in Hs. discriminate Hs.
  - intros key [flag Hkey]. cbn [operand] in Hkey. rewrite Hv in Hkey.
    apply lookup_singleton_Some in Hkey as [<- _]. vm_compute. reflexivity.
Defined.

(** ** The validators *)

Section validators.
Context `{Collaborators}.

Lemma verify_each_None validators h self :
  verify_each validators h self = None ↔
  ∀ v, v ∈ validators → Verify v h self = None.
Proof.
  induction validators as [|v vs IH]; simpl.
  - split; [|done]. intros _ v Hin. by apply elem_of_nil in Hin.
  - destruct (Verify v h self) as [message|] eqn:Ev.
    + split; [done|]. intros Hall. specialize (Hall v (list_elem_of_here _ _)). congruence.
    + rewrite IH. split.
      * intros Hall v' [->|Hin]%elem_of_cons; [done | by apply Hall].
      * intros Hall v' Hin. apply Hall. by right.
Qed.

Lemma verify_each_Some validators h self e :
  verify_each validators h self = Some e →
  ∃ l1 v l2 message,
    validators = l1 ++ v :: l2 ∧
    (∀ v', v' ∈ l1 → Verify v' h self = None) ∧
    Verify v h self = Some message ∧ e = IllegalFlagValue message.
Proof.
  induction validators as [|v vs IH]; simpl; [done|].
  destruct (Verify v h self) as [message|] eqn:Ev.
  - intros [= <-]. exists [], v, vs, message. split; [done|]. split; [|done].
    intros v' Hin. by apply elem_of_nil in Hin.
  - intros Hrun. destruct (IH Hrun) as (l1 & v' & l2 & message & -> & Hl1 & Hv & ->).
    exists (v :: l1), v', l2, message. split; [done|]. split; [|done].
    intros v'' [->|Hin]%elem_of_cons; [done | by apply Hl1].
Qed.

(** X24: the validators are satisfied exactly when every one of them is,
    in whatever order they are given; when [_AssertValidators] raises, it
    raises [IllegalFlagValue] with the message of a validator that fails
    while every validator created before it passes.  [_AssertAllValidators]
    is satisfied exactly when every validator of every registered flag
    is. *)
Theorem validators_in_creation_order h self validators :
  (_AssertValidators validators h self = None ↔
   ∀ v, v ∈ validators → Verify v h self = None) ∧
  (∀ e, _AssertValidators validators h self = Some e →
     ∃ v message,
       v ∈ validators ∧ Verify v h self = Some message ∧
       e = IllegalFlagValue message ∧
       ∀ v', v' ∈ validators → insertion_index v' < insertion_index v →
             Verify v' h self = None) ∧
  (_AssertAllValidators h self = None ↔
   ∀ name flag v, FlagDict self !! name = Some flag →
                  v ∈ Flag.validators (deref h flag) → Verify v h self = None).
Proof.
  assert (Hsorted : ∀ vs v, v ∈ merge_sort created_before vs ↔ v ∈ vs).
  { intros vs v. by rewrite merge_sort_Permutation. }
  assert (Hnone : ∀ vs, _AssertValidators vs h self = None ↔
                        ∀ v, v ∈ vs → Verify v h self = None).
  { intros vs. unfold _AssertValidators. rewrite verify_each_None.
    split; intros Hall v Hin; apply Hall; by apply Hsorted. }
  split; [apply Hnone|]. split.
  - intros e Hrun. unfold _AssertValidators in Hrun.
    apply verify_each_Some in Hrun as (l1 & v & l2 & message & Hl & Hl1 & Hv & ->).
    assert (Htrans : Transitive created_before).
    { intros x y z. unfold created_before. lia. }
    assert (Htotal : Total created_before).
    { intros x y. unfold created_before. lia. }
    pose proof (StronglySorted_merge_sort created_before validators) as Hss.
    rewrite Hl in Hss. apply StronglySorted_app_1_r in Hss.
    apply StronglySorted_inv in Hss as [_ Hl2].
    exists v, message. split.
    { apply Hsorted. rewrite Hl. apply elem_of_app. right. by left. }
    split; [done|]. split; [done|].
    intros v' Hin Hlt. apply Hsorted in Hin. rewrite Hl in Hin.
    apply elem_of_app in Hin as [Hin|[->|Hin]%elem_of_cons].
    + by apply Hl1.
    + lia.
    + rewrite Forall_forall in Hl2. specialize (Hl2 v' Hin).
      unfold created_before in Hl2. lia.
  - unfold _AssertAllValidators. cbv zeta. rewrite Hnone. split.
    + intros Hall name flag v Hfl Hin. apply Hall.
      apply elem_of_remove_dups, list_elem_of_In, in_flat_map.
      exists (name, flag). split.
      * apply list_elem_of_In. by apply elem_of_map_to_list.
      * by apply list_elem_of_In.
    + intros Hall v Hin.
      apply elem_of_remove_dups, list_elem_of_In, in_flat_map in Hin
        as ([name flag] & Hin & Hv).
      apply list_elem_of_In, elem_of_map_to_list in Hin.
      apply list_elem_of_In in Hv. by apply (Hall name flag).
Qed.

End validators.

(** ** The two spellings of a flagfile directive *)

Lemma startswith_long_directive f :
  PyStr.startswith ("--flagfile=" +:+ f) "--flagfile=" = true.
Proof.
  unfold PyStr.startswith.
  change (String.prefix "--flagfile=" ("--flagfile=" +:+ f))
    with (String.prefix EmptyString f).
  apply prefix_empty.
Qed.

Lemma startswith_short_directive f :
  PyStr.startswith ("-flagfile=" +:+ f) "-flagfile=" = true.
Proof.
  unfold PyStr.startswith.
  change (String.prefix "-flagfile=" ("-flagfile=" +:+ f))
    with (String.prefix EmptyString f).
  apply prefix_empty.
Qed.

Section spellings.
Context `{Collaborators}.
Variable fs : gmap string string.

(** X25: on the command line [--flagfile f] reads the same file as
    [--flagfile=f], and [-flagfile f] the same as [-flagfile=f], when [f]
    has no white space around it (the form with [=] strips the name, the
    form with two tokens does not); a directive without [=] that is the
    last argument raises [IllegalFlagValue]. *)
Theorem directive_spellings h self f rest force_gnu err :
  PyStr.strip f = f →
  ReadFlagsFromFiles fs h self ("--flagfile" :: f :: rest) force_gnu err
  = ReadFlagsFromFiles fs h self (("--flagfile=" +:+ f) :: rest) force_gnu err ∧
  ReadFlagsFromFiles fs h self ("-flagfile" :: f :: rest) force_gnu err
  = ReadFlagsFromFiles fs h self (("-flagfile=" +:+ f) :: rest) force_gnu err ∧
  ReadFlagsFromFiles fs h self ["--flagfile"] force_gnu err
  = (err, inl (IllegalFlagValue "--flagfile with no argument")) ∧
  ReadFlagsFromFiles fs h self ["-flagfile"] force_gnu err
  = (err, inl (IllegalFlagValue "--flagfile with no argument")).
Proof.
  intros Hstrip. unfold ReadFlagsFromFiles.
  split; [|split; [|split; reflexivity]].
  - cbn [ReadFlagsFromFiles_loop].
    change (__IsFlagFileDirective "--flagfile") with true. cbn match.
    change (bool_decide ("--flagfile" = "--flagfile")) with true. cbn [orb].
    unfold __IsFlagFileDirective, ExtractFilename.
    rewrite startswith_long_directive.
    rewrite !bool_decide_eq_false_2 by discriminate. cbn [orb].
    change (PyStr.slice_from (PyStr.len "--flagfile=") ("--flagfile=" +:+ f)) with f.
    by rewrite Hstrip.
  - cbn [ReadFlagsFromFiles_loop].
    change (__IsFlagFileDirective "-flagfile") with true. cbn match.
    change (bool_decide ("-flagfile" = "--flagfile")) with false.
    change (bool_decide ("-flagfile" = "-flagfile")) with true. cbn [orb].
    unfold __IsFlagFileDirective, ExtractFilename.
    change (PyStr.startswith ("-flagfile=" +:+ f) "--flagfile=") with false.
    rewrite startswith_short_directive.
    destruct (decide ("-flagfile=" +:+ f = "--flagfile")) as [E|_]; [discriminate E|].
    rewrite !bool_decide_eq_false_2 by discriminate. cbn [orb].
    change (PyStr.slice_from (PyStr.len "-flagfile=") ("-flagfile=" +:+ f)) with f.
    by rewrite Hstrip.
Qed.

End spellings.

Lemma directive_spellings_witness :
  @ReadFlagsFromFiles Demo.collaborators Demo.files Demo.switches
    Demo.switches_registered ["--flagfile"; "flags"; "rest"] false []
  = @ReadFlagsFromFiles Demo.collaborators Demo.files Demo.switches
      Demo.switches_registered ["--flagfile=" +:+ "flags"; "rest"] false [].
Proof.
  apply (@directive_spellings Demo.collaborators Demo.files Demo.switches
           Demo.switches_registered "flags" ["rest"] false []).
  vm_compute. reflexivity.
Defined.
